(** * vscode-npm-outdated: version resolution, fetch cache and schedulers

    A shallow embedding of the engine of the extension:
    - [Utils.ts]: [versionClear], [lazyCallback], [promiseLimit];
    - [NPM.ts]: [getPackageVersions], [getPackageLatestVersion],
      [getPackagesInstalled];
    - [DocumentDecoration.ts]: [DocumentDecorationManager],
      [DocumentDecorationLayer], [DocumentDecoration];
    together with a model of the functions of the [semver] package that
    [NPM.ts] imports ([prerelease], [coerce], [gt], [maxSatisfying]).

    JavaScript strings are modelled as [string] (sequences of code units
    below 256), a number whose kind the code does not fix as [JSNumber],
    what [JSON.parse] returns as [JSON], [null]/[undefined] results as
    [option], exceptions as the [Throw] outcome, and the single-threaded
    event loop as explicit transition systems whose steps are the
    macrotasks of the program. *)

From Stdlib Require Import NArith ZArith QArith String Ascii List Bool Lia Lqa.
From stdpp Require Import gmap strings.
Import ListNotations.

Local Open Scope string_scope.
Local Open Scope list_scope.

(** ** Characters and strings as JavaScript sees them *)

Module JS.

(** [\d] *)
Definition isDigit (c : ascii) : bool :=
  let n := N_of_ascii c in ((48 <=? n) && (n <=? 57))%N.

(** [\s], which is also what [trim] and [trimEnd] remove: TAB, LF, VT, FF,
    CR, SP and NBSP are the white space code units below 256. *)
Definition isSpace (c : ascii) : bool :=
  let n := N_of_ascii c in
  (((9 <=? n) && (n <=? 13)) || (n =? 32) || (n =? 160))%N.

(** [[a-zA-Z]] *)
Definition isAlpha (c : ascii) : bool :=
  let n := N_of_ascii c in
  (((65 <=? n) && (n <=? 90)) || ((97 <=? n) && (n <=? 122)))%N.

Definition isEmpty (s : string) : bool :=
  match s with EmptyString => true | String _ _ => false end.

Fixpoint allChars (p : ascii -> bool) (s : string) : bool :=
  match s with
  | EmptyString => true
  | String c r => p c && allChars p r
  end.

Fixpoint anyChar (p : ascii -> bool) (s : string) : bool :=
  match s with
  | EmptyString => false
  | String c r => p c || anyChar p r
  end.

(** [s.trimStart()] *)
Fixpoint trimStart (s : string) : string :=
  match s with
  | EmptyString => EmptyString
  | String c r => if isSpace c then trimStart r else s
  end.

(** [s.trimEnd()] *)
Fixpoint trimEnd (s : string) : string :=
  match s with
  | EmptyString => EmptyString
  | String c r =>
      let r' := trimEnd r in
      if isSpace c && isEmpty r' then EmptyString else String c r'
  end.

(** [s.trim()] *)
Definition trim (s : string) : string := trimEnd (trimStart s).

(** [s.split(sep)] for a one-character separator. *)
Fixpoint split (sep : ascii) (s : string) : list string :=
  match s with
  | EmptyString => [EmptyString]
  | String c r =>
      if Ascii.eqb c sep then EmptyString :: split sep r
      else match split sep r with
           | x :: xs => String c x :: xs
           | [] => [String c EmptyString]
           end
  end.

(** The text before the first [sep] and, when there is one, the text
    after it. *)
Fixpoint cut (sep : ascii) (s : string) : string * option string :=
  match s with
  | EmptyString => (EmptyString, None)
  | String c r =>
      if Ascii.eqb c sep then (EmptyString, Some r)
      else let '(a, b) := cut sep r in (String c a, b)
  end.

(** The longest prefix of digits, and what follows it. *)
Fixpoint spanDigits (s : string) : string * string :=
  match s with
  | EmptyString => (EmptyString, EmptyString)
  | String c r =>
      if isDigit c then let '(a, b) := spanDigits r in (String c a, b)
      else (EmptyString, s)
  end.

(** The value of a string of decimal digits. *)
Definition digitValue (c : ascii) : N := (N_of_ascii c - 48)%N.

Fixpoint decimalFrom (acc : N) (s : string) : N :=
  match s with
  | EmptyString => acc
  | String c r => decimalFrom (10 * acc + digitValue c)%N r
  end.

Definition decimal (s : string) : N := decimalFrom 0 s.

(** What a function call does: it returns a value or throws. *)
Inductive outcome (A : Type) : Type :=
| Return (a : A)
| Throw.
Arguments Return {A} a.
Arguments Throw {A}.

(** A number: a finite one (every finite double is a rational), an
    infinity or [NaN]. *)
Inductive JSNumber : Type :=
| Finite (q : Q)
| PosInfinity
| NegInfinity
| NaN.

(** An integer as a number. *)
Definition ofInteger (n : Z) : JSNumber := Finite (inject_Z n).
Coercion ofInteger : Z >-> JSNumber.

(** [x === 0] *)
Definition isZero (x : JSNumber) : bool :=
  match x with
  | Finite q => Qeq_bool q 0
  | _ => false
  end.

(** [n < x] for an integer [n]: [false] when [x] is [NaN]. *)
Definition lessThan (n : Z) (x : JSNumber) : bool :=
  match x with
  | Finite q => negb (Qle_bool q (inject_Z n))
  | PosInfinity => true
  | NegInfinity | NaN => false
  end.

(** What [JSON.parse] returns. *)
#[local] Unset Elimination Schemes.
Inductive JSON : Type :=
| JNull
| JBoolean (b : bool)
| JNumber (q : Q)
| JString (s : string)
| JArray (items : list JSON)
| JObject (members : list (string * JSON)).
#[local] Set Elimination Schemes.

(** The array of strings [l]. *)
Definition strings (l : list string) : JSON := JArray (map JString l).

(** The strings of a list of values, when they are all strings. *)
Fixpoint allStrings (items : list JSON) : option (list string) :=
  match items with
  | [] => Some []
  | JString s :: rest =>
      match allStrings rest with
      | Some l => Some (s :: l)
      | None => None
      end
  | _ :: _ => None
  end.

End JS.

Import JS.

(** ** Utils.ts: versionClear *)

(** [version.replace(/^\D+/, "")]: the leading run of non-digits goes. *)
Fixpoint stripNonDigitPrefix (version : string) : string :=
  match version with
  | EmptyString => EmptyString
  | String c r => if isDigit c then version else stripNonDigitPrefix r
  end.

(** [versionClear = version => version.replace(/^\D+/, "").trimEnd()] *)
Definition versionClear (version : string) : string :=
  trimEnd (stripNonDigitPrefix version).

(** ** The semver package, as far as NPM.ts uses it

    [NPM.ts] imports [coerce], [gt], [maxSatisfying] and [prerelease] from
    the [semver] package (node-semver 7, strict mode).  The package is not
    part of the repository; the definitions of this module follow its
    documented behaviour.  Numeric components are naturals; the package's
    bound [MAX_SAFE_INTEGER] on major, minor and patch is kept, its bound
    of 256 characters on a version string is kept as well.  A numeric
    prerelease identifier is a number when it is below [MAX_SAFE_INTEGER]
    and stays a string of digits otherwise; [compareIdentifiers] turns
    such strings into doubles. *)

Module Semver.

Definition MAX_SAFE_INTEGER : N := 9007199254740991.
Definition MAX_LENGTH : nat := 256.
Definition MAX_SAFE_COMPONENT_LENGTH : nat := 16.

(** A prerelease identifier as the parsed version holds it: a number
    (below [MAX_SAFE_INTEGER]), or a string. *)
Inductive Identifier : Type :=
| INum (n : N)
| IStr (s : string).

(** [+s] for a string of digits with the value [n]: the double nearest to
    [n], ties to the even mantissa, as the natural it is.  Naturals below
    [2^53] are doubles; a version has at most 256 characters, which keeps
    [n] far below the largest double. *)
Definition toDouble (n : N) : N :=
  if (n <? 2 ^ 53)%N then n
  else
    let e := (N.log2 n - 52)%N in
    let q := N.shiftr n e in
    let r := (n - N.shiftl q e)%N in
    let half := N.shiftl 1 (e - 1) in
    let q' :=
      if (r <? half)%N then q
      else if (half <? r)%N then (q + 1)%N
      else if N.even q then q else (q + 1)%N in
    N.shiftl q' e.

Record SemVer : Type := mkSemVer {
  major : N;
  minor : N;
  patch : N;
  pre : list Identifier;
  build : list string
}.

(** [[0-9A-Za-z-]] *)
Definition isIdentChar (c : ascii) : bool :=
  isDigit c || isAlpha c || Ascii.eqb c "-".

(** NUMERICIDENTIFIER, [0|[1-9]\d*]: digits without a leading zero. *)
Definition numericIdentifier (s : string) : option N :=
  match s with
  | EmptyString => None
  | String c r =>
      if allChars isDigit s && (negb (Ascii.eqb c "0") || isEmpty r)
      then Some (decimal s) else None
  end.

(** PRERELEASEIDENTIFIER: a numeric identifier, or a non-empty word over
    [[0-9A-Za-z-]] with at least one non-digit.  The constructor of
    [SemVer] keeps a numeric identifier as a number when
    [num < MAX_SAFE_INTEGER] and as the string it is otherwise. *)
Definition prereleaseIdentifier (s : string) : option Identifier :=
  if isEmpty s || negb (allChars isIdentChar s) then None
  else if allChars isDigit s then
    match numericIdentifier s with
    | Some n => Some (if (n <? MAX_SAFE_INTEGER)%N then INum n else IStr s)
    | None => None
    end
  else Some (IStr s).

(** BUILDIDENTIFIER, [[0-9A-Za-z-]+] *)
Definition buildIdentifier (s : string) : option string :=
  if isEmpty s || negb (allChars isIdentChar s) then None else Some s.

Fixpoint traverse {A B : Type} (f : A -> option B) (l : list A)
  : option (list B) :=
  match l with
  | [] => Some []
  | x :: xs =>
      match f x, traverse f xs with
      | Some y, Some ys => Some (y :: ys)
      | _, _ => None
      end
  end.

(** The dot-separated identifiers after [-] (or after [+]); an absent
    part is the empty list. *)
Definition identifiers {B : Type} (f : string -> option B)
  (part : option string) : option (list B) :=
  match part with
  | None => Some []
  | Some s => traverse f (split "." s)
  end.

Definition safe (n : N) : bool := (n <=? MAX_SAFE_INTEGER)%N.

(** The three numeric components of MAINVERSION. *)
Definition mainVersion (s : string) : option (N * N * N) :=
  match split "." s with
  | [a; b; c] =>
      match numericIdentifier a, numericIdentifier b, numericIdentifier c with
      | Some x, Some y, Some z =>
          if safe x && safe y && safe z then Some (x, y, z) else None
      | _, _, _ => None
      end
  | _ => None
  end.

Definition stripV (s : string) : string :=
  match s with
  | String "v" r => r
  | _ => s
  end.

(** FULL, [^v?M.m.p(-prerelease)?(+build)?$], on text that is already
    trimmed.  A [+] can only start the build part and, before it, a [-]
    can only start the prerelease part. *)
Definition parseFull (s : string) : option SemVer :=
  let '(mainpre, bld) := cut "+" (stripV s) in
  let '(main, pre) := cut "-" mainpre in
  match mainVersion main,
        identifiers prereleaseIdentifier pre,
        identifiers buildIdentifier bld with
  | Some (x, y, z), Some p, Some b => Some (mkSemVer x y z p b)
  | _, _, _ => None
  end.

(** [new SemVer(version)]: [None] where the constructor throws. *)
Definition parse (version : string) : option SemVer :=
  let s := trim version in
  if (String.length version <=? MAX_LENGTH)%nat then parseFull s else None.

(** When [/^[0-9]+$/] matches an identifier, the number [+a] it is
    compared as: a number is itself, a string of digits is turned into a
    double. *)
Definition numericValue (a : Identifier) : option N :=
  match a with
  | INum n => Some n
  | IStr s =>
      if negb (isEmpty s) && allChars isDigit s
      then Some (toDouble (decimal s)) else None
  end.

(** The identifier as a string, for [<] between two strings. *)
Definition identifierText (a : Identifier) : string :=
  match a with
  | INum _ => EmptyString
  | IStr s => s
  end.

(** [compareIdentifiers]: two numeric identifiers compare as numbers, so
    that two of them that round to one double are equal; a numeric
    identifier is lower than one that is not; two others compare as
    strings, by code units. *)
Definition compareIdentifiers (a b : Identifier) : comparison :=
  match numericValue a, numericValue b with
  | Some x, Some y => (x ?= y)%N
  | Some _, None => Lt
  | None, Some _ => Gt
  | None, None => String.compare (identifierText a) (identifierText b)
  end.

Fixpoint compareIdentifierLists (a b : list Identifier) : comparison :=
  match a, b with
  | [], [] => Eq
  | [], _ :: _ => Lt
  | _ :: _, [] => Gt
  | x :: a', y :: b' =>
      match compareIdentifiers x y with
      | Eq => compareIdentifierLists a' b'
      | c => c
      end
  end.

(** [SemVer.comparePre]: a version without prerelease is greater than
    one with. *)
Definition comparePre (a b : SemVer) : comparison :=
  match pre a, pre b with
  | [], [] => Eq
  | _ :: _, [] => Lt
  | [], _ :: _ => Gt
  | pa, pb => compareIdentifierLists pa pb
  end.

Definition lexico (c d : comparison) : comparison :=
  match c with Eq => d | _ => c end.

(** [SemVer.compareMain] *)
Definition compareMain (a b : SemVer) : comparison :=
  lexico (major a ?= major b)%N
    (lexico (minor a ?= minor b)%N (patch a ?= patch b)%N).

(** [SemVer.compare]: build metadata is ignored. *)
Definition compare (a b : SemVer) : comparison :=
  lexico (compareMain a b) (comparePre a b).

(** [prerelease(version)]: the prerelease identifiers, [null] when the
    version does not parse or has none. *)
Definition prerelease (version : string) : option (list Identifier) :=
  match parse version with
  | Some sv =>
      match pre sv with
      | [] => None
      | p => Some p
      end
  | None => None
  end.

(** [gt(a, b)]: throws when either side does not parse. *)
Definition gt (a b : string) : outcome bool :=
  match parse a, parse b with
  | Some x, Some y =>
      Return (match compare x y with Gt => true | _ => false end)
  | _, _ => Throw
  end.

(** *** Ranges *)

Inductive Operator : Type := OpEq | OpLt | OpLe | OpGt | OpGe.

(** A comparator: an operator with a version, or [ANY] (the empty
    comparator, which every version passes). *)
Inductive Comparator : Type :=
| ANY
| Cmp (op : Operator) (sv : SemVer).

(** A range is a disjunction of comparator sets. *)
Definition Range : Type := list (list Comparator).

(** [cmp(a, op, b)] *)
Definition cmp (op : Operator) (a b : SemVer) : bool :=
  match op, compare a b with
  | OpEq, Eq => true
  | OpLt, Lt => true
  | OpLe, (Lt | Eq) => true
  | OpGt, Gt => true
  | OpGe, (Gt | Eq) => true
  | _, _ => false
  end.

Definition Comparator_test (c : Comparator) (v : SemVer) : bool :=
  match c with
  | ANY => true
  | Cmp op sv => cmp op v sv
  end.

Definition hasPrerelease (v : SemVer) : bool :=
  match pre v with [] => false | _ :: _ => true end.

(** A comparator with a prerelease tag lets prereleases of its own
    [major.minor.patch] through. *)
Definition allowsPrereleaseOf (v : SemVer) (c : Comparator) : bool :=
  match c with
  | ANY => false
  | Cmp _ sv =>
      hasPrerelease sv
      && (major sv =? major v)%N && (minor sv =? minor v)%N
      && (patch sv =? patch v)%N
  end.

(** [testSet(set, version, options)] *)
Definition testSet (set : list Comparator) (v : SemVer)
  (includePrerelease : bool) : bool :=
  forallb (fun c => Comparator_test c v) set
  && (if hasPrerelease v && negb includePrerelease
      then existsb (allowsPrereleaseOf v) set
      else true).

(** [Range.test(version)] for a version given as a string. *)
Definition Range_test (r : Range) (includePrerelease : bool)
  (version : string) : bool :=
  match parse version with
  | Some v => existsb (fun set => testSet set v includePrerelease) r
  | None => false
  end.

(** XRANGEIDENTIFIER: a numeric identifier, or one of [x], [X], [*]. *)
Inductive XId : Type :=
| XNum (n : N)
| XAny.

Definition xrangeIdentifier (s : string) : option XId :=
  if String.eqb s "x" || String.eqb s "X" || String.eqb s "*"
  then Some XAny
  else option_map XNum (numericIdentifier s).

(** What XRANGEPLAIN captures: three identifiers (an absent one counts
    as a wildcard, as [isX] has it), the prerelease identifiers, and the
    captured text up to the build part. *)
Record XRange : Type := mkXRange {
  xM : XId;
  xm : XId;
  xp : XId;
  xpre : list Identifier;
  xtext : string
}.

(** The prefix [[v=\s]*] of XRANGEPLAIN, on text without white space. *)
Fixpoint stripVEq (s : string) : string :=
  match s with
  | String c r =>
      if Ascii.eqb c "v" || Ascii.eqb c "=" then stripVEq r else s
  | EmptyString => s
  end.

(** XRANGEPLAIN followed by [$], on text without white space:
    [[v=]*X(\.X(\.X(-prerelease)?(+build)?)?)?]. *)
Definition xrangePlain (s : string) : option XRange :=
  let '(mainpre, bld) := cut "+" (stripVEq s) in
  let '(main, prl) := cut "-" mainpre in
  match split "." main, prl, bld with
  | [a], None, None =>
      match xrangeIdentifier a with
      | Some x => Some (mkXRange x XAny XAny [] mainpre)
      | None => None
      end
  | [a; b], None, None =>
      match xrangeIdentifier a, xrangeIdentifier b with
      | Some x, Some y => Some (mkXRange x y XAny [] mainpre)
      | _, _ => None
      end
  | [a; b; c], _, _ =>
      match xrangeIdentifier a, xrangeIdentifier b, xrangeIdentifier c,
            identifiers prereleaseIdentifier prl,
            identifiers buildIdentifier bld with
      | Some x, Some y, Some z, Some p, Some _ =>
          Some (mkXRange x y z p mainpre)
      | _, _, _, _, _ => None
      end
  | _, _, _ => None
  end.

(** The version of a desugared comparator; [None] where [new SemVer]
    would throw on it. *)
Definition version (M m p : N) (pr : list Identifier) : option SemVer :=
  if safe M && safe m && safe p then Some (mkSemVer M m p pr []) else None.

(** [>=lo <hi] *)
Definition between (lo hi : option SemVer) : option (list Comparator) :=
  match lo, hi with
  | Some l, Some h => Some [Cmp OpGe l; Cmp OpLt h]
  | _, _ => None
  end.

(** The upper bounds end in [-0], the lowest prerelease there is. *)
Definition zero : list Identifier := [INum 0].

(** [replaceCaret]: [^1.2.3] is [>=1.2.3 <2.0.0-0], and the leading
    non-zero component is the one held fixed. *)
Definition replaceCaret (x : XRange) (includePrerelease : bool)
  : option (list Comparator) :=
  let z := if includePrerelease then zero else [] in
  match xM x, xm x, xp x with
  | XAny, _, _ => Some [ANY]
  | XNum M, XAny, _ => between (version M 0 0 z) (version (M + 1) 0 0 zero)
  | XNum M, XNum m, XAny =>
      if (M =? 0)%N
      then between (version M m 0 z) (version M (m + 1) 0 zero)
      else between (version M m 0 z) (version (M + 1) 0 0 zero)
  | XNum M, XNum m, XNum p =>
      let hi :=
        if (M =? 0)%N
        then if (m =? 0)%N then version M m (p + 1) zero
             else version M (m + 1) 0 zero
        else version (M + 1) 0 0 zero in
      match xpre x with
      | (_ :: _) as pr =>
          if (String.length (xtext x) <=? MAX_LENGTH)%nat
          then between (version M m p pr) hi
          else None
      | [] =>
          between (version M m p (if (M =? 0)%N then z else [])) hi
      end
  end.

(** Whether one of the three identifiers is a wildcard or absent. *)
Definition isPartial (x : XRange) : bool :=
  match xM x, xm x, xp x with
  | XNum _, XNum _, XNum _ => false
  | _, _, _ => true
  end.

(** [replaceXRange] for the operator [>=]: wildcards become zeros; a
    version without wildcard stays as it is written. *)
Definition replaceXRangeGte (x : XRange) (includePrerelease : bool)
  : option (list Comparator) :=
  let z := if includePrerelease then zero else [] in
  let ge (v : option SemVer) :=
    match v with Some l => Some [Cmp OpGe l] | None => None end in
  match xM x, xm x, xp x with
  | XAny, _, _ => Some [ANY]
  | XNum M, XAny, _ => ge (version M 0 0 z)
  | XNum M, XNum m, XAny => ge (version M m 0 z)
  | XNum M, XNum m, XNum p => ge (version M m p (xpre x))
  end.

(** [replaceGTE0]: [>=0.0.0] (with [includePrerelease], [>=0.0.0-0])
    is the empty comparator.  (The package then drops an empty comparator
    that has company in its set, and keeps one of several comparators
    that print the same; a set accepts the same versions with and
    without them, and they are kept here.) *)
Definition replaceGTE0 (includePrerelease : bool) (c : Comparator)
  : Comparator :=
  match c with
  | Cmp OpGe (mkSemVer 0 0 0 p _) =>
      match p, includePrerelease with
      | [], false => ANY
      | [INum 0], true => ANY
      | _, _ => c
      end
  | _ => c
  end.

(** The ranges this development spells out are made of comparators of
    the two shapes [NPM.ts] builds: [^] followed by a version or a
    partial version, and [>=] followed by a version or a partial
    version.  A range is either one such comparator, on text in one piece
    (no white space, no [|]), or several of them with one space between
    each two. *)
Definition onePiece (s : string) : bool :=
  negb (anyChar (fun c => isSpace c || Ascii.eqb c "|") s).

(** A comparator [>=] with a version written in full.  The text stays as
    it is up to [replaceGTE0], which looks at the text: where it would
    turn the comparator into the empty one only for another spelling of
    the version, the case is left to the parameter below. *)
Definition gteVersion (s : string) (includePrerelease : bool)
  : option (option (list Comparator)) :=
  match parse s with
  | Some v =>
      match replaceGTE0 includePrerelease (Cmp OpGe v) with
      | ANY =>
          if String.eqb s (if includePrerelease then "0.0.0-0" else "0.0.0")
          then Some (Some [Cmp OpGe v])
          else None
      | _ => Some (Some [Cmp OpGe v])
      end
  | None => Some None
  end.

(** One comparator, on text without white space and [|], up to
    [replaceGTE0]: [None] when it has neither of the two shapes,
    [Some None] where the package throws on it.  (Of the replacements
    the package runs over a comparator, [replaceStars] is the one that is
    not anchored: text after [>=] that is no version and holds a [*] is
    left to the parameter.) *)
Definition parseComparator (comp : string) (includePrerelease : bool)
  : option (option (list Comparator)) :=
  match comp with
  | String "^" s =>
      if onePiece s
      then Some (match xrangePlain s with
                 | Some x => replaceCaret x includePrerelease
                 | None => None
                 end)
      else None
  | String ">" (String "=" s) =>
      if onePiece s
      then match xrangePlain s with
           | Some x =>
               if isPartial x
               then Some (replaceXRangeGte x includePrerelease)
               else gteVersion s includePrerelease
           | None =>
               if anyChar (fun c => Ascii.eqb c "*") s then None
               else Some None
           end
      else None
  | _ => None
  end.

(** [[0-9A-Za-z.+-]], the characters of a version. *)
Definition isVersionChar (c : ascii) : bool :=
  isIdentChar c || Ascii.eqb c "." || Ascii.eqb c "+".

(** A comparator of one of the two shapes whose operand is not empty and
    made of the characters of versions.  Between such comparators the
    trimming of the package ([> 1.2.3], [~ 1.2.3], [^ 1.2.3]) and its
    hyphen ranges find nothing to do. *)
Definition wellShaped (comp : string) : bool :=
  match comp with
  | String "^" s => negb (isEmpty s) && allChars isVersionChar s
  | String ">" (String "=" s) => negb (isEmpty s) && allChars isVersionChar s
  | _ => false
  end.

(** [range.split(' ')] with every comparator parsed, for a range of
    well-shaped comparators: the comparators of all of them together;
    [Some None] where one of them throws. *)
Definition parseComparators (range : string) (includePrerelease : bool)
  : option (option (list Comparator)) :=
  let comps := split " " range in
  if forallb wellShaped comps then
    match traverse (fun comp => parseComparator comp includePrerelease)
            comps with
    | Some sets => Some (option_map (@concat Comparator) (traverse id sets))
    | None => None
    end
  else None.

Section Range.

(** The rest of the range grammar ([||], the other operators, hyphen
    ranges, other white space) is a parameter. *)
Variable Range_other : string -> bool -> option Range.

(** [new Range(range, options)]: [None] where the constructor
    throws. *)
Definition Range_parse (range : string) (includePrerelease : bool)
  : option Range :=
  let desugared :=
    match parseComparator range includePrerelease with
    | Some set => Some set
    | None => parseComparators range includePrerelease
    end in
  match desugared with
  | Some (Some set) => Some [map (replaceGTE0 includePrerelease) set]
  | Some None => None
  | None => Range_other range includePrerelease
  end.

(** [maxSatisfying(versions, range, options)]: the first of the
    greatest versions of the list that the range accepts, as the
    string the list has; [null] when there is none or the range is
    invalid. *)
Definition maxStep (r : Range) (includePrerelease : bool)
  (acc : option (string * SemVer)) (v : string)
  : option (string * SemVer) :=
  if Range_test r includePrerelease v then
    match parse v, acc with
    | Some sv, None => Some (v, sv)
    | Some sv, Some (_, maxSV) =>
        match compare maxSV sv with
        | Lt => Some (v, sv)
        | _ => acc
        end
    | None, _ => acc
    end
  else acc.

Definition maxSatisfying (versions : list string) (range : string)
  (includePrerelease : bool) : option string :=
  match Range_parse range includePrerelease with
  | None => None
  | Some r =>
      option_map fst
        (fold_left (maxStep r includePrerelease) versions None)
  end.

End Range.

(** *** coerce *)

(** The first run of digits [(^|[^\d])(\d{1,16})] can match: a maximal
    run of at most sixteen digits; longer runs are passed over. The
    flag tells whether the previous character was not a digit. *)
Fixpoint coerceScan (boundary : bool) (s : string)
  : option (string * string) :=
  match s with
  | EmptyString => None
  | String c r =>
      if isDigit c then
        let '(run, rest) := spanDigits s in
        if boundary && (String.length run <=? MAX_SAFE_COMPONENT_LENGTH)%nat
        then Some (run, rest)
        else coerceScan false r
      else coerceScan true r
  end.

(** [(?:\.(\d{1,16}))?] *)
Definition coerceGroup (s : string) : option (string * string) :=
  match s with
  | String "." r =>
      let '(run, rest) := spanDigits r in
      if negb (isEmpty run)
         && (String.length run <=? MAX_SAFE_COMPONENT_LENGTH)%nat
      then Some (run, rest)
      else None
  | _ => None
  end.

(** [coerce(version)]: the text of the coerced version (a coerced
    version prints as the digits it was read from), [None] for
    [null]. *)
Definition coerce (version : string) : option string :=
  match coerceScan true version with
  | None => None
  | Some (M, rest) =>
      let '(m, p) :=
        match coerceGroup rest with
        | None => ("0", "0")
        | Some (m, rest') =>
            match coerceGroup rest' with
            | None => (m, "0")
            | Some (p, _) => (m, p)
            end
        end in
      let text := M +:+ "." +:+ m +:+ "." +:+ p in
      match parse text with
      | Some _ => Some text
      | None => None
      end
  end.

End Semver.

Import Semver.

(** ** NPM.ts: the suggested version *)

Section Resolution.

Variable Range_other : string -> bool -> option Range.

(** The template literal [`^${v}`]: a [null] prints as ["null"]. *)
Definition caretOf (v : option string) : string :=
  "^" +:+ match v with Some t => t | None => "null" end.

(** What the function does with an array that holds something else than
    strings: [Range.test] skips the falsy elements and hands the others
    to the comparators, which is not modelled. *)
Variable mixed : list JSON -> string -> bool -> outcome (option string).

(** [getPackageLatestVersion], from the point where the awaited
    [getPackageVersions(packageInfo.name)] has delivered [payload], the
    value [JSON.parse] made of the output of [npm view] (the declared
    type [string[]] is not checked).  [version] is [packageInfo.version]
    and [majorUpdateProtection] is what [hasMajorUpdateProtection()]
    returns.  The first [maxSatisfying] builds the range [">=0"] and then
    calls [versions.forEach], which only an array has: on any other
    payload the call throws a [TypeError]. *)
Definition getPackageLatestVersion (payload : JSON)
  (version : string) (majorUpdateProtection : bool)
  : outcome (option string) :=
  let versionClean := versionClear version in
  let isPrerelease :=
    match prerelease versionClean with Some _ => true | None => false end in
  match payload with
  | JArray items =>
      match allStrings items with
      | None => mixed items version majorUpdateProtection
      | Some packageVersions =>
        let versionLatest :=
          maxSatisfying Range_other packageVersions ">=0" isPrerelease in
        (* if (!hasMajorUpdateProtection()) return versionLatest *)
        if negb majorUpdateProtection then Return versionLatest
        else
          (* what follows the block [if (isPrerelease) { ... }] *)
          let fromRange :=
            let versionSatisfying :=
              maxSatisfying Range_other packageVersions
                (caretOf (Some versionClean)) isPrerelease in
            (* if (!versionSatisfying || versionClean === versionSatisfying) *)
            match versionSatisfying with
            | None => Return versionLatest
            | Some vs =>
                if isEmpty vs || String.eqb versionClean vs
                then Return versionLatest
                else Return versionSatisfying
            end in
          if isPrerelease then
            let versionNonPrerelease :=
              maxSatisfying Range_other packageVersions
                (caretOf (coerce versionClean)) false in
            (* if (versionNonPrerelease && gt(versionNonPrerelease, versionClean)) *)
            match versionNonPrerelease with
            | None => fromRange
            | Some vnp =>
                if isEmpty vnp then fromRange
                else
                  match gt vnp versionClean with
                  | Throw => Throw
                  | Return true => Return versionNonPrerelease
                  | Return false => fromRange
                  end
            end
          else fromRange
      end
  | _ => Throw
  end.

End Resolution.

(** ** NPM.ts: the two cached queries *)

(** Modelled from the spec: the class [Cache] of [Cache.ts], which is not
    among the sources.  An entry holds its value and the time of its
    creation, and "is valid iff [now - createdAt < ttl]". *)
Record Cache (T : Type) : Type := mkCache {
  value : T;
  createdAt : Z
}.
Arguments mkCache {T} value createdAt.
Arguments value {T} c.
Arguments createdAt {T} c.

(** Modelled from the spec: the method [isValid(lifetime)] of [Cache],
    "an entry is valid iff [now - createdAt < ttl]", with [now] what
    [Date.now()] returns at the call. *)
Definition isValid {T : Type} (c : Cache T) (now lifetime : Z) : bool :=
  (now - createdAt c <? lifetime)%Z.

(** The state of a promise. *)
Inductive PromiseState (T : Type) : Type :=
| Pending
| Fulfilled (v : T)
| Rejected.
Arguments Pending {T}.
Arguments Fulfilled {T} v.
Arguments Rejected {T}.

(** [PackagesInstalled = Record<string, string>] *)
Definition PackagesInstalled : Type := gmap string string.

(** One [exec] of [npm view --json <name> versions] with the promise its
    callback settles, and one [exec] of [npm ls --json --depth=0]. A
    promise is referred to by the position of its [exec] in the list of
    those started so far. *)
Record ViewExec : Type := mkViewExec {
  viewName : string;
  viewPromise : PromiseState JSON
}.

Record LsExec : Type := mkLsExec {
  lsCwd : string;
  lsPromise : PromiseState (option PackagesInstalled)
}.

(** The module state of [NPM.ts] together with the clock [Date.now()]
    and the child processes started. *)
Record NPM : Type := mkNPM {
  now : Z;
  CACHE_PACKAGES : gmap string (Cache nat);
  CACHE_PACKAGES_INSTALLED : option (Cache nat);
  views : list ViewExec;
  lss : list LsExec
}.

(** The module as loaded at time [t]: both caches empty. *)
Definition NPM_init (t : Z) : NPM := mkNPM t ∅ None [] [].

Section Fetch.

(** [JSON.parse] on the output of [npm view]: the value, or [None] where
    it throws. *)
Variable JSON_parse_view : string -> option JSON.

(** [JSON.parse] on the output of [npm ls]: [None] where it throws,
    otherwise the [dependencies] of the response (name to version),
    when it has any. *)
Variable JSON_parse_ls : string -> option (option PackagesInstalled).

(** The names of the properties of [Object.prototype]. *)
Definition Object_prototype : list string :=
  ["constructor"; "__defineGetter__"; "__defineSetter__"; "hasOwnProperty";
   "__lookupGetter__"; "__lookupSetter__"; "isPrototypeOf";
   "propertyIsEnumerable"; "toString"; "valueOf"; "__proto__";
   "toLocaleString"].

Definition inherited (name : string) : bool :=
  existsb (String.eqb name) Object_prototype.

(** Whether [CACHE_PACKAGES[name]?.isValid(...)] throws.  [CACHE_PACKAGES]
    is an object literal: for a name that has no entry and is a property
    of [Object.prototype], [CACHE_PACKAGES[name]] is the inherited
    property, which is neither [null] nor [undefined] and has no method
    [isValid]. *)
Definition lookupThrows (name : string) (st : NPM) : bool :=
  match CACHE_PACKAGES st !! name with
  | Some _ => false
  | None => inherited name
  end.

(** [getPackageVersions(name)] where the lookup does not throw, with
    [lifetime] what [getCacheLifetime()] returns: the promise the call
    hands back (the [async] wrapper adopts it) and the state after the
    call. *)
Definition getPackageVersions (name : string) (lifetime : Z) (st : NPM)
  : nat * NPM :=
  let cached :=
    match CACHE_PACKAGES st !! name with
    | Some c => if isValid c (now st) lifetime then Some (value c) else None
    | None => None
    end in
  match cached with
  | Some p => (p, st)
  | None =>
      let execPromise := length (views st) in
      (execPromise,
       mkNPM (now st)
         (<[name := mkCache execPromise (now st)]> (CACHE_PACKAGES st))
         (CACHE_PACKAGES_INSTALLED st)
         (views st ++ [mkViewExec name Pending])
         (lss st))
  end.

(** A call of [getPackageVersions(name)] as a whole: where the lookup
    throws, the [async] function returns a rejected promise, and nothing
    is looked up or started. *)
Definition callVersions (name : string) (lifetime : Z) (st : NPM)
  : outcome (nat * NPM) :=
  if lookupThrows name st then Throw
  else Return (getPackageVersions name lifetime st).

(** The callback [(error, stdout) => ...] that [exec] calls, once, for
    the [npm view] numbered [id]. *)
Definition viewCallback (id : nat) (error : bool) (stdout : string)
  (st : NPM) : NPM :=
  match views st !! id with
  | Some (mkViewExec name Pending) =>
      let parsed := if error then None else JSON_parse_view stdout in
      match parsed with
      | Some versions =>
          mkNPM (now st) (CACHE_PACKAGES st) (CACHE_PACKAGES_INSTALLED st)
            (<[id := mkViewExec name (Fulfilled versions)]> (views st))
            (lss st)
      | None =>
          mkNPM (now st) (delete name (CACHE_PACKAGES st))
            (CACHE_PACKAGES_INSTALLED st)
            (<[id := mkViewExec name Rejected]> (views st))
            (lss st)
      end
  | _ => st
  end.

(** [getPackagesInstalled(document)], with [cwd] the directory of the
    document. *)
Definition getPackagesInstalled (cwd : string) (st : NPM) : nat * NPM :=
  let cached :=
    match CACHE_PACKAGES_INSTALLED st with
    | Some c => if isValid c (now st) (60 * 1000) then Some (value c) else None
    | None => None
    end in
  match cached with
  | Some p => (p, st)
  | None =>
      let execPromise := length (lss st) in
      (execPromise,
       mkNPM (now st) (CACHE_PACKAGES st)
         (Some (mkCache execPromise (now st)))
         (views st)
         (lss st ++ [mkLsExec cwd Pending]))
  end.

(** The callback [(_error, stdout) => ...] of the [npm ls] numbered
    [id]: the error is not looked at. *)
Definition lsCallback (id : nat) (error : bool) (stdout : string)
  (st : NPM) : NPM :=
  match lss st !! id with
  | Some (mkLsExec cwd Pending) =>
      let result :=
        if isEmpty stdout then None
        else match JSON_parse_ls stdout with
             | Some (Some dependencies) => Some dependencies
             | _ => None
             end in
      mkNPM (now st) (CACHE_PACKAGES st) (CACHE_PACKAGES_INSTALLED st)
        (views st)
        (<[id := mkLsExec cwd (Fulfilled result)]> (lss st))
  | _ => st
  end.

(** What can happen to the module, one macrotask at a time; [Tick dt]
    moves [Date.now()] by [dt], back when the system clock is set back. *)
Inductive NPMEvent : Type :=
| CallVersions (name : string) (lifetime : Z)
| CallInstalled (cwd : string)
| ViewDone (id : nat) (error : bool) (stdout : string)
| LsDone (id : nat) (error : bool) (stdout : string)
| Tick (dt : Z).

Definition NPM_step (st : NPM) (e : NPMEvent) : NPM :=
  match e with
  | CallVersions name lifetime =>
      match callVersions name lifetime st with
      | Return (_, st') => st'
      | Throw => st
      end
  | CallInstalled cwd => snd (getPackagesInstalled cwd st)
  | ViewDone id error stdout => viewCallback id error stdout st
  | LsDone id error stdout => lsCallback id error stdout st
  | Tick dt =>
      mkNPM (now st + dt) (CACHE_PACKAGES st)
        (CACHE_PACKAGES_INSTALLED st) (views st) (lss st)
  end.

Definition NPM_run (st : NPM) (es : list NPMEvent) : NPM :=
  fold_left NPM_step es st.

(** The [npm view] queries issued so far for a package. *)
Definition queriesFor (name : string) (st : NPM) : nat :=
  length (filter (fun n => n = name) (map viewName (views st))).

Definition callsFor (name : string) (e : NPMEvent) : bool :=
  match e with
  | CallVersions n _ => bool_decide (n = name)
  | _ => false
  end.

End Fetch.

(** ** Utils.ts: lazyCallback *)

Section LazyCallback.

(** The arguments of one call of the callback. *)
Context {A : Type}.

(** The calls of the activator that the callback makes before it returns
    or first suspends, as the arguments of each: the callback is given
    the arguments of the invocations before this one and its own.  (Calls
    it makes after it suspended are events like those of any other
    caller.) *)
Variable callback : list A -> A -> list A.

(** [wait] and [delay], in milliseconds.  How long a timer takes is not
    modelled, only that it fires; of the two numbers the code itself
    looks at [wait === 0]. *)
Variables wait delay : N.

(** The two variables of the closure, [isRunning] and [argsNext], and
    around them what the event loop holds for it: the timers set with
    [wait] (each with the arguments it will call the callback with), the
    invocations of the callback that have started and not settled, and
    the timers set with [delay].  [invoked] logs every invocation of the
    callback, and [called] every call of the activator by its users and
    by the callback. *)
Record Lazy : Type := mkLazy {
  isRunning : bool;
  argsNext : option A;
  waitTimers : list A;
  inFlight : list A;
  delayTimers : nat;
  invoked : list A;
  called : list A
}.

(** The activator that [lazyCallback(callback, wait, delay)] returns, as
    it is created: [isRunning = false], [argsNext = undefined]. *)
Definition lazyCallback : Lazy := mkLazy false None [] [] 0 [] [].

(** [callback(...args)] up to the point where it returns or first
    suspends.  [isRunning] holds whenever the callback runs, so each call
    of the activator it makes here takes the [else] branch,
    [argsNext = args]: the arguments of the last of them are pending. *)
Definition invoke (args : A) (st : Lazy) : Lazy :=
  let calls := callback (invoked st) args in
  mkLazy (isRunning st)
    (match last calls with Some next => Some next | None => argsNext st end)
    (waitTimers st) (inFlight st ++ [args]) (delayTimers st)
    (invoked st ++ [args]) (called st ++ calls).

(** The body of the activator up to its first suspension. *)
Definition start (args : A) (st : Lazy) : Lazy :=
  if negb (isRunning st) then
    let st :=
      mkLazy true (argsNext st) (waitTimers st) (inFlight st)
        (delayTimers st) (invoked st) (called st) in
    if (wait =? 0)%N then invoke args st
    else
      mkLazy (isRunning st) (argsNext st) (waitTimers st ++ [args])
        (inFlight st) (delayTimers st) (invoked st) (called st)
  else
    mkLazy (isRunning st) (Some args) (waitTimers st) (inFlight st)
      (delayTimers st) (invoked st) (called st).

(** [activate(...args)], called by a user of the trigger, up to its first
    suspension. *)
Definition activate (args : A) (st : Lazy) : Lazy :=
  start args
    (mkLazy (isRunning st) (argsNext st) (waitTimers st) (inFlight st)
       (delayTimers st) (invoked st) (called st ++ [args])).

(** The timer set with [wait] fires: [await callback(...args)] starts. *)
Definition waitFires (i : nat) (st : Lazy) : Lazy :=
  match waitTimers st !! i with
  | Some args =>
      invoke args
        (mkLazy (isRunning st) (argsNext st) (delete i (waitTimers st))
           (inFlight st) (delayTimers st) (invoked st) (called st))
  | None => st
  end.

(** An invocation of the callback settles.  When it is fulfilled the
    activation goes on to [setTimeout(..., delay)]; when it throws or is
    rejected the [await] throws and the activation ends there. *)
Definition settles (i : nat) (fulfilled : bool) (st : Lazy) : Lazy :=
  match inFlight st !! i with
  | Some _ =>
      mkLazy (isRunning st) (argsNext st) (waitTimers st)
        (delete i (inFlight st))
        (if fulfilled then S (delayTimers st) else delayTimers st)
        (invoked st) (called st)
  | None => st
  end.

(** The timer set with [delay] fires:
    [isRunning = false; if (argsNext !== undefined)
      { activate(...argsNext); argsNext = undefined }].
    The assignment comes after the call: with [wait === 0] the call runs
    the callback up to its first suspension, and what the callback made
    pending by then is erased. *)
Definition delayFires (st : Lazy) : Lazy :=
  match delayTimers st with
  | S n =>
      let released :=
        mkLazy false (argsNext st) (waitTimers st) (inFlight st) n
          (invoked st) (called st) in
      match argsNext st with
      | Some args =>
          let st' := start args released in
          mkLazy (isRunning st') None (waitTimers st') (inFlight st')
            (delayTimers st') (invoked st') (called st')
      | None => released
      end
  | O => st
  end.

Inductive LazyEvent : Type :=
| Activate (args : A)
| WaitFires (i : nat)
| Settles (i : nat) (fulfilled : bool)
| DelayFires.

Definition Lazy_step (st : Lazy) (e : LazyEvent) : Lazy :=
  match e with
  | Activate args => activate args st
  | WaitFires i => waitFires i st
  | Settles i fulfilled => settles i fulfilled st
  | DelayFires => delayFires st
  end.

Definition Lazy_run (es : list LazyEvent) : Lazy :=
  fold_left Lazy_step es lazyCallback.

End LazyCallback.

Arguments Lazy A : clear implicits.
Arguments LazyEvent A : clear implicits.

(** ** Utils.ts: promiseLimit *)

Section PromiseLimit.

(** The operations handed to the gate. *)
Context {Op : Type}.

(** [concurrency], a number: the code does not ask for an integer. *)
Variable concurrency : JSNumber.

(** The counter [inProgress] of the closure and, around it, the callers
    suspended in [waitUntil] (each polls on an interval timer of its
    own), the operations that have been started and have not settled,
    and the number of operations that failed. *)
Record Gate : Type := mkGate {
  inProgress : Z;
  waiting : list Op;
  running : list Op;
  failed : nat
}.

(** The gate that [promiseLimit(concurrency)] returns, as it is created:
    [inProgress = 0]. *)
Definition promiseLimit : Gate := mkGate 0 [] [] 0.

(** A call of the function that [promiseLimit(concurrency)] returned.
    With [concurrency === 0] this is [func()]; otherwise the caller
    suspends in [waitUntil]. *)
Definition submit (func : Op) (st : Gate) : Gate :=
  if isZero concurrency then
    mkGate (inProgress st) (waiting st) (running st ++ [func]) (failed st)
  else
    mkGate (inProgress st) (waiting st ++ [func]) (running st) (failed st).

(** The interval timer of the waiting caller [i] ticks.  When
    [inProgress < concurrency] the timer is cleared and the promise
    resolved; the continuation [inProgress++; await func()] is a
    microtask and runs before any other timer does. *)
Definition poll (i : nat) (st : Gate) : Gate :=
  match waiting st !! i with
  | Some func =>
      if lessThan (inProgress st) concurrency then
        mkGate (inProgress st + 1) (delete i (waiting st))
          (running st ++ [func]) (failed st)
      else st
  | None => st
  end.

(** The running operation [i] settles.  Behind the gate a fulfilled one
    goes on to [inProgress--]; one that throws or is rejected makes the
    [await] throw, and the decrement is not reached. *)
Definition settle (i : nat) (fulfilled : bool) (st : Gate) : Gate :=
  match running st !! i with
  | Some _ =>
      if isZero concurrency then
        mkGate (inProgress st) (waiting st) (delete i (running st))
          (if fulfilled then failed st else S (failed st))
      else if fulfilled then
        mkGate (inProgress st - 1) (waiting st) (delete i (running st))
          (failed st)
      else
        mkGate (inProgress st) (waiting st) (delete i (running st))
          (S (failed st))
  | None => st
  end.

Inductive GateEvent : Type :=
| Submit (func : Op)
| Poll (i : nat)
| Settle (i : nat) (fulfilled : bool).

Definition Gate_step (st : Gate) (e : GateEvent) : Gate :=
  match e with
  | Submit func => submit func st
  | Poll i => poll i st
  | Settle i fulfilled => settle i fulfilled st
  end.

Definition Gate_run (es : list GateEvent) : Gate :=
  fold_left Gate_step es promiseLimit.

End PromiseLimit.

Arguments Gate Op : clear implicits.
Arguments GateEvent Op : clear implicits.

(** ** DocumentDecoration.ts *)

(** *** JavaScript arrays *)

Section JSArray.

Context {T : Type}.

(** A JavaScript array is kept as its slots up to [length]: [Some] for an
    element, [None] for a hole (an index that was never assigned, or was
    deleted).  The arrays of this file never store [undefined], and their
    indices are natural numbers. *)

(** [array[i]]: [undefined] for a hole and beyond the length. *)
Definition arrayGet (array : list (option T)) (i : nat) : option T :=
  match array !! i with
  | Some (Some x) => Some x
  | _ => None
  end.

(** [array[i] = x]: beyond the length the array grows, and the indices in
    between are holes. *)
Definition arraySet (array : list (option T)) (i : nat) (x : T)
  : list (option T) :=
  if (i <? length array)%nat then <[i := Some x]> array
  else array ++ replicate (i - length array) None ++ [Some x].

(** [delete array[i]]: the index becomes a hole and the length stays. *)
Definition arrayDelete (array : list (option T)) (i : nat)
  : list (option T) :=
  <[i := None]> array.

(** The elements as [forEach] visits them and as [Object.values] lists
    them: by ascending index, holes left out. *)
Definition arrayValues (array : list (option T)) : list T :=
  omap id array.

End JSArray.

(** *** The part of the editor API that is used *)

Module VSCode.

Record Position : Type := mkPosition {
  line : nat;
  character : nat
}.

Record Range : Type := mkRange {
  start : Position;
  end_ : Position
}.

(** [DecorationOptions] with [renderOptions.after], an object, as the map
    from the names of its properties to their values. *)
Record DecorationOptions : Type := mkDecorationOptions {
  range : Range;
  renderOptions_after : gmap string string
}.

(** A text editor is an object of its own; [document] is the document it
    shows, and documents are compared by identity. *)
Record TextEditor : Type := mkTextEditor {
  editor : nat;
  document : nat
}.

(** [window]: the visible editors, what every editor shows for every
    decoration type, and the number of decoration types created. *)
Record Window : Type := mkWindow {
  visibleTextEditors : list TextEditor;
  decorations : gmap (nat * nat) (list DecorationOptions);
  decorationTypes : nat
}.

(** [window.createTextEditorDecorationType({})]: a type no earlier call
    returned. *)
Definition createTextEditorDecorationType (w : Window) : nat * Window :=
  (decorationTypes w,
   mkWindow (visibleTextEditors w) (decorations w) (S (decorationTypes w))).

(** [editor.setDecorations(type, options)]: the decorations of that type
    in that editor are replaced by [options]. *)
Definition setDecorations (e : TextEditor) (type : nat)
  (options : list DecorationOptions) (w : Window) : Window :=
  mkWindow (visibleTextEditors w)
    (<[(editor e, type) := options]> (decorations w)) (decorationTypes w).

(** What an editor shows for a decoration type. *)
Definition decorationsOf (w : Window) (e : TextEditor) (type : nat)
  : list DecorationOptions :=
  default [] (decorations w !! (editor e, type)).

End VSCode.

(** *** The layers of a document *)

Record Message : Type := mkMessage {
  message : string;
  style : option (gmap string string)
}.

(** [class DocumentDecorationLayer]: [lines], an array indexed by line
    number, and [type]. *)
Record DocumentDecorationLayer : Type := mkDocumentDecorationLayer {
  lines : list (option VSCode.DecorationOptions);
  type : nat
}.

(** [class DocumentDecorationManager] *)
Record DocumentDecorationManager : Type := mkDocumentDecorationManager {
  layers : list (option DocumentDecorationLayer)
}.

(** The static [documents] of [DocumentDecorationManager], keyed by the
    identity of the document, and the window.  A manager is reached
    through [documents] only, and a layer through its manager only, so
    the objects are kept where they are referenced from. *)
Record Decorations : Type := mkDecorations {
  documents : gmap nat DocumentDecorationManager;
  window : VSCode.Window
}.

(** [getLayer(layer)], with the manager as it is afterwards. *)
Definition getLayer (layer : nat) (manager : DocumentDecorationManager)
  (w : VSCode.Window)
  : DocumentDecorationLayer * DocumentDecorationManager * VSCode.Window :=
  match arrayGet (layers manager) layer with
  | Some l => (l, manager, w)
  | None =>
      let '(t, w') := VSCode.createTextEditorDecorationType w in
      let l := mkDocumentDecorationLayer [] t in
      (l, mkDocumentDecorationManager (arraySet (layers manager) layer l), w')
  end.

(** [DocumentDecorationManager.from(document)] *)
Definition from (document : nat) (st : Decorations)
  : DocumentDecorationManager * Decorations :=
  match documents st !! document with
  | Some manager => (manager, st)
  | None =>
      let manager := mkDocumentDecorationManager [] in
      (manager,
       mkDecorations (<[document := manager]> (documents st)) (window st))
  end.

(** [DocumentDecorationManager.flush(document)] *)
Definition flush (document : nat) (st : Decorations) : Decorations :=
  let '(manager, st) := from document st in
  let w :=
    fold_left
      (fun w layer =>
         fold_left
           (fun w e =>
              if (VSCode.document e =? document)%nat
              then VSCode.setDecorations e (type layer) [] w
              else w)
           (VSCode.visibleTextEditors w) w)
      (arrayValues (layers manager)) (window st) in
  mkDecorations (delete document (documents st)) w.

(** *** DocumentDecoration *)

(** An instance of [class DocumentDecoration]: its document, the editors
    found at construction, and the state of its [render], which is
    [lazyCallback(callback)] with [wait = 0] and [delay = 0]. *)
Record DocumentDecoration : Type := mkDocumentDecoration {
  document : nat;
  editors : list VSCode.TextEditor;
  render : Lazy unit
}.

(** The callback of [render] does not call [render]. *)
Definition renderCalls (log : list unit) (args : unit) : list unit := [].

(** [new DocumentDecoration(document)] *)
Definition DocumentDecoration_new (document : nat) (st : Decorations)
  : DocumentDecoration :=
  mkDocumentDecoration document
    (List.filter (fun e => (VSCode.document e =? document)%nat)
       (VSCode.visibleTextEditors (window st)))
    lazyCallback.

(** The callback handed to [lazyCallback]. *)
Definition renderCallback (self : DocumentDecoration) (st : Decorations)
  : Decorations :=
  let '(manager, st) := from (document self) st in
  mkDecorations (documents st)
    (fold_left
       (fun w layer =>
          fold_left
            (fun w e =>
               VSCode.setDecorations e (type layer)
                 (arrayValues (lines layer)) w)
            (editors self) w)
       (arrayValues (layers manager)) (window st)).

(** A step of the trigger of [render], with what the callback does: the
    callback runs once for every invocation the step adds to the log. *)
Definition renderStep (step : Lazy unit -> Lazy unit)
  (self : DocumentDecoration) (st : Decorations)
  : DocumentDecoration * Decorations :=
  let after := step (render self) in
  (mkDocumentDecoration (document self) (editors self) after,
   fold_left (fun st _ => renderCallback self st)
     (drop (length (invoked (render self))) (invoked after)) st).

(** The decoration [setLine] stores for the message at [messageIndex]:
    the properties of [message.style] come last in the object literal and
    win over the three that are written out. *)
Definition lineDecoration (line messageIndex : nat) (m : Message)
  : VSCode.DecorationOptions :=
  VSCode.mkDecorationOptions
    (VSCode.mkRange (VSCode.mkPosition line 4096)
       (VSCode.mkPosition line 4096))
    (default ∅ (style m)
     ∪ {[ "color" := "silver";
          "contentText" := message m;
          "margin" := if (messageIndex =? 0)%nat then "0 0 0 2ch"
                      else "0 0 0 1ch" ]}).

(** The body of [messages.forEach((message, messageIndex) => ...)] *)
Definition setLineMessage (line : nat)
  (acc : DocumentDecorationManager * VSCode.Window * nat) (m : Message)
  : DocumentDecorationManager * VSCode.Window * nat :=
  let '(manager, w, messageIndex) := acc in
  let '(decorationLayer, manager, w) := getLayer messageIndex manager w in
  let decorationLayer :=
    mkDocumentDecorationLayer
      (arraySet (lines decorationLayer) line
         (lineDecoration line messageIndex m))
      (type decorationLayer) in
  (mkDocumentDecorationManager
     (arraySet (layers manager) messageIndex decorationLayer),
   w, S messageIndex).

(** [setLine(line, messages)] *)
Definition setLine (line : nat) (messages : list Message)
  (self : DocumentDecoration) (st : Decorations)
  : DocumentDecoration * Decorations :=
  let '(decorationManager, st) := from (document self) st in
  let '(decorationManager, w, _) :=
    fold_left (setLineMessage line) messages
      (decorationManager, window st, 0%nat) in
  renderStep (activate renderCalls 0 tt) self
    (mkDecorations (<[document self := decorationManager]> (documents st)) w).

(** [clearLine(line)] *)
Definition clearLine (line : nat) (self : DocumentDecoration)
  (st : Decorations) : DocumentDecoration * Decorations :=
  let '(manager, st) := from (document self) st in
  let manager :=
    mkDocumentDecorationManager
      (map (option_map
              (fun decoration =>
                 mkDocumentDecorationLayer
                   (arrayDelete (lines decoration) line) (type decoration)))
         (layers manager)) in
  renderStep (activate renderCalls 0 tt) self
    (mkDecorations (<[document self := manager]> (documents st)) (window st)).

(** [setCheckingMessage(line)]; the text is kept as its UTF-8 bytes. *)
Definition setCheckingMessage (line : nat) (self : DocumentDecoration)
  (st : Decorations) : DocumentDecoration * Decorations :=
  setLine line [mkMessage "🗘" None] self st.

(** [setUpdateMessage(line, packageInfo, packagesInstalled)], where [name]
    and [versionLatest] are the two properties of
    [packageInfo.packageRelated] that are read. *)
Definition setUpdateMessage (line : nat) (name versionLatest : string)
  (packagesInstalled : option PackagesInstalled)
  (self : DocumentDecoration) (st : Decorations)
  : DocumentDecoration * Decorations :=
  let packageVersionInstalled :=
    match packagesInstalled with
    | Some installed => installed !! name
    | None => None
    end in
  let updateDetails :=
    [mkMessage "⚠ Update available:" (Some {[ "color" := "gray" ]});
     mkMessage versionLatest (Some {[ "color" := "blue" ]})] in
  let updateDetails :=
    if decide (Some versionLatest = packageVersionInstalled)
    then updateDetails
           ++ [mkMessage "(already installed)" (Some {[ "color" := "black" ]})]
    else updateDetails in
  setLine line updateDetails self st.

(** What happens to one [DocumentDecoration] and the window: the calls of
    its public methods; the [await] in the activator of [render] resumes
    (the callback returns no promise and is taken not to throw, so the
    [await] is fulfilled); the [delay] timer fires; a document is flushed;
    the visible editors change. *)
Inductive DecorationEvent : Type :=
| ClearLine (line : nat)
| SetCheckingMessage (line : nat)
| SetUpdateMessage (line : nat) (name versionLatest : string)
    (packagesInstalled : option PackagesInstalled)
| Resume
| Timer
| Flush (document : nat)
| Editors (visible : list VSCode.TextEditor).

Definition Decoration_step (s : DocumentDecoration * Decorations)
  (e : DecorationEvent) : DocumentDecoration * Decorations :=
  let '(self, st) := s in
  match e with
  | ClearLine line => clearLine line self st
  | SetCheckingMessage line => setCheckingMessage line self st
  | SetUpdateMessage line name versionLatest packagesInstalled =>
      setUpdateMessage line name versionLatest packagesInstalled self st
  | Resume => renderStep (settles 0 true) self st
  | Timer => renderStep (delayFires renderCalls 0) self st
  | Flush document => (self, flush document st)
  | Editors visible =>
      (self,
       mkDecorations (documents st)
         (VSCode.mkWindow visible (VSCode.decorations (window st))
            (VSCode.decorationTypes (window st))))
  end.

(** A [DocumentDecoration] created for [document] on the layers and the
    window of [st], and what follows.  The events are those of this
    instance and of the window: between them nothing else changes the
    layers of the document. *)
Definition Decoration_from (document : nat) (st : Decorations)
  (es : list DecorationEvent) : DocumentDecoration * Decorations :=
  fold_left Decoration_step es (DocumentDecoration_new document st, st).

(** A [DocumentDecoration] created for [document] when no document has
    layers yet, and what follows. *)
Definition Decoration_run (document : nat) (w : VSCode.Window)
  (es : list DecorationEvent) : DocumentDecoration * Decorations :=
  let st := mkDecorations ∅ w in
  fold_left Decoration_step es (DocumentDecoration_new document st, st).

(** ** The vocabulary of the properties *)

(** The last character of a text. *)
Fixpoint lastChar (s : string) : option ascii :=
  match s with
  | EmptyString => None
  | String c r =>
      match r with
      | EmptyString => Some c
      | String _ _ => lastChar r
      end
  end.

(** The counter counts the operations that are running and those that
    failed, and it stays within the limit. *)
Definition Gate_inv {Op : Type} (concurrency : Z) (st : Gate Op) : Prop :=
  inProgress st = Z.of_nat (length (running st) + failed st)
  /\ (inProgress st <= concurrency)%Z.


(** While nothing is running nothing is pending or scheduled, and at
    any time at most one of these exists: a [wait] timer, a running
    invocation, a [delay] timer. *)
Definition Lazy_inv {A : Type} (st : Lazy A) : Prop :=
  (isRunning st = false ->
     argsNext st = None /\ waitTimers st = [] /\ inFlight st = []
     /\ delayTimers st = 0%nat)
  /\ (length (waitTimers st) + length (inFlight st) + delayTimers st <= 1)%nat.

(** [comparePre] as a function of the two prerelease lists. *)
Definition comparePreLists (pa pb : list Identifier) : comparison :=
  match pa, pb with
  | [], [] => Eq
  | _ :: _, [] => Lt
  | [], _ :: _ => Gt
  | _, _ => compareIdentifierLists pa pb
  end.

(** What [compareIdentifiers] looks at in an identifier. *)
Definition identifierKey (a : Identifier) : N + string :=
  match numericValue a with
  | Some x => inl x
  | None => inr (identifierText a)
  end.

(** The part of a version that [compare] looks at. *)
Definition key (v : SemVer) : N * N * N * list (N + string) :=
  (major v, minor v, patch v, map identifierKey (pre v)).

(** [a] is not greater than [b]. *)
Definition le (a b : SemVer) : Prop := compare a b <> Gt.

(** The version [w] is not greater than the version [v], both given as
    strings that parse. *)
Definition versionLe (w v : string) : Prop :=
  exists sw sv, parse w = Some sw /\ parse v = Some sv /\ le sw sv.

(** [res] is a greatest element of [versions] among those [accepts]
    holds of, or [None] when there is none. *)
Definition greatestOf (accepts : string -> bool) (versions : list string)
  (res : option string) : Prop :=
  match res with
  | Some v =>
      In v versions /\ accepts v = true
      /\ forall w, In w versions -> accepts w = true -> versionLe w v
  | None => forall w, In w versions -> accepts w = false
  end.

(** What the loop of [maxSatisfying] has established after the versions
    [seen]. *)
Definition maxSoFar (r : Range) (inc : bool) (seen : list string)
  (acc : option (string * SemVer)) : Prop :=
  match acc with
  | Some (v, sv) =>
      parse v = Some sv /\ In v seen /\ Range_test r inc v = true
      /\ forall w sw, In w seen -> Range_test r inc w = true ->
                      parse w = Some sw -> le sw sv
  | None => forall w, In w seen -> Range_test r inc w = false
  end.

(** What the range [>=0] accepts: the versions that parse, those with a
    prerelease tag only with [includePrerelease]. *)
Definition published (includePrerelease : bool) (v : string) : bool :=
  match parse v with
  | Some sv => includePrerelease || negb (hasPrerelease sv)
  | None => false
  end.

(** The text [s] does not contain the character [sep]. *)
Definition lacks (sep : ascii) (s : string) : bool :=
  allChars (fun c => negb (Ascii.eqb c sep)) s.

(** Neither white space nor [|]. *)
Definition plain (c : ascii) : bool := negb (isSpace c || Ascii.eqb c "|").

(** What is known of a baseline that parses: its pieces, in the words of
    [parseFull]. *)
Inductive Anatomy (s : string) (sv : SemVer) : Prop :=
| mkAnatomy (mainpre : string) (bld prl : option string) (a b c : string)
    (an_length : (String.length s <= MAX_LENGTH)%nat)
    (an_cut_build : cut "+" s = (mainpre, bld))
    (an_cut_pre :
       cut "-" mainpre = (a +:+ String "." (b +:+ String "." c), prl))
    (an_major : numericIdentifier a = Some (major sv))
    (an_minor : numericIdentifier b = Some (minor sv))
    (an_patch : numericIdentifier c = Some (patch sv))
    (an_safe :
       safe (major sv) = true /\ safe (minor sv) = true
       /\ safe (patch sv) = true)
    (an_pre : identifiers prereleaseIdentifier prl = Some (pre sv))
    (an_build : identifiers buildIdentifier bld = Some (build sv)).

(** The upper bound of [^M.m.p]: the next version that changes the
    leading non-zero component, as its lowest prerelease. *)
Definition caretCeiling (M m p : N) : option SemVer :=
  if (M =? 0)%N
  then if (m =? 0)%N then version M m (p + 1) zero
       else version M (m + 1) 0 zero
  else version (M + 1) 0 0 zero.

(** The comparators of a caret range with both bounds valid. *)
Definition caretSet (inc : bool) (lo hi : SemVer) : list Comparator :=
  [replaceGTE0 inc (Cmp OpGe lo); Cmp OpLt hi].

(** What holds of the module state of [NPM.ts] after any sequence of
    events: an entry of the cache of published versions holds the promise
    of a query for its own name that has not been rejected; the entry of
    the installed packages holds the promise of an [npm ls] that was
    started; no promise of an [npm ls] is rejected. *)
Definition NPM_inv (st : NPM) : Prop :=
  (forall name c,
      CACHE_PACKAGES st !! name = Some c ->
      exists ps, views st !! value c = Some (mkViewExec name ps)
                 /\ ps <> Rejected)
  /\ (forall c,
        CACHE_PACKAGES_INSTALLED st = Some c ->
        exists cwd ps, lss st !! value c = Some (mkLsExec cwd ps))
  /\ (forall id cwd ps, lss st !! id = Some (mkLsExec cwd ps) -> ps <> Rejected).

(** The clock is not set back during the events. *)
Definition forward (es : list NPMEvent) : bool :=
  forallb (fun e => match e with Tick dt => (0 <=? dt)%Z | _ => true end) es.

(** The entries of the cache of published versions were created in the
    past. *)
Definition NPM_past (st : NPM) : Prop :=
  forall name c, CACHE_PACKAGES st !! name = Some c -> (createdAt c <= now st)%Z.

(** Whether an event is a call of [getPackagesInstalled]. *)
Definition callsInstalled (e : NPMEvent) : bool :=
  match e with
  | CallInstalled _ => true
  | _ => false
  end.

(** The arguments of the calls of the activator among the events, in the
    order of the calls. *)
Definition activations {A : Type} (es : list (LazyEvent A)) : list A :=
  omap (fun e => match e with Activate args => Some args | _ => None end) es.

(** The arguments the trigger has yet to call the callback with: those of
    the [wait] timer, then the pending ones. *)
Definition scheduled {A : Type} (st : Lazy A) : list A :=
  waitTimers st ++ match argsNext st with Some args => [args] | None => [] end.

(** How the log of invocations relates to the log of the calls of the
    activator: what was invoked and what is yet to be invoked are calls,
    in the order of the calls and each at most once, and the first call
    is the first one served. *)
Definition Lazy_log {A : Type} (st : Lazy A) : Prop :=
  invoked st ++ scheduled st `sublist_of` called st
  /\ head (invoked st ++ waitTimers st) = head (called st)
  /\ (isRunning st = true -> invoked st ++ waitTimers st <> []).

(** The last call is the last one served or to be served. *)
Definition Lazy_last {A : Type} (st : Lazy A) : Prop :=
  last (invoked st ++ scheduled st) = last (called st).

(** The callback does not call the activator before it returns or first
    suspends. *)
Definition silent {A : Type} (callback : list A -> A -> list A) : Prop :=
  forall log args, callback log args = [].

(** The trigger after the callback failed: [isRunning] holds and nothing
    is left that would clear it. *)
Definition Lazy_jammed {A : Type} (st : Lazy A) : Prop :=
  isRunning st = true /\ waitTimers st = [] /\ inFlight st = []
  /\ delayTimers st = 0%nat.

(** The operations handed to the gate among the events, in the order of
    the calls. *)
Definition submitted {Op : Type} (es : list (GateEvent Op)) : list Op :=
  omap (fun e => match e with Submit func => Some func | _ => None end) es.

(** The layers a document has at the moment. *)
Definition layersOf (document : nat) (st : Decorations)
  : list (option DocumentDecorationLayer) :=
  match documents st !! document with
  | Some manager => layers manager
  | None => []
  end.

(** The window after [setDecorations(layer.type, options(layer))] on each
    of [editors], for each of [ls]. *)
Definition decorated
  (options : DocumentDecorationLayer -> list VSCode.DecorationOptions)
  (editors : list VSCode.TextEditor) (ls : list DocumentDecorationLayer)
  (w : VSCode.Window) : VSCode.Window :=
  fold_left
    (fun w layer =>
       fold_left
         (fun w e => VSCode.setDecorations e (type layer) (options layer) w)
         editors w)
    ls w.

(** Every editor of the instance shows, for every layer of its document,
    the lines of the layer. *)
Definition showsLayers (self : DocumentDecoration) (st : Decorations) : Prop :=
  forall i layer e,
    arrayGet (layersOf (document self) st) i = Some layer ->
    In e (editors self) ->
    VSCode.decorationsOf (window st) e (type layer)
    = arrayValues (lines layer).

(** The decoration types of the layers were created by the window and
    differ from layer to layer, and a decoration stored for a line is a
    decoration of that line. *)
Definition layersWellFormed (ls : list (option DocumentDecorationLayer))
  (w : VSCode.Window) : Prop :=
  (forall i l, arrayGet ls i = Some l -> (type l < VSCode.decorationTypes w)%nat)
  /\ (forall i j l l',
        arrayGet ls i = Some l -> arrayGet ls j = Some l' ->
        type l = type l' -> i = j)
  /\ (forall i l n d,
        arrayGet ls i = Some l -> arrayGet (lines l) n = Some d ->
        VSCode.line (VSCode.start (VSCode.range d)) = n).

(** What holds of one [DocumentDecoration] and the window after any
    sequence of events. *)
Definition Decoration_inv (self : DocumentDecoration) (st : Decorations)
  : Prop :=
  (forall d m, documents st !! d = Some m -> d = document self)
  /\ layersWellFormed (layersOf (document self) st) (window st)
  /\ Lazy_inv (render self)
  /\ waitTimers (render self) = []
  /\ (argsNext (render self) = None -> showsLayers self st).

(** The layers of the other documents: their decoration types were
    created by the window, and none is the type of a layer of [doc]. *)
Definition othersApart (doc : nat) (st : Decorations) : Prop :=
  forall d i l,
    d <> doc -> arrayGet (layersOf d st) i = Some l ->
    (type l < VSCode.decorationTypes (window st))%nat
    /\ (forall j l', arrayGet (layersOf doc st) j = Some l' ->
          type l' <> type l).

(** What holds of a [DocumentDecoration] created on any layers: as
    [Decoration_inv], but its editors show the layers only once its
    [render] has run. *)
Definition Decoration_painted (self : DocumentDecoration) (st : Decorations)
  : Prop :=
  othersApart (document self) st
  /\ layersWellFormed (layersOf (document self) st) (window st)
  /\ Lazy_inv (render self)
  /\ waitTimers (render self) = []
  /\ (isRunning (render self) = true -> invoked (render self) <> [])
  /\ (argsNext (render self) = None -> invoked (render self) <> [] ->
      showsLayers self st).

(** Whether an event is a call of a method that changes the layers and
    calls [render]. *)
Definition paints (e : DecorationEvent) : bool :=
  match e with
  | ClearLine _ | SetCheckingMessage _ | SetUpdateMessage _ _ _ _ => true
  | _ => false
  end.

(** Whether an event sets a message on the line. *)
Definition setsLine (line : nat) (e : DecorationEvent) : bool :=
  match e with
  | SetCheckingMessage l => (l =? line)%nat
  | SetUpdateMessage l _ _ _ => (l =? line)%nat
  | _ => false
  end.

(** No layer holds a decoration for the line. *)
Definition lineFree (line : nat) (ls : list (option DocumentDecorationLayer))
  : Prop :=
  forall i l, arrayGet ls i = Some l -> arrayGet (lines l) line = None.

(** What the layer [i] holds for the line: the text, the colour and the
    margin of the decoration. *)
Definition lineText (ls : list (option DocumentDecorationLayer))
  (i line : nat) : option (option string * option string * option string) :=
  match arrayGet ls i with
  | Some l =>
      match arrayGet (lines l) line with
      | Some d =>
          Some (VSCode.renderOptions_after d !! "contentText",
                VSCode.renderOptions_after d !! "color",
                VSCode.renderOptions_after d !! "margin")
      | None => None
      end
  | None => None
  end.

(** Whether an event flushes the document. *)
Definition flushes (doc : nat) (e : DecorationEvent) : bool :=
  match e with
  | Flush d => (d =? doc)%nat
  | _ => false
  end.

(** * Properties *)

(** ** Strings *)

Lemma sapp_nil (t : string) : "" +:+ t = t.
Proof. reflexivity. Qed.

Lemma sapp_cons (c : ascii) (s t : string) :
  String c s +:+ t = String c (s +:+ t).
Proof. reflexivity. Qed.

Ltac sapp := rewrite ?sapp_cons, ?sapp_nil in *.

(** An array of strings is read back as its strings. *)
Lemma allStrings_strings (l : list string) :
  allStrings (map JString l) = Some l.
Proof.
  induction l as [|x l IH]; simpl; [reflexivity|]. rewrite IH. reflexivity.
Qed.

Lemma allStrings_map (items : list JSON) (l : list string) :
  allStrings items = Some l -> items = map JString l.
Proof.
  revert l. induction items as [|x items IH]; intros l; simpl.
  - intros [= <-]. reflexivity.
  - destruct x; try discriminate.
    destruct (allStrings items) as [l'|]; [|discriminate].
    intros [= <-]. simpl. rewrite (IH l' eq_refl). reflexivity.
Qed.

Lemma allChars_app (p : ascii -> bool) (s t : string) :
  allChars p (s +:+ t) = allChars p s && allChars p t.
Proof.
  induction s as [|c s IH]; sapp; simpl; [reflexivity|].
  rewrite IH. destruct (p c); reflexivity.
Qed.

Lemma anyChar_app (p : ascii -> bool) (s t : string) :
  anyChar p (s +:+ t) = anyChar p s || anyChar p t.
Proof.
  induction s as [|c s IH]; sapp; simpl; [reflexivity|].
  rewrite IH. destruct (p c); reflexivity.
Qed.

Lemma isEmpty_true (s : string) : isEmpty s = true -> s = "".
Proof. destruct s; [reflexivity | discriminate]. Qed.

Lemma sapp_nil_r (s : string) : s +:+ "" = s.
Proof. induction s as [|c s IH]; sapp; congruence. Qed.

Lemma sapp_assoc (s t u : string) : (s +:+ t) +:+ u = s +:+ t +:+ u.
Proof. induction s as [|c s IH]; sapp; congruence. Qed.

Lemma sapp_length (s t : string) :
  String.length (s +:+ t) = (String.length s + String.length t)%nat.
Proof. induction s as [|c s IH]; sapp; simpl; congruence. Qed.

(** What [trimEnd] removes is white space, and what it leaves does not end
    in white space. *)
Lemma trimEnd_split (s : string) :
  exists w, s = trimEnd s +:+ w /\ allChars isSpace w = true.
Proof.
  induction s as [|c s (w & Hs & Hw)]; simpl.
  - exists "". split; reflexivity.
  - destruct (isSpace c) eqn:Hc; simpl.
    + destruct (isEmpty (trimEnd s)) eqn:He.
      * exists (String c w). apply isEmpty_true in He.
        rewrite He in Hs. sapp.
        split; [congruence | simpl; rewrite Hc; exact Hw].
      * exists w. sapp. split; [congruence | exact Hw].
    + exists w. sapp. split; [congruence | exact Hw].
Qed.

Lemma trimEnd_idem (s : string) : trimEnd (trimEnd s) = trimEnd s.
Proof.
  induction s as [|c s IH]; simpl; [reflexivity|].
  destruct (isSpace c && isEmpty (trimEnd s)) eqn:H; simpl; [reflexivity|].
  rewrite IH, H. reflexivity.
Qed.

Lemma trimEnd_spaces (w : string) :
  allChars isSpace w = true -> trimEnd w = "".
Proof.
  induction w as [|c w IH]; simpl; [reflexivity|].
  intros [Hc Hw]%andb_prop. rewrite (IH Hw), Hc. reflexivity.
Qed.

Lemma trimEnd_app_spaces (s w : string) :
  allChars isSpace w = true -> trimEnd (s +:+ w) = trimEnd s.
Proof.
  intros Hw. induction s as [|c s IH]; sapp; simpl.
  - apply trimEnd_spaces, Hw.
  - rewrite IH. reflexivity.
Qed.

(** What [replace(/^\D+/, "")] removes holds no digit, and what it leaves
    is empty or starts with a digit. *)
Lemma stripNonDigitPrefix_split (s : string) :
  exists p, s = p +:+ stripNonDigitPrefix s
            /\ allChars (fun c => negb (isDigit c)) p = true.
Proof.
  induction s as [|c s (p & Hs & Hp)]; simpl.
  - exists "". split; reflexivity.
  - destruct (isDigit c) eqn:Hc.
    + exists "". split; reflexivity.
    + exists (String c p). sapp. split; [congruence|].
      simpl. rewrite Hc. exact Hp.
Qed.

Lemma stripNonDigitPrefix_idem (s : string) :
  stripNonDigitPrefix (stripNonDigitPrefix s) = stripNonDigitPrefix s.
Proof.
  induction s as [|c s IH]; simpl; [reflexivity|].
  destruct (isDigit c) eqn:Hc; [simpl; rewrite Hc; reflexivity | exact IH].
Qed.

Lemma stripNonDigitPrefix_nondigits (p s : string) :
  allChars (fun c => negb (isDigit c)) p = true ->
  stripNonDigitPrefix (p +:+ s) = stripNonDigitPrefix s.
Proof.
  induction p as [|c p IH]; sapp; simpl; [reflexivity|].
  intros [Hc Hp]%andb_prop. apply negb_true_iff in Hc. rewrite Hc.
  apply IH, Hp.
Qed.

Lemma isDigit_not_space (c : ascii) : isDigit c = true -> isSpace c = false.
Proof.
  unfold isDigit, isSpace. cbv zeta.
  generalize (N_of_ascii c). intros n H.
  apply andb_prop in H as [H1%N.leb_le H2%N.leb_le].
  apply orb_false_iff; split; [apply orb_false_iff; split|].
  - apply andb_false_iff. right. apply N.leb_gt. lia.
  - apply N.eqb_neq. lia.
  - apply N.eqb_neq. lia.
Qed.

(** Trimming the end keeps a leading digit in place. *)
Lemma stripNonDigitPrefix_trimEnd (s : string) :
  stripNonDigitPrefix s = s -> stripNonDigitPrefix (trimEnd s) = trimEnd s.
Proof.
  destruct s as [|c s]; [reflexivity|]. simpl.
  destruct (isDigit c) eqn:Hc.
  - intros _. rewrite (isDigit_not_space c Hc). simpl. rewrite Hc. reflexivity.
  - intros H. exfalso.
    destruct (stripNonDigitPrefix_split s) as (p & Hs & _).
    apply (f_equal String.length) in H, Hs.
    rewrite sapp_length in Hs. simpl in H. lia.
Qed.

(** A bare version between a prefix without digits and trailing white
    space is what [versionClear] returns. *)
Lemma versionClear_bare (prefix v spaces : string) :
  allChars (fun c => negb (isDigit c)) prefix = true ->
  allChars isSpace spaces = true ->
  stripNonDigitPrefix v = v ->
  trimEnd v = v ->
  v <> "" ->
  versionClear (prefix +:+ v +:+ spaces) = v.
Proof.
  intros Hp Hw Hd Ht Hne. unfold versionClear.
  rewrite stripNonDigitPrefix_nondigits by exact Hp.
  destruct v as [|c v]; [congruence|]. sapp. simpl in Hd |- *.
  destruct (isDigit c) eqn:Hc.
  - rewrite <- sapp_cons.
    rewrite trimEnd_app_spaces by exact Hw. exact Ht.
  - exfalso. destruct (stripNonDigitPrefix_split v) as (p & Hs & _).
    apply (f_equal String.length) in Hd, Hs.
    rewrite sapp_length in Hs. simpl in Hd. lia.
Qed.

Lemma versionClear_fixed (version : string) :
  stripNonDigitPrefix (versionClear version) = versionClear version
  /\ trimEnd (versionClear version) = versionClear version.
Proof.
  unfold versionClear. split.
  - apply stripNonDigitPrefix_trimEnd, stripNonDigitPrefix_idem.
  - apply trimEnd_idem.
Qed.

Lemma trimEnd_last (s : string) (c : ascii) :
  lastChar (trimEnd s) = Some c -> isSpace c = false.
Proof.
  induction s as [|a r IH]; simpl; [discriminate|].
  destruct (trimEnd r) as [|b r'] eqn:Hr.
  - simpl. destruct (isSpace a) eqn:Ha; simpl; [discriminate|].
    intros [= <-]. exact Ha.
  - rewrite andb_false_r. exact IH.
Qed.

Lemma stripNonDigitPrefix_head (s r : string) (c : ascii) :
  stripNonDigitPrefix s = String c r -> isDigit c = true.
Proof.
  induction s as [|a s IH]; simpl; [discriminate|].
  destruct (isDigit a) eqn:Ha; [|exact IH].
  intros [= <- _]. exact Ha.
Qed.

Lemma trimEnd_head (s r : string) (c : ascii) :
  trimEnd s = String c r -> exists r', s = String c r'.
Proof.
  destruct s as [|a s]; simpl; [discriminate|].
  destruct (isSpace a && isEmpty (trimEnd s)); [discriminate|].
  intros [= <- _]. eauto.
Qed.

(** C9. For every declared range, [versionClear] returns the range without
    its leading run of non-digits and without its trailing white space, and
    nothing else is touched: the range is a prefix that holds no digit,
    then the baseline verbatim, then white space; the baseline is empty or
    starts with a digit, and its last character is not white space.  A
    prerelease tag is therefore kept: the baseline of [^13.0.7-canary.3]
    is [13.0.7-canary.3], also with white space around the range. *)
Theorem versionClear_keeps_prerelease (version : string) :
  (exists prefix spaces,
      version = prefix +:+ versionClear version +:+ spaces
      /\ allChars (fun c => negb (isDigit c)) prefix = true
      /\ allChars isSpace spaces = true)
  /\ stripNonDigitPrefix (versionClear version) = versionClear version
  /\ trimEnd (versionClear version) = versionClear version
  /\ (forall c rest, versionClear version = String c rest -> isDigit c = true)
  /\ (forall c, lastChar (versionClear version) = Some c -> isSpace c = false)
  /\ versionClear "^13.0.7-canary.3" = "13.0.7-canary.3"
  /\ versionClear " >= 13.0.7-canary.3  " = "13.0.7-canary.3".
Proof.
  unfold versionClear. split; [|split; [|split; [|split; [|split; [|split]]]]].
  - destruct (stripNonDigitPrefix_split version) as (p & Hs & Hp).
    destruct (trimEnd_split (stripNonDigitPrefix version)) as (w & Ht & Hw).
    exists p, w. split; [|split; assumption].
    rewrite <- Ht. exact Hs.
  - apply stripNonDigitPrefix_trimEnd, stripNonDigitPrefix_idem.
  - apply trimEnd_idem.
  - intros c rest H. apply trimEnd_head in H as [r' H].
    eapply stripNonDigitPrefix_head, H.
  - intros c. apply trimEnd_last.
  - reflexivity.
  - reflexivity.
Qed.

(** ** The concurrency gate *)

Section GateFacts.

Context {Op : Type}.

Lemma length_delete_Some {A : Type} (l : list A) (i : nat) (x : A) :
  l !! i = Some x -> S (length (delete i l)) = length l.
Proof.
  intros H. pose proof (lookup_lt_Some _ _ _ H).
  rewrite length_delete by eauto. lia.
Qed.

(** The two tests of the gate, for a limit that is an integer. *)
Lemma isZero_ofInteger (n : Z) : isZero n = (n =? 0)%Z.
Proof.
  destruct (Z.eqb_spec n 0) as [->|Hne]; [reflexivity|].
  unfold isZero, ofInteger.
  destruct (Qeq_bool (inject_Z n) 0) eqn:H; [|reflexivity].
  apply Qeq_bool_iff in H. unfold Qeq in H. simpl in H. lia.
Qed.

Lemma lessThan_Finite (n : Z) (q : Q) :
  lessThan n (Finite q) = true <-> (inject_Z n < q)%Q.
Proof.
  unfold lessThan. rewrite negb_true_iff, <- not_true_iff_false, Qle_bool_iff.
  split; [apply Qnot_le_lt | apply Qlt_not_le].
Qed.

Lemma lessThan_ofInteger (n c : Z) : lessThan n c = (n <? c)%Z.
Proof.
  destruct (Z.ltb_spec n c) as [Hlt|Hge].
  - apply lessThan_Finite. rewrite <- Zlt_Qlt. exact Hlt.
  - apply not_true_iff_false. intros H. apply lessThan_Finite in H.
    rewrite <- Zlt_Qlt in H. lia.
Qed.

Lemma Gate_step_inv (concurrency : Z) (st : Gate Op) (e : GateEvent Op) :
  (0 < concurrency)%Z ->
  Gate_inv concurrency st ->
  Gate_inv concurrency (Gate_step concurrency st e).
Proof.
  intros Hpos [Hc Hle]. destruct e as [func | i | i fulfilled]; simpl.
  - unfold submit. rewrite isZero_ofInteger.
    destruct (Z.eqb_spec concurrency 0); [lia|].
    split; simpl; assumption.
  - unfold poll. destruct (waiting st !! i); [|split; assumption].
    rewrite lessThan_ofInteger.
    destruct (Z.ltb_spec (inProgress st) concurrency); [|split; assumption].
    split; simpl; [rewrite length_app; simpl; lia | lia].
  - unfold settle. destruct (running st !! i) eqn:Hi; [|split; assumption].
    apply length_delete_Some in Hi. rewrite isZero_ofInteger.
    destruct (Z.eqb_spec concurrency 0); [lia|].
    destruct fulfilled; split; simpl; lia.
Qed.

Lemma Gate_run_snoc (concurrency : JSNumber) (es : list (GateEvent Op))
  (e : GateEvent Op) :
  Gate_run concurrency (es ++ [e])
  = Gate_step concurrency (Gate_run concurrency es) e.
Proof. unfold Gate_run. rewrite fold_left_app. reflexivity. Qed.

Lemma Gate_run_inv (concurrency : Z) (es : list (GateEvent Op)) :
  (0 < concurrency)%Z -> Gate_inv concurrency (Gate_run concurrency es).
Proof.
  intros Hpos. induction es as [|e es IH] using rev_ind.
  - split; simpl; lia.
  - rewrite Gate_run_snoc. apply Gate_step_inv; assumption.
Qed.






End GateFacts.






(** ** The debounced trigger *)

Section LazyFacts.

Context {A : Type}.
Variable callback : list A -> A -> list A.
Variables wait delay : N.

Lemma start_inv (args : A) (st : Lazy A) :
  Lazy_inv st -> Lazy_inv (start callback wait args st).
Proof.
  intros [Hidle Hone]. unfold start, invoke.
  destruct (isRunning st) eqn:Hr; simpl.
  - split; simpl; [congruence | exact Hone].
  - destruct (Hidle eq_refl) as (_ & Hw & Hf & Hd).
    destruct (wait =? 0)%N; split; simpl; try discriminate;
      rewrite Hw, Hf, Hd; simpl; lia.
Qed.

Lemma activate_inv (args : A) (st : Lazy A) :
  Lazy_inv st -> Lazy_inv (activate callback wait args st).
Proof. intros H. unfold activate. apply start_inv. exact H. Qed.

Lemma Lazy_step_inv (st : Lazy A) (e : LazyEvent A) :
  Lazy_inv st -> Lazy_inv (Lazy_step callback wait st e).
Proof.
  intros Hinv. destruct e as [args | i | i fulfilled |]; simpl.
  - apply activate_inv, Hinv.
  - destruct Hinv as [Hidle Hone]. unfold waitFires, invoke.
    destruct (waitTimers st !! i) eqn:Hi; [|split; assumption].
    pose proof (length_delete_Some _ _ _ Hi) as Hlen.
    split; simpl.
    + intros Hr. destruct (Hidle Hr) as (_ & Hw & _).
      rewrite Hw in Hi. discriminate.
    + rewrite length_app. simpl. lia.
  - destruct Hinv as [Hidle Hone]. unfold settles.
    destruct (inFlight st !! i) eqn:Hi; [|split; assumption].
    pose proof (length_delete_Some _ _ _ Hi) as Hlen.
    split; simpl.
    + intros Hr. destruct (Hidle Hr) as (_ & _ & Hf & _).
      rewrite Hf in Hi. discriminate.
    + destruct fulfilled; lia.
  - pose proof Hinv as [Hidle Hone]. unfold delayFires.
    destruct (delayTimers st) as [|n] eqn:Hd; [exact Hinv|].
    assert (Hw : waitTimers st = []) by (apply length_zero_iff_nil; lia).
    assert (Hf : inFlight st = []) by (apply length_zero_iff_nil; lia).
    assert (Hn : n = 0%nat) by lia. subst n.
    destruct (argsNext st) as [args|] eqn:Ha.
    + unfold start, invoke. simpl. rewrite Hw, Hf.
      destruct (wait =? 0)%N; split; simpl; try discriminate; lia.
    + split; simpl; [intros _; auto | rewrite Hw, Hf; simpl; lia].
Qed.

Lemma Lazy_run_snoc (es : list (LazyEvent A)) (e : LazyEvent A) :
  Lazy_run callback wait (es ++ [e])
  = Lazy_step callback wait (Lazy_run callback wait es) e.
Proof. unfold Lazy_run. rewrite fold_left_app. reflexivity. Qed.

Lemma Lazy_run_inv (es : list (LazyEvent A)) :
  Lazy_inv (Lazy_run callback wait es).
Proof.
  induction es as [|e es IH] using rev_ind.
  - split; simpl; [auto | lia].
  - rewrite Lazy_run_snoc. apply Lazy_step_inv, IH.
Qed.

Lemma Lazy_jammed_step (st : Lazy A) (e : LazyEvent A) :
  Lazy_jammed st ->
  Lazy_jammed (Lazy_step callback wait st e)
  /\ invoked (Lazy_step callback wait st e) = invoked st.
Proof.
  intros (Hr & Hw & Hf & Hd). unfold Lazy_jammed.
  destruct e as [args | i | i fulfilled |]; simpl.
  - unfold activate, start. simpl. rewrite Hr. simpl. auto.
  - unfold waitFires. rewrite Hw. simpl. rewrite Hw. auto.
  - unfold settles. rewrite Hf. simpl. rewrite Hf. auto.
  - unfold delayFires. rewrite Hd. auto.
Qed.

Lemma Lazy_jammed_run (es : list (LazyEvent A)) (st : Lazy A) :
  Lazy_jammed st ->
  Lazy_jammed (fold_left (Lazy_step callback wait) es st)
  /\ invoked (fold_left (Lazy_step callback wait) es st) = invoked st.
Proof.
  revert st. induction es as [|e es IH]; intros st Hj; simpl; [auto|].
  destruct (Lazy_jammed_step st e Hj) as [Hj' Hi'].
  destruct (IH _ Hj') as [Hj'' Hi'']. split; [exact Hj'' | congruence].
Qed.

(** After the one invocation in flight failed nothing is left that would
    clear [isRunning]. *)
Lemma failure_jams (st : Lazy A) (x : A) :
  Lazy_inv st -> inFlight st = [x] -> Lazy_jammed (settles 0 false st).
Proof.
  intros [Hidle Hone] Hx.
  unfold settles. rewrite Hx. simpl. rewrite Hx in Hone. simpl in Hone.
  unfold Lazy_jammed. simpl. repeat split.
  - destruct (isRunning st); [reflexivity|].
    destruct (Hidle eq_refl) as (_ & _ & Hf & _). congruence.
  - apply length_zero_iff_nil. lia.
  - lia.
Qed.

End LazyFacts.




(** ** The cached queries *)

Section FetchFacts.

Variable JSON_parse_view : string -> option JSON.
Variable JSON_parse_ls : string -> option (option PackagesInstalled).

(** A call either finds a valid entry and leaves the state alone, or
    starts one query and caches its promise. *)
Lemma getPackageVersions_cases (name : string) (lifetime : Z) (st : NPM) :
  (exists c, CACHE_PACKAGES st !! name = Some c
             /\ isValid c (now st) lifetime = true
             /\ getPackageVersions name lifetime st = (value c, st))
  \/ ((forall c, CACHE_PACKAGES st !! name = Some c ->
                 isValid c (now st) lifetime = false)
      /\ getPackageVersions name lifetime st
         = (length (views st),
            mkNPM (now st)
              (<[name := mkCache (length (views st)) (now st)]>
                 (CACHE_PACKAGES st))
              (CACHE_PACKAGES_INSTALLED st)
              (views st ++ [mkViewExec name Pending]) (lss st))).
Proof.
  unfold getPackageVersions.
  destruct (CACHE_PACKAGES st !! name) as [c|] eqn:Hc.
  - destruct (isValid c (now st) lifetime) eqn:Hv.
    + left. exists c. auto.
    + right. split; [|reflexivity]. intros c' [= <-]. exact Hv.
  - right. split; [|reflexivity]. intros c' [=].
Qed.

(** A call as a step: nothing happens where the lookup throws. *)
Lemma NPM_step_call (name : string) (lifetime : Z) (st : NPM) :
  NPM_step JSON_parse_view JSON_parse_ls st (CallVersions name lifetime)
  = if lookupThrows name st then st
    else snd (getPackageVersions name lifetime st).
Proof.
  simpl. unfold callVersions. destruct (lookupThrows name st); [reflexivity|].
  destruct (getPackageVersions name lifetime st). reflexivity.
Qed.

(** The names of the queries started are only ever appended to. *)
Lemma viewCallback_names (id : nat) (error : bool) (stdout : string)
  (st : NPM) :
  map viewName (views (viewCallback JSON_parse_view id error stdout st))
  = map viewName (views st).
Proof.
  unfold viewCallback.
  destruct (views st !! id) as [[name [| |]]|] eqn:Hi; try reflexivity.
  assert (Hn : map viewName (views st) !! id = Some name).
  { change (map viewName (views st)) with (viewName <$> views st).
    rewrite list_lookup_fmap, Hi. reflexivity. }
  destruct (if error then None else JSON_parse_view stdout); simpl;
    change (map viewName ?l) with (viewName <$> l);
    rewrite list_fmap_insert; simpl; apply list_insert_id, Hn.
Qed.

Lemma queriesFor_step (name : string) (st : NPM) (e : NPMEvent) :
  callsFor name e = false ->
  queriesFor name (NPM_step JSON_parse_view JSON_parse_ls st e)
  = queriesFor name st.
Proof.
  intros He. unfold queriesFor.
  destruct e as [n l | cwd | id er out | id er out | dt]; simpl.
  - simpl in He. apply bool_decide_eq_false in He.
    unfold callVersions. destruct (lookupThrows n st); [reflexivity|].
    destruct (getPackageVersions_cases n l st) as [(c & _ & _ & ->) | [_ ->]];
      simpl; [reflexivity|].
    rewrite map_app, filter_app. simpl.
    rewrite filter_cons_False, filter_nil, app_nil_r by exact He.
    reflexivity.
  - unfold getPackagesInstalled.
    destruct (CACHE_PACKAGES_INSTALLED st) as [c|]; [|reflexivity].
    destruct (isValid c (now st) (60 * 1000)); reflexivity.
  - rewrite viewCallback_names. reflexivity.
  - unfold lsCallback.
    destruct (lss st !! id) as [[cwd [| |]]|]; reflexivity.
  - reflexivity.
Qed.

(** Between two calls for a name its cache entry can go, never change. *)
Lemma cache_entry_step (name : string) (st : NPM) (e : NPMEvent)
  (c : Cache nat) :
  callsFor name e = false ->
  CACHE_PACKAGES (NPM_step JSON_parse_view JSON_parse_ls st e) !! name
  = Some c ->
  CACHE_PACKAGES st !! name = Some c.
Proof.
  intros He. destruct e as [n l | cwd | id er out | id er out | dt]; simpl.
  - simpl in He. apply bool_decide_eq_false in He.
    unfold callVersions. destruct (lookupThrows n st); [auto|].
    destruct (getPackageVersions_cases n l st) as [(c' & _ & _ & ->) | [_ ->]];
      simpl; [auto|].
    rewrite lookup_insert_ne by exact He. auto.
  - unfold getPackagesInstalled.
    destruct (CACHE_PACKAGES_INSTALLED st) as [c'|]; [|auto].
    destruct (isValid c' (now st) (60 * 1000)); auto.
  - unfold viewCallback.
    destruct (views st !! id) as [[n [| |]]|]; auto.
    destruct (if er then None else JSON_parse_view out); simpl; auto.
    intros H. apply lookup_delete_Some in H as [_ H]. exact H.
  - unfold lsCallback.
    destruct (lss st !! id) as [[cwd [| |]]|]; auto.
  - auto.
Qed.

Lemma between_calls (name : string) (es : list NPMEvent) (st : NPM) :
  forallb (fun e => negb (callsFor name e)) es = true ->
  queriesFor name (NPM_run JSON_parse_view JSON_parse_ls st es)
  = queriesFor name st
  /\ (forall c,
        CACHE_PACKAGES (NPM_run JSON_parse_view JSON_parse_ls st es) !! name
        = Some c ->
        CACHE_PACKAGES st !! name = Some c).
Proof.
  revert st. induction es as [|e es IH]; intros st; simpl.
  - auto.
  - intros [He Hes]%andb_prop. apply negb_true_iff in He.
    destruct (IH (NPM_step JSON_parse_view JSON_parse_ls st e) Hes)
      as [Hq Hc].
    split.
    + unfold NPM_run in Hq |- *. simpl. rewrite Hq.
      apply queriesFor_step, He.
    + intros c H. eapply cache_entry_step; [exact He|]. apply Hc, H.
Qed.

End FetchFacts.

(** C1, as amended. When the [npm view] of [getPackageVersions] fails (an
    error, or output that [JSON.parse] rejects), its callback removes the
    cache entry of the name and rejects the promise, so that the next call
    for the name, at once or any time later, starts a new query.
    [getPackagesInstalled] has no such path: its callback always fulfils
    the promise, with [undefined] when [npm ls] printed nothing or nothing
    usable, and leaves the cache entry in place, so that a call made while
    the entry is younger than 60 s gets the same promise and starts no
    [npm ls]. *)
Theorem failed_query_view_retries_ls_cached
  (JSON_parse_view : string -> option JSON)
  (JSON_parse_ls : string -> option (option PackagesInstalled))
  (st : NPM) (id : nat) (error : bool) (stdout : string) :
  (forall name,
      views st !! id = Some (mkViewExec name Pending) ->
      error = true \/ JSON_parse_view stdout = None ->
      let st' := viewCallback JSON_parse_view id error stdout st in
      CACHE_PACKAGES st' !! name = None
      /\ views st' !! id = Some (mkViewExec name Rejected)
      /\ forall dt lifetime,
           let later := NPM_step JSON_parse_view JSON_parse_ls st' (Tick dt) in
           let '(p, st'') := getPackageVersions name lifetime later in
           p = length (views st')
           /\ views st'' = views st' ++ [mkViewExec name Pending]
           /\ queriesFor name st'' = S (queriesFor name st))
  /\ (forall cwd,
        lss st !! id = Some (mkLsExec cwd Pending) ->
        let st' := lsCallback JSON_parse_ls id error stdout st in
        CACHE_PACKAGES_INSTALLED st' = CACHE_PACKAGES_INSTALLED st
        /\ (exists result, lss st' !! id = Some (mkLsExec cwd (Fulfilled result))
              /\ (isEmpty stdout = true \/ JSON_parse_ls stdout = None
                  \/ JSON_parse_ls stdout = Some None -> result = None))
        /\ forall c cwd',
             CACHE_PACKAGES_INSTALLED st = Some c ->
             (now st' - createdAt c < 60 * 1000)%Z ->
             getPackagesInstalled cwd' st' = (value c, st')).
Proof.
  split.
  - intros name Hid Hfail st'.
    assert (Hlt : (id < length (views st))%nat) by (eapply lookup_lt_Some, Hid).
    assert (Hst' : st' = mkNPM (now st) (delete name (CACHE_PACKAGES st))
                           (CACHE_PACKAGES_INSTALLED st)
                           (<[id := mkViewExec name Rejected]> (views st))
                           (lss st)).
    { unfold st', viewCallback. rewrite Hid.
      destruct Hfail as [-> | ->]; [reflexivity|].
      destruct error; reflexivity. }
    split; [rewrite Hst'; simpl; apply lookup_delete_eq|].
    split; [rewrite Hst'; simpl; apply list_lookup_insert_eq, Hlt|].
    intros dt lifetime later.
    destruct (getPackageVersions_cases name lifetime later)
      as [(c & Hc & _) | [_ Hcall]].
    + exfalso. unfold later in Hc. rewrite Hst' in Hc. simpl in Hc.
      rewrite lookup_delete_eq in Hc. discriminate.
    + rewrite Hcall. split; [reflexivity|]. split; [reflexivity|].
      unfold queriesFor. simpl. rewrite map_app, filter_app. simpl.
      rewrite filter_cons_True, filter_nil by reflexivity.
      rewrite length_app. simpl. unfold st'.
      rewrite viewCallback_names. lia.
  - intros cwd Hid st'.
    assert (Hst' : exists result,
               st' = mkNPM (now st) (CACHE_PACKAGES st)
                       (CACHE_PACKAGES_INSTALLED st) (views st)
                       (<[id := mkLsExec cwd (Fulfilled result)]> (lss st))
               /\ (isEmpty stdout = true \/ JSON_parse_ls stdout = None
                   \/ JSON_parse_ls stdout = Some None -> result = None)).
    { unfold st', lsCallback. rewrite Hid. eexists. split; [reflexivity|].
      intros [-> | [-> | ->]]; [reflexivity | |];
        destruct (isEmpty stdout); reflexivity. }
    destruct Hst' as (result & Hst' & Hres).
    assert (Hlt : (id < length (lss st))%nat) by (eapply lookup_lt_Some, Hid).
    split; [rewrite Hst'; reflexivity|]. split.
    + exists result. split; [|exact Hres].
      rewrite Hst'. simpl. apply list_lookup_insert_eq, Hlt.
    + intros c cwd' Hc Hyoung. unfold getPackagesInstalled.
      replace (CACHE_PACKAGES_INSTALLED st') with (Some c)
        by (rewrite Hst'; simpl; congruence).
      unfold isValid. apply Z.ltb_lt in Hyoung. rewrite Hyoung. reflexivity.
Qed.

Lemma failed_query_view_retries_ls_cached_witness :
  let st := snd (getPackageVersions "left-pad" 1000 (NPM_init 0)) in
  let st' := viewCallback (fun _ => None) 0 true "" st in
  CACHE_PACKAGES st' !! "left-pad" = None
  /\ views st' !! 0%nat = Some (mkViewExec "left-pad" Rejected).
Proof.
  destruct (failed_query_view_retries_ls_cached (fun _ => None) (fun _ => None)
              (snd (getPackageVersions "left-pad" 1000 (NPM_init 0)))
              0 true "") as [H _].
  destruct (H "left-pad" eq_refl (or_introl eq_refl)) as (H1 & H2 & _).
  split; [exact H1 | exact H2].
Defined.

(** C1 as stated fails on the installed-versions path: after [npm ls]
    failed (error, no output) the promise is fulfilled with [undefined],
    not rejected, the cache entry is still there, and a call 59 s later
    gets the same promise without a second [npm ls]. *)
Lemma failed_ls_is_cached_not_rejected :
  let parse_ls : string -> option (option PackagesInstalled) := fun _ => None in
  let '(p, st) := getPackagesInstalled "/project" (NPM_init 0) in
  let st' := lsCallback parse_ls p true "" st in
  let later := NPM_step (fun _ => None) parse_ls st' (Tick 59000) in
  lss st' !! p = Some (mkLsExec "/project" (Fulfilled None))
  /\ CACHE_PACKAGES_INSTALLED st' = Some (mkCache p 0)
  /\ getPackagesInstalled "/project" later = (p, later)
  /\ length (lss (snd (getPackagesInstalled "/project" later))) = 1%nat.
Proof. repeat split. Qed.

(** C6. Take two calls of [getPackageVersions] for one name, with any
    events in between other than calls for that name (time passing,
    queries completing or failing, calls for other names and for the
    installed packages).  If at the second call the cache holds an entry
    for the name that is within its lifetime, the second call starts no
    query and returns the promise the first call returned; the two calls
    together have started at most one query for the name. *)
Theorem getPackageVersions_shares_promise
  (JSON_parse_view : string -> option JSON)
  (JSON_parse_ls : string -> option (option PackagesInstalled))
  (name : string) (lifetime1 lifetime2 : Z) (st : NPM)
  (es : list (NPMEvent)) :
  let first := getPackageVersions name lifetime1 st in
  let st2 := NPM_run JSON_parse_view JSON_parse_ls (snd first) es in
  let second := getPackageVersions name lifetime2 st2 in
  forallb (fun e => negb (callsFor name e)) es = true ->
  (exists c, CACHE_PACKAGES st2 !! name = Some c
             /\ isValid c (now st2) lifetime2 = true) ->
  fst second = fst first
  /\ snd second = st2
  /\ (queriesFor name (snd second) <= S (queriesFor name st))%nat.
Proof.
  intros first st2 second Hes (c & Hc & Hv).
  destruct (between_calls JSON_parse_view JSON_parse_ls name es (snd first) Hes)
    as [Hq Hkeep].
  fold st2 in Hq, Hkeep. apply Hkeep in Hc as Hc1.
  assert (Hsecond : second = (value c, st2)).
  { destruct (getPackageVersions_cases name lifetime2 st2)
      as [(c' & Hc' & _ & Hcall) | [Hinv _]].
    - unfold second. rewrite Hcall. congruence.
    - rewrite (Hinv c Hc) in Hv. discriminate. }
  rewrite Hsecond. simpl. rewrite Hq.
  destruct (getPackageVersions_cases name lifetime1 st)
    as [(c' & Hc' & _ & Hcall) | [_ Hcall]]; unfold first in *;
    rewrite Hcall in *; simpl in *.
  - split; [congruence|]. split; [reflexivity | lia].
  - rewrite lookup_insert_eq in Hc1. injection Hc1 as <-. simpl.
    split; [reflexivity|]. split; [reflexivity|].
    unfold queriesFor. simpl. rewrite map_app, filter_app, length_app.
    simpl. rewrite filter_cons_True, filter_nil by reflexivity. simpl. lia.
Qed.

Lemma getPackageVersions_shares_promise_witness :
  let es := [Tick 5; CallVersions "other" 1000;
             ViewDone 0 false "[]"; Tick 900] in
  let first := getPackageVersions "left-pad" 1000 (NPM_init 0) in
  let st2 :=
    NPM_run (fun _ => Some (strings [])) (fun _ => None) (snd first) es in
  fst (getPackageVersions "left-pad" 1000 st2) = fst first.
Proof.
  apply (getPackageVersions_shares_promise (fun _ => Some (strings []))
           (fun _ => None)
           "left-pad" 1000 1000 (NPM_init 0)
           [Tick 5; CallVersions "other" 1000; ViewDone 0 false "[]"; Tick 900]).
  - reflexivity.
  - eexists. split; reflexivity.
Defined.

(** ** The order on versions *)

Lemma string_compare_refl (s : string) : String.compare s s = Eq.
Proof.
  induction s as [|c s IH]; simpl; [reflexivity|].
  unfold Ascii.compare. rewrite N.compare_refl. exact IH.
Qed.

Lemma string_compare_lt_trans (s t u : string) :
  String.compare s t = Lt -> String.compare t u = Lt -> String.compare s u = Lt.
Proof.
  revert t u. induction s as [|a s IH]; intros [|b t] [|c u]; simpl;
    try discriminate; try reflexivity.
  unfold Ascii.compare.
  destruct (N.compare_spec (N_of_ascii a) (N_of_ascii b)) as [Hab|Hab|Hab];
    try discriminate;
    destruct (N.compare_spec (N_of_ascii b) (N_of_ascii c)) as [Hbc|Hbc|Hbc];
    try discriminate; intros H1 H2.
  - rewrite Hab, Hbc, N.compare_refl. eapply IH; eassumption.
  - rewrite Hab. apply N.compare_lt_iff in Hbc. rewrite Hbc. reflexivity.
  - rewrite <- Hbc. apply N.compare_lt_iff in Hab. rewrite Hab. reflexivity.
  - assert (H : (N_of_ascii a < N_of_ascii c)%N) by lia.
    apply N.compare_lt_iff in H. rewrite H. reflexivity.
Qed.

Lemma compareIdentifiers_eq (a b : Identifier) :
  compareIdentifiers a b = Eq <-> identifierKey a = identifierKey b.
Proof.
  unfold compareIdentifiers, identifierKey.
  destruct (numericValue a) as [x|], (numericValue b) as [y|];
    split; try discriminate.
  - intros H%N.compare_eq_iff. congruence.
  - intros [= ->]. apply N.compare_refl.
  - intros H%String.compare_eq_iff. congruence.
  - intros [= H]. rewrite H. apply string_compare_refl.
Qed.

Lemma compareIdentifiers_antisym (a b : Identifier) :
  compareIdentifiers b a = CompOpp (compareIdentifiers a b).
Proof.
  unfold compareIdentifiers.
  destruct (numericValue a) as [x|], (numericValue b) as [y|];
    try reflexivity.
  - apply N.compare_antisym.
  - apply String.compare_antisym.
Qed.

Lemma compareIdentifiers_lt_trans (a b c : Identifier) :
  compareIdentifiers a b = Lt -> compareIdentifiers b c = Lt ->
  compareIdentifiers a c = Lt.
Proof.
  unfold compareIdentifiers.
  destruct (numericValue a) as [x|], (numericValue b) as [y|],
    (numericValue c) as [z|]; try discriminate; try reflexivity.
  - rewrite !N.compare_lt_iff. lia.
  - apply string_compare_lt_trans.
Qed.

Lemma compareIdentifiers_key (a a' b b' : Identifier) :
  identifierKey a = identifierKey a' -> identifierKey b = identifierKey b' ->
  compareIdentifiers a b = compareIdentifiers a' b'.
Proof.
  unfold compareIdentifiers, identifierKey.
  destruct (numericValue a), (numericValue a'), (numericValue b),
    (numericValue b'); try discriminate; intros [= Ha] [= Hb];
    rewrite ?Ha, ?Hb; reflexivity.
Qed.

Lemma compareIdentifierLists_eq (a b : list Identifier) :
  compareIdentifierLists a b = Eq
  <-> map identifierKey a = map identifierKey b.
Proof.
  revert b. induction a as [|x a IH]; intros [|y b]; simpl;
    try (split; [discriminate | congruence]); [tauto|].
  destruct (compareIdentifiers x y) eqn:Hxy.
  - apply compareIdentifiers_eq in Hxy. rewrite IH, Hxy.
    split; congruence.
  - split; [discriminate|]. intros [= Hk _].
    rewrite (proj2 (compareIdentifiers_eq x y) Hk) in Hxy. discriminate.
  - split; [discriminate|]. intros [= Hk _].
    rewrite (proj2 (compareIdentifiers_eq x y) Hk) in Hxy. discriminate.
Qed.

Lemma compareIdentifierLists_key (a a' b b' : list Identifier) :
  map identifierKey a = map identifierKey a' ->
  map identifierKey b = map identifierKey b' ->
  compareIdentifierLists a b = compareIdentifierLists a' b'.
Proof.
  revert a' b b'. induction a as [|x a IH]; intros [|x' a'] [|y b] [|y' b'];
    simpl; try discriminate; try reflexivity.
  intros [= Hx Ha] [= Hy Hb].
  rewrite (compareIdentifiers_key x x' y y' Hx Hy), (IH a' b b' Ha Hb).
  reflexivity.
Qed.

Lemma compareIdentifierLists_antisym (a b : list Identifier) :
  compareIdentifierLists b a = CompOpp (compareIdentifierLists a b).
Proof.
  revert b. induction a as [|x a IH]; intros [|y b]; simpl; try reflexivity.
  rewrite (compareIdentifiers_antisym x y).
  destruct (compareIdentifiers x y); simpl; auto.
Qed.

Lemma compareIdentifierLists_lt_trans (a b c : list Identifier) :
  compareIdentifierLists a b = Lt -> compareIdentifierLists b c = Lt ->
  compareIdentifierLists a c = Lt.
Proof.
  revert b c. induction a as [|x a IH]; intros [|y b] [|z c]; simpl;
    try discriminate; try reflexivity.
  destruct (compareIdentifiers x y) eqn:Hxy; try discriminate;
    destruct (compareIdentifiers y z) eqn:Hyz; try discriminate; intros H1 H2.
  - apply compareIdentifiers_eq in Hxy, Hyz.
    rewrite (proj2 (compareIdentifiers_eq x z)) by congruence.
    eapply IH; eassumption.
  - apply compareIdentifiers_eq in Hxy.
    rewrite (compareIdentifiers_key x y z z Hxy eq_refl), Hyz. reflexivity.
  - apply compareIdentifiers_eq in Hyz.
    rewrite <- (compareIdentifiers_key x x y z eq_refl Hyz), Hxy.
    reflexivity.
  - rewrite (compareIdentifiers_lt_trans x y z Hxy Hyz). reflexivity.
Qed.

Lemma comparePre_lists (a b : SemVer) :
  comparePre a b = comparePreLists (pre a) (pre b).
Proof. unfold comparePre. destruct (pre a), (pre b); reflexivity. Qed.

Lemma comparePreLists_eq (a b : list Identifier) :
  comparePreLists a b = Eq <-> map identifierKey a = map identifierKey b.
Proof.
  destruct a as [|x a], b as [|y b]; simpl;
    try (split; [discriminate | congruence]); [tauto|].
  apply (compareIdentifierLists_eq (x :: a) (y :: b)).
Qed.

Lemma comparePreLists_key (a a' b b' : list Identifier) :
  map identifierKey a = map identifierKey a' ->
  map identifierKey b = map identifierKey b' ->
  comparePreLists a b = comparePreLists a' b'.
Proof.
  intros Ha Hb.
  destruct a as [|x a], a' as [|x' a'], b as [|y b], b' as [|y' b'];
    try discriminate; try reflexivity.
  apply (compareIdentifierLists_key (x :: a) (x' :: a') (y :: b) (y' :: b'));
    assumption.
Qed.

Lemma comparePreLists_antisym (a b : list Identifier) :
  comparePreLists b a = CompOpp (comparePreLists a b).
Proof.
  destruct a as [|x a], b as [|y b]; try reflexivity.
  apply (compareIdentifierLists_antisym (x :: a) (y :: b)).
Qed.

Lemma comparePreLists_lt_trans (a b c : list Identifier) :
  comparePreLists a b = Lt -> comparePreLists b c = Lt ->
  comparePreLists a c = Lt.
Proof.
  destruct a as [|x a], b as [|y b], c as [|z c];
    try discriminate; try reflexivity.
  apply (compareIdentifierLists_lt_trans (x :: a) (y :: b) (z :: c)).
Qed.

Lemma compareMain_eq (a b : SemVer) :
  compareMain a b = Eq
  <-> major a = major b /\ minor a = minor b /\ patch a = patch b.
Proof.
  unfold compareMain, lexico.
  destruct (N.compare_spec (major a) (major b));
    destruct (N.compare_spec (minor a) (minor b));
    destruct (N.compare_spec (patch a) (patch b));
    split; try discriminate; try tauto; intros (? & ? & ?); lia.
Qed.

Lemma compareMain_lt (a b : SemVer) :
  compareMain a b = Lt
  <-> (major a < major b
       \/ major a = major b
          /\ (minor a < minor b
              \/ minor a = minor b /\ patch a < patch b))%N.
Proof.
  unfold compareMain, lexico.
  destruct (N.compare_spec (major a) (major b));
    destruct (N.compare_spec (minor a) (minor b));
    destruct (N.compare_spec (patch a) (patch b));
    split; try discriminate; try reflexivity; try lia.
Qed.

Lemma compareMain_antisym (a b : SemVer) :
  compareMain b a = CompOpp (compareMain a b).
Proof.
  unfold compareMain, lexico.
  rewrite (N.compare_antisym (major a)), (N.compare_antisym (minor a)),
    (N.compare_antisym (patch a)).
  destruct (major a ?= major b)%N, (minor a ?= minor b)%N,
    (patch a ?= patch b)%N; reflexivity.
Qed.

Lemma compare_eq (a b : SemVer) : compare a b = Eq <-> key a = key b.
Proof.
  unfold compare, lexico, key. rewrite comparePre_lists.
  destruct (compareMain a b) eqn:Hm.
  - apply compareMain_eq in Hm as (H1 & H2 & H3).
    rewrite comparePreLists_eq, H1, H2, H3. split; congruence.
  - split; [discriminate|]. intros [= H1 H2 H3 _].
    rewrite (proj2 (compareMain_eq a b)) in Hm by auto. discriminate.
  - split; [discriminate|]. intros [= H1 H2 H3 _].
    rewrite (proj2 (compareMain_eq a b)) in Hm by auto. discriminate.
Qed.

Lemma compare_key (a a' b b' : SemVer) :
  key a = key a' -> key b = key b' -> compare a b = compare a' b'.
Proof.
  unfold key, compare, compareMain. rewrite !comparePre_lists.
  intros [= -> -> -> Ha] [= -> -> -> Hb].
  rewrite (comparePreLists_key _ _ _ _ Ha Hb). reflexivity.
Qed.

Lemma compare_refl (a : SemVer) : compare a a = Eq.
Proof. apply compare_eq. reflexivity. Qed.

Lemma compare_antisym (a b : SemVer) : compare b a = CompOpp (compare a b).
Proof.
  unfold compare, lexico. rewrite (compareMain_antisym a b), !comparePre_lists,
    (comparePreLists_antisym (pre a) (pre b)).
  destruct (compareMain a b); reflexivity.
Qed.

Lemma compare_lt (a b : SemVer) :
  compare a b = Lt
  <-> compareMain a b = Lt
      \/ compareMain a b = Eq /\ comparePreLists (pre a) (pre b) = Lt.
Proof.
  unfold compare, lexico. rewrite comparePre_lists.
  destruct (compareMain a b); split; intros H;
    try (destruct H as [H | [H H']]); try discriminate; auto.
Qed.

Lemma compare_lt_trans (a b c : SemVer) :
  compare a b = Lt -> compare b c = Lt -> compare a c = Lt.
Proof.
  rewrite !compare_lt, !compareMain_lt, !compareMain_eq.
  intros [H1 | [(E1 & E2 & E3) P1]] [H2 | [(F1 & F2 & F3) P2]].
  - left. lia.
  - left. lia.
  - left. lia.
  - right. split; [lia|]. eapply comparePreLists_lt_trans; eassumption.
Qed.

Lemma le_refl (a : SemVer) : le a a.
Proof. unfold le. rewrite compare_refl. discriminate. Qed.

Lemma le_trans (a b c : SemVer) : le a b -> le b c -> le a c.
Proof.
  unfold le. intros Hab Hbc.
  destruct (compare a b) eqn:H1; [| |congruence].
  - apply compare_eq in H1. rewrite (compare_key a b c c H1 eq_refl). exact Hbc.
  - destruct (compare b c) eqn:H2; [| |congruence].
    + apply compare_eq in H2.
      rewrite <- (compare_key a a b c eq_refl H2), H1. discriminate.
    + rewrite (compare_lt_trans a b c H1 H2). discriminate.
Qed.

Lemma le_total (a b : SemVer) : le a b \/ le b a.
Proof.
  unfold le. rewrite (compare_antisym a b).
  destruct (compare a b); simpl; [left | left | right]; discriminate.
Qed.

Lemma not_lt_le (a b : SemVer) : compare a b <> Lt -> le b a.
Proof.
  unfold le. rewrite (compare_antisym a b).
  destruct (compare a b); simpl; congruence.
Qed.

(** ** maxSatisfying returns a greatest accepted version *)

Lemma Range_test_parses (r : Range) (inc : bool) (v : string) :
  Range_test r inc v = true -> exists sv, parse v = Some sv.
Proof.
  unfold Range_test. destruct (parse v) as [sv|]; [eauto | discriminate].
Qed.

Section MaxFacts.

Variable r : Range.
Variable inc : bool.

Lemma maxStep_soFar (seen : list string) (acc : option (string * SemVer))
  (v : string) :
  maxSoFar r inc seen acc ->
  maxSoFar r inc (seen ++ [v]) (maxStep r inc acc v).
Proof.
  intros Hacc. unfold maxStep.
  destruct (Range_test r inc v) eqn:Hv.
  - destruct (Range_test_parses _ _ _ Hv) as [sv Hsv]. rewrite Hsv.
    destruct acc as [[m msv]|]; simpl in Hacc.
    + destruct Hacc as (Hm & Hin & Hok & Hmax).
      destruct (compare msv sv) eqn:Hc.
      * simpl. repeat split; auto.
        { apply in_or_app. auto. }
        intros w sw [Hw | [<- | []]]%in_app_or Hwok Hsw; [eauto|].
        rewrite Hsv in Hsw. injection Hsw as <-.
        apply not_lt_le. congruence.
      * simpl. repeat split; auto.
        { apply in_or_app. right. left. reflexivity. }
        intros w sw [Hw | [<- | []]]%in_app_or Hwok Hsw.
        -- apply (le_trans sw msv sv); [eauto|]. unfold le. congruence.
        -- rewrite Hsv in Hsw. injection Hsw as <-. apply le_refl.
      * simpl. repeat split; auto.
        { apply in_or_app. auto. }
        intros w sw [Hw | [<- | []]]%in_app_or Hwok Hsw; [eauto|].
        rewrite Hsv in Hsw. injection Hsw as <-.
        apply not_lt_le. congruence.
    + simpl. repeat split; auto.
      { apply in_or_app. right. left. reflexivity. }
      intros w sw [Hw | [<- | []]]%in_app_or Hwok Hsw.
      * rewrite (Hacc w Hw) in Hwok. discriminate.
      * rewrite Hsv in Hsw. injection Hsw as <-. apply le_refl.
  - destruct acc as [[m msv]|]; simpl in Hacc |- *.
    + destruct Hacc as (Hm & Hin & Hok & Hmax). repeat split; auto.
      { apply in_or_app. auto. }
      intros w sw [Hw | [<- | []]]%in_app_or Hwok Hsw; [eauto|].
      congruence.
    + intros w [Hw | [<- | []]]%in_app_or; auto.
Qed.

Lemma fold_maxStep_soFar (versions seen : list string)
  (acc : option (string * SemVer)) :
  maxSoFar r inc seen acc ->
  maxSoFar r inc (seen ++ versions)
    (fold_left (maxStep r inc) versions acc).
Proof.
  revert seen acc. induction versions as [|v versions IH]; intros seen acc H.
  - rewrite app_nil_r. exact H.
  - simpl. replace (seen ++ v :: versions) with ((seen ++ [v]) ++ versions)
      by (rewrite <- app_assoc; reflexivity).
    apply IH, maxStep_soFar, H.
Qed.

Lemma fold_maxStep_greatest (versions : list string) :
  greatestOf (Range_test r inc) versions
    (option_map fst (fold_left (maxStep r inc) versions None)).
Proof.
  pose proof (fold_maxStep_soFar versions [] None) as H. simpl in H.
  specialize (H (fun _ (F : False) => match F with end)).
  destruct (fold_left (maxStep r inc) versions None) as [[v sv]|]; simpl in *.
  - destruct H as (Hv & Hin & Hok & Hmax). repeat split; auto.
    intros w Hw Hwok. destruct (Range_test_parses _ _ _ Hwok) as [sw Hsw].
    exists sw, sv. eauto.
  - exact H.
Qed.

End MaxFacts.

Lemma maxSatisfying_greatest (Range_other : string -> bool -> option Range)
  (versions : list string) (range : string) (inc : bool) :
  match Range_parse Range_other range inc with
  | Some r =>
      greatestOf (Range_test r inc) versions
        (maxSatisfying Range_other versions range inc)
  | None => maxSatisfying Range_other versions range inc = None
  end.
Proof.
  unfold maxSatisfying.
  destruct (Range_parse Range_other range inc) as [r|]; [|reflexivity].
  apply fold_maxStep_greatest.
Qed.

(** The range [>=0] is the empty comparator. *)
Lemma Range_gte0 (Range_other : string -> bool -> option Range) (inc : bool) :
  Range_parse Range_other ">=0" inc = Some [[ANY]].
Proof. destruct inc; reflexivity. Qed.

Lemma Range_test_any (inc : bool) (v : string) :
  Range_test [[ANY]] inc v = published inc v.
Proof.
  unfold Range_test, published, testSet.
  destruct (parse v) as [sv|]; [|reflexivity]. simpl.
  destruct (hasPrerelease sv), inc; reflexivity.
Qed.

Lemma greatestOf_ext (f g : string -> bool) (versions : list string)
  (res : option string) :
  (forall v, f v = g v) -> greatestOf f versions res -> greatestOf g versions res.
Proof.
  intros Hfg. destruct res as [v|]; simpl.
  - intros (Hin & Hv & Hmax). rewrite <- Hfg. repeat split; auto.
    intros w Hw Hgw. apply Hmax; [exact Hw|]. rewrite Hfg. exact Hgw.
  - intros H w Hw. rewrite <- Hfg. auto.
Qed.

Lemma versionLatest_greatest (Range_other : string -> bool -> option Range)
  (versions : list string) (inc : bool) :
  greatestOf (published inc) versions
    (maxSatisfying Range_other versions ">=0" inc).
Proof.
  pose proof (maxSatisfying_greatest Range_other versions ">=0" inc) as H.
  rewrite Range_gte0 in H.
  eapply greatestOf_ext; [|exact H]. apply Range_test_any.
Qed.


(** ** Cutting and splitting *)

Lemma allChars_impl (P Q : ascii -> bool) (s : string) :
  (forall c, P c = true -> Q c = true) ->
  allChars P s = true -> allChars Q s = true.
Proof.
  intros HPQ. induction s as [|c s IH]; simpl; [reflexivity|].
  intros [Hc Hs]%andb_prop. rewrite (HPQ c Hc), (IH Hs). reflexivity.
Qed.

Lemma anyChar_allChars (P : ascii -> bool) (s : string) :
  anyChar P s = negb (allChars (fun c => negb (P c)) s).
Proof.
  induction s as [|c s IH]; simpl; [reflexivity|].
  rewrite IH. destruct (P c); reflexivity.
Qed.

Lemma cut_spec (sep : ascii) (s : string) :
  match cut sep s with
  | (a, Some r) => s = a +:+ String sep r /\ lacks sep a = true
  | (a, None) => s = a /\ lacks sep a = true
  end.
Proof.
  induction s as [|c s IH]; simpl; [auto|].
  destruct (Ascii.eqb_spec c sep) as [->|Hne].
  - auto.
  - destruct (cut sep s) as [a [r|]]; destruct IH as [-> Ha]; sapp;
      (split; [reflexivity|]); unfold lacks; simpl;
      (apply Ascii.eqb_neq in Hne; rewrite Hne); exact Ha.
Qed.

Lemma cut_lacks (sep : ascii) (s : string) :
  lacks sep s = true -> cut sep s = (s, None).
Proof.
  unfold lacks. induction s as [|c s IH]; simpl; [reflexivity|].
  intros [Hc Hs]%andb_prop. apply negb_true_iff in Hc.
  rewrite Hc, (IH Hs). reflexivity.
Qed.

Lemma cut_app (sep : ascii) (a r : string) :
  lacks sep a = true -> cut sep (a +:+ String sep r) = (a, Some r).
Proof.
  unfold lacks. induction a as [|c a IH]; sapp; simpl.
  - rewrite Ascii.eqb_refl. reflexivity.
  - intros [Hc Ha]%andb_prop. apply negb_true_iff in Hc.
    rewrite Hc, (IH Ha). reflexivity.
Qed.

Lemma split_not_nil (sep : ascii) (s : string) : split sep s <> [].
Proof.
  destruct s as [|c s]; simpl; [discriminate|].
  destruct (Ascii.eqb c sep); [discriminate|].
  destruct (split sep s); discriminate.
Qed.

Lemma split_lacks (sep : ascii) (s : string) :
  lacks sep s = true -> split sep s = [s].
Proof.
  unfold lacks. induction s as [|c s IH]; simpl; [reflexivity|].
  intros [Hc Hs]%andb_prop. apply negb_true_iff in Hc.
  rewrite Hc, (IH Hs). reflexivity.
Qed.

Lemma split_app (sep : ascii) (a r : string) :
  lacks sep a = true -> split sep (a +:+ String sep r) = a :: split sep r.
Proof.
  unfold lacks. induction a as [|c a IH]; sapp; simpl.
  - rewrite Ascii.eqb_refl. reflexivity.
  - intros [Hc Ha]%andb_prop. apply negb_true_iff in Hc.
    rewrite Hc, (IH Ha). reflexivity.
Qed.

Lemma split_cons (sep : ascii) (s x : string) (xs : list string) :
  split sep s = x :: xs ->
  lacks sep x = true
  /\ match xs with
     | [] => s = x
     | _ :: _ => exists r, s = x +:+ String sep r /\ split sep r = xs
     end.
Proof.
  revert x xs. induction s as [|c s IH]; intros x xs; simpl.
  - intros [= <- <-]. auto.
  - destruct (Ascii.eqb_spec c sep) as [->|Hne].
    + intros [= <- <-]. split; [reflexivity|].
      pose proof (split_not_nil sep s).
      destruct (split sep s) eqn:Hs; [congruence|]. eauto.
    + destruct (split sep s) as [|y ys] eqn:Hs;
        [exfalso; eapply split_not_nil; eassumption|].
      intros [= <- <-]. destruct (IH y ys eq_refl) as [Hy Hys].
      apply Ascii.eqb_neq in Hne. split.
      * unfold lacks. simpl. rewrite Hne. exact Hy.
      * destruct ys as [|z zs]; [congruence|].
        destruct Hys as (r & -> & Hr). exists r. sapp. auto.
Qed.

(** A text splits in three at its two separators. *)
Lemma split_three (sep : ascii) (s a b c : string) :
  split sep s = [a; b; c] ->
  s = a +:+ String sep (b +:+ String sep c)
  /\ lacks sep a = true /\ lacks sep b = true /\ lacks sep c = true.
Proof.
  intros H. apply split_cons in H as [Ha (r & -> & H)].
  apply split_cons in H as [Hb (r' & -> & H)].
  apply split_cons in H as [Hc ->]. auto.
Qed.

Lemma split_three_app (sep : ascii) (a b c : string) :
  lacks sep a = true -> lacks sep b = true -> lacks sep c = true ->
  split sep (a +:+ String sep (b +:+ String sep c)) = [a; b; c].
Proof.
  intros Ha Hb Hc. rewrite split_app by exact Ha.
  rewrite split_app by exact Hb. rewrite split_lacks by exact Hc. reflexivity.
Qed.

(** If every piece is made of characters of a class that the separator
    belongs to, so is the whole text. *)
Lemma allChars_split (P : ascii -> bool) (sep : ascii) (s : string) :
  P sep = true ->
  Forall (fun x => allChars P x = true) (split sep s) ->
  allChars P s = true.
Proof.
  intros Hsep. induction s as [|c s IH]; simpl; [reflexivity|].
  destruct (Ascii.eqb_spec c sep) as [->|Hne].
  - intros H. inversion H; subst. rewrite Hsep. simpl. auto.
  - destruct (split sep s) as [|y ys] eqn:Hs;
      [exfalso; eapply split_not_nil; eassumption|].
    intros H. inversion H as [|? ? Hy Hys]; subst. simpl in Hy.
    apply andb_prop in Hy as [Hc Hy]. rewrite Hc. simpl.
    apply IH. constructor; assumption.
Qed.

Lemma traverse_Forall {A B : Type} (f : A -> option B) (l : list A)
  (r : list B) :
  traverse f l = Some r -> Forall (fun x => exists y, f x = Some y) l.
Proof.
  revert r. induction l as [|x l IH]; intros r; simpl; [constructor|].
  destruct (f x) as [y|] eqn:Hx; [|discriminate].
  destruct (traverse f l) as [ys|]; [|discriminate].
  intros _. constructor; eauto.
Qed.

(** ** Characters of the classes involved *)

Lemma onePiece_plain (s : string) : onePiece s = allChars plain s.
Proof. unfold onePiece. rewrite anyChar_allChars, negb_involutive. reflexivity. Qed.

Lemma char_classes (c : ascii) :
  (isDigit c = true -> isIdentChar c = true)
  /\ (isIdentChar c = true -> plain c = true)
  /\ (isDigit c = true ->
      Ascii.eqb c "." = false /\ Ascii.eqb c "-" = false
      /\ Ascii.eqb c "+" = false /\ Ascii.eqb c "v" = false
      /\ Ascii.eqb c "=" = false)
  /\ (isSpace c = true -> isDigit c = false).
Proof.
  destruct c as [[] [] [] [] [] [] [] []]; vm_compute;
    repeat split; intros; congruence.
Qed.

Lemma plain_seps : plain "." = true /\ plain "-" = true /\ plain "+" = true
                   /\ plain "v" = true.
Proof. repeat split. Qed.

Lemma digits_lack (sep : ascii) (s : string) :
  isDigit sep = false -> allChars isDigit s = true -> lacks sep s = true.
Proof.
  intros Hsep. apply allChars_impl. intros c Hc.
  destruct (Ascii.eqb_spec c sep) as [->|]; [congruence | reflexivity].
Qed.

(** ** Trimming text without white space *)

Lemma trimStart_id (s : string) :
  match s with String c _ => isSpace c = false | EmptyString => True end ->
  trimStart s = s.
Proof. destruct s as [|c s]; simpl; [auto|]. intros ->. reflexivity. Qed.

Lemma trimEnd_plain (s : string) : allChars plain s = true -> trimEnd s = s.
Proof.
  induction s as [|c s IH]; simpl; [reflexivity|].
  intros [Hc Hs]%andb_prop. rewrite (IH Hs).
  unfold plain in Hc. apply negb_true_iff, orb_false_iff in Hc as [-> _].
  reflexivity.
Qed.

Lemma trim_plain (s : string) : allChars plain s = true -> trim s = s.
Proof.
  intros H. unfold trim. rewrite trimStart_id.
  - apply trimEnd_plain, H.
  - destruct s as [|c s]; [exact I|]. simpl in H.
    apply andb_prop in H as [Hc _].
    unfold plain in Hc. apply negb_true_iff, orb_false_iff in Hc as [-> _].
    reflexivity.
Qed.

(** ** Numeric identifiers *)

Lemma numericIdentifier_digits (s : string) (n : N) :
  numericIdentifier s = Some n ->
  allChars isDigit s = true /\ isEmpty s = false /\ n = decimal s.
Proof.
  destruct s as [|c r]; [discriminate|]. unfold numericIdentifier.
  destruct (allChars isDigit (String c r)) eqn:Hd; [|discriminate].
  destruct (negb (Ascii.eqb c "0") || isEmpty r); [|discriminate].
  intros [= <-]. auto.
Qed.

Lemma digit_value_pos (c : ascii) :
  isDigit c = true -> Ascii.eqb c "0" = false -> (1 <= digitValue c)%N.
Proof.
  destruct c as [[] [] [] [] [] [] [] []]; vm_compute; intros; congruence.
Qed.

Lemma decimalFrom_ge (acc : N) (s : string) :
  (acc * 10 ^ N.of_nat (String.length s) <= decimalFrom acc s)%N.
Proof.
  revert acc. induction s as [|c s IH]; intros acc.
  - simpl. lia.
  - cbn [String.length decimalFrom]. rewrite Nat2N.inj_succ, N.pow_succ_r'.
    etransitivity; [|apply IH]. nia.
Qed.

Lemma pow10_sixteen (k : nat) :
  (16 <= k)%nat -> (10000000000000000 <= 10 ^ N.of_nat k)%N.
Proof.
  intros H. change 10000000000000000%N with (10 ^ 16)%N.
  apply N.pow_le_mono_r; lia.
Qed.

(** A numeric identifier within [MAX_SAFE_INTEGER] has at most sixteen
    digits. *)
Lemma numericIdentifier_length (s : string) (n : N) :
  numericIdentifier s = Some n -> safe n = true ->
  (String.length s <= MAX_SAFE_COMPONENT_LENGTH)%nat.
Proof.
  destruct s as [|c r]; [discriminate|]. unfold numericIdentifier.
  destruct (allChars isDigit (String c r)) eqn:Hd; [|discriminate].
  simpl in Hd. apply andb_prop in Hd as [Hc Hr].
  destruct (Ascii.eqb c "0") eqn:H0; simpl.
  - destruct r; [|discriminate]. intros _ _.
    unfold MAX_SAFE_COMPONENT_LENGTH. simpl. lia.
  - intros [= <-] Hsafe. unfold safe in Hsafe.
    apply N.leb_le in Hsafe.
    pose proof (decimalFrom_ge (10 * 0 + digitValue c) r) as Hge.
    pose proof (digit_value_pos c Hc H0) as Hpos.
    change (decimal (String c r))
      with (decimalFrom (10 * 0 + digitValue c) r) in Hsafe.
    unfold MAX_SAFE_COMPONENT_LENGTH. cbn [String.length].
    destruct (Nat.le_gt_cases (String.length r) 15) as [|Hlong]; [lia|].
    exfalso.
    pose proof (pow10_sixteen (String.length r) Hlong) as Hpow.
    revert Hsafe Hge Hpos Hpow. unfold MAX_SAFE_INTEGER.
    generalize (decimalFrom (10 * 0 + digitValue c) r) (digitValue c)
      (10 ^ N.of_nat (String.length r))%N.
    clear. intros d v p. nia.
Qed.

Lemma numericIdentifier_xrange (s : string) (n : N) :
  numericIdentifier s = Some n -> xrangeIdentifier s = Some (XNum n).
Proof.
  intros H. unfold xrangeIdentifier. rewrite H.
  apply numericIdentifier_digits in H as (Hd & He & _).
  destruct s as [|c r]; [discriminate|]. simpl in Hd.
  apply andb_prop in Hd as [Hc _].
  assert (Hx : Ascii.eqb c "x" = false /\ Ascii.eqb c "X" = false
               /\ Ascii.eqb c "*" = false).
  { revert Hc. clear. destruct c as [[] [] [] [] [] [] [] []]; vm_compute;
      repeat split; congruence. }
  destruct Hx as (H1 & H2 & H3). simpl. rewrite H1, H2, H3. reflexivity.
Qed.

Lemma xrangeIdentifier_numeric (s : string) (n : N) :
  xrangeIdentifier s = Some (XNum n) -> numericIdentifier s = Some n.
Proof.
  unfold xrangeIdentifier.
  destruct (String.eqb s "x" || String.eqb s "X" || String.eqb s "*");
    [discriminate|].
  destruct (numericIdentifier s); simpl; congruence.
Qed.

(** ** The anatomy of a version that parses *)

Lemma parseFull_inv (s : string) (sv : SemVer) :
  parseFull s = Some sv ->
  exists mainpre bld main prl a b c,
    cut "+" (stripV s) = (mainpre, bld)
    /\ cut "-" mainpre = (main, prl)
    /\ split "." main = [a; b; c]
    /\ numericIdentifier a = Some (major sv)
    /\ numericIdentifier b = Some (minor sv)
    /\ numericIdentifier c = Some (patch sv)
    /\ safe (major sv) = true /\ safe (minor sv) = true
    /\ safe (patch sv) = true
    /\ identifiers prereleaseIdentifier prl = Some (pre sv)
    /\ identifiers buildIdentifier bld = Some (build sv).
Proof.
  unfold parseFull.
  destruct (cut "+" (stripV s)) as [mainpre bld].
  destruct (cut "-" mainpre) as [main prl] eqn:Hcut.
  unfold mainVersion.
  destruct (split "." main) as [|a [|b [|c [|d l]]]] eqn:Hsplit;
    try discriminate.
  destruct (numericIdentifier a) as [x|] eqn:Ha; [|discriminate].
  destruct (numericIdentifier b) as [y|] eqn:Hb; [|discriminate].
  destruct (numericIdentifier c) as [z|] eqn:Hc; [|discriminate].
  destruct (safe x) eqn:Hx; [|discriminate].
  destruct (safe y) eqn:Hy; [|discriminate].
  destruct (safe z) eqn:Hz; [|discriminate]. simpl.
  destruct (identifiers prereleaseIdentifier prl) as [p|] eqn:Hp;
    [|discriminate].
  destruct (identifiers buildIdentifier bld) as [bb|] eqn:Hbb;
    [|discriminate].
  intros [= <-]. simpl. exists mainpre, bld, main, prl, a, b, c.
  repeat split; auto.
Qed.

Lemma identifiers_plain {B : Type} (f : string -> option B)
  (part : string) (r : list B) :
  (forall s y, f s = Some y -> allChars isIdentChar s = true) ->
  identifiers f (Some part) = Some r -> allChars plain part = true.
Proof.
  intros Hf H. simpl in H. apply traverse_Forall in H.
  apply (allChars_split plain "." part); [reflexivity|].
  eapply Forall_impl; [exact H|]. intros s [y Hy]. simpl.
  eapply allChars_impl; [|eapply Hf, Hy].
  intros c. apply (char_classes c).
Qed.

Lemma prereleaseIdentifier_chars (s : string) (y : Identifier) :
  prereleaseIdentifier s = Some y -> allChars isIdentChar s = true.
Proof.
  unfold prereleaseIdentifier.
  destruct (isEmpty s); [discriminate|]. simpl.
  destruct (allChars isIdentChar s); [reflexivity | discriminate].
Qed.

Lemma buildIdentifier_chars (s y : string) :
  buildIdentifier s = Some y -> allChars isIdentChar s = true.
Proof.
  unfold buildIdentifier.
  destruct (isEmpty s); [discriminate|]. simpl.
  destruct (allChars isIdentChar s); [reflexivity | discriminate].
Qed.

Lemma digits_plain (s : string) :
  allChars isDigit s = true -> allChars plain s = true.
Proof.
  apply allChars_impl. intros c Hc.
  apply (char_classes c), (char_classes c), Hc.
Qed.

(** ** The baseline *)

Lemma stripNonDigitPrefix_fixed (s : string) :
  stripNonDigitPrefix s = s ->
  match s with
  | String c _ => isDigit c = true
  | EmptyString => True
  end.
Proof.
  destruct s as [|c s]; [auto|]. simpl.
  destruct (isDigit c) eqn:Hc; [reflexivity|]. intros H. exfalso.
  destruct (stripNonDigitPrefix_split s) as (p & Hs & _).
  apply (f_equal String.length) in H, Hs.
  rewrite sapp_length in Hs. simpl in H. lia.
Qed.

(** The baseline is empty or starts with a digit, and does not end in
    white space. *)
Lemma versionClear_shape (version : string) :
  match versionClear version with
  | String c _ => isDigit c = true
  | EmptyString => True
  end
  /\ trim (versionClear version) = versionClear version
  /\ stripV (versionClear version) = versionClear version
  /\ stripVEq (versionClear version) = versionClear version.
Proof.
  destruct (versionClear_fixed version) as (Hd & Ht).
  apply stripNonDigitPrefix_fixed in Hd.
  destruct (versionClear version) as [|c s]; [repeat split|].
  pose proof (char_classes c) as (_ & _ & Hseps & _).
  destruct (Hseps Hd) as (_ & _ & _ & Hv & He).
  split; [exact Hd|]. split; [|split].
  - unfold trim. rewrite trimStart_id; [exact Ht|].
    apply isDigit_not_space, Hd.
  - unfold stripV. destruct (Ascii.eqb_spec c "v") as [->|Hne];
      [discriminate|].
    destruct c as [[] [] [] [] [] [] [] []]; try reflexivity. congruence.
  - simpl. rewrite Hv, He. reflexivity.
Qed.

Lemma baseline_anatomy (version : string) (sv : SemVer) :
  parse (versionClear version) = Some sv ->
  Anatomy (versionClear version) sv.
Proof.
  destruct (versionClear_shape version) as (_ & Htrim & HstripV & _).
  unfold parse. rewrite Htrim.
  destruct (Nat.leb_spec (String.length (versionClear version)) MAX_LENGTH)
    as [Hlen|]; [|discriminate].
  intros H. apply parseFull_inv in H
    as (mainpre & bld & main & prl & a & b & c & H1 & H2 & H3 & H4 & H5 & H6
        & H7 & H8 & H9 & H10 & H11).
  rewrite HstripV in H1.
  apply split_three in H3 as (-> & _).
  econstructor; eauto.
Qed.

Lemma anatomy_plain (s : string) (sv : SemVer) :
  Anatomy s sv -> allChars plain s = true.
Proof.
  intros [mainpre bld prl a b c _ H1 H2 Ha Hb Hc _ Hp Hbld].
  apply numericIdentifier_digits in Ha as (Ha & _).
  apply numericIdentifier_digits in Hb as (Hb & _).
  apply numericIdentifier_digits in Hc as (Hc & _).
  apply digits_plain in Ha, Hb, Hc.
  assert (Hmain : allChars plain (a +:+ String "." (b +:+ String "." c)) = true).
  { rewrite allChars_app. simpl. rewrite allChars_app. simpl.
    rewrite Ha, Hb, Hc. reflexivity. }
  assert (Hmp : allChars plain mainpre = true).
  { pose proof (cut_spec "-" mainpre) as Hcut. rewrite H2 in Hcut.
    destruct prl as [ptext|]; destruct Hcut as [-> _]; [|exact Hmain].
    rewrite allChars_app. simpl. rewrite Hmain. simpl.
    eapply identifiers_plain; [|exact Hp]. apply prereleaseIdentifier_chars. }
  pose proof (cut_spec "+" s) as Hcut. rewrite H1 in Hcut.
  destruct bld as [btext|]; destruct Hcut as [-> _]; [|exact Hmp].
  rewrite allChars_app. simpl. rewrite Hmp. simpl.
  eapply identifiers_plain; [|exact Hbld]. apply buildIdentifier_chars.
Qed.

(** XRANGEPLAIN reads a version that parses the way FULL does. *)
Lemma anatomy_xrange (s : string) (sv : SemVer) (A : Anatomy s sv) :
  stripVEq s = s ->
  exists text,
    xrangePlain s
    = Some (mkXRange (XNum (major sv)) (XNum (minor sv)) (XNum (patch sv))
              (pre sv) text)
    /\ (String.length text <= MAX_LENGTH)%nat.
Proof.
  destruct A as [mainpre bld prl a b c Hlen H1 H2 Ha Hb Hc _ Hp Hbld].
  intros Hs. exists mainpre. split.
  - unfold xrangePlain. rewrite Hs, H1, H2.
    rewrite split_three_app.
    + rewrite (numericIdentifier_xrange _ _ Ha),
        (numericIdentifier_xrange _ _ Hb), (numericIdentifier_xrange _ _ Hc),
        Hp, Hbld. reflexivity.
    + apply digits_lack; [reflexivity|].
      apply numericIdentifier_digits in Ha. tauto.
    + apply digits_lack; [reflexivity|].
      apply numericIdentifier_digits in Hb. tauto.
    + apply digits_lack; [reflexivity|].
      apply numericIdentifier_digits in Hc. tauto.
  - pose proof (cut_spec "+" s) as Hcut. rewrite H1 in Hcut.
    destruct bld as [btext|]; destruct Hcut as [Heq _].
    + apply (f_equal String.length) in Heq. rewrite sapp_length in Heq. lia.
    + congruence.
Qed.

(** ** Caret ranges *)

Arguments replaceGTE0 : simpl never.

Lemma replaceGTE0_cases (inc : bool) (c : Comparator) :
  replaceGTE0 inc c = c \/ replaceGTE0 inc c = ANY.
Proof.
  destruct c as [|[] [[|?] [|?] [|?] [|[[|?]|?] [|? ?]] ?]]; cbn; auto;
    destruct inc; auto.
Qed.


Lemma replaceGTE0_allows (inc : bool) (c : Comparator) (w : SemVer) :
  allowsPrereleaseOf w (replaceGTE0 inc c) = true ->
  allowsPrereleaseOf w c = true.
Proof.
  destruct (replaceGTE0_cases inc c) as [-> | ->]; [auto | discriminate].
Qed.

Lemma version_safe (M m p : N) (pr : list Identifier) :
  safe M = true -> safe m = true -> safe p = true ->
  version M m p pr = Some (mkSemVer M m p pr []).
Proof. unfold version. intros -> -> ->. reflexivity. Qed.

Lemma version_inv (M m p : N) (pr : list Identifier) (v : SemVer) :
  version M m p pr = Some v ->
  v = mkSemVer M m p pr []
  /\ safe M = true /\ safe m = true /\ safe p = true.
Proof.
  unfold version. destruct (safe M), (safe m), (safe p); try discriminate.
  intros [= <-]. auto.
Qed.

Lemma caretCeiling_zero (M m p : N) (hi : SemVer) :
  caretCeiling M m p = Some hi -> pre hi = zero.
Proof.
  unfold caretCeiling.
  destruct (M =? 0)%N; [destruct (m =? 0)%N|];
    intros (-> & _)%version_inv; reflexivity.
Qed.

(** No list of identifiers is below the identifier [0]. *)
Lemma comparePreLists_zero (p : list Identifier) :
  comparePreLists p zero <> Lt.
Proof.
  destruct p as [|x xs]; [discriminate|].
  unfold zero. cbn [comparePreLists compareIdentifierLists].
  unfold compareIdentifiers. cbn [numericValue].
  destruct (numericValue x) as [n|]; [|discriminate].
  destruct (N.compare_spec n 0); [|lia|discriminate].
  destruct xs; discriminate.
Qed.

(** No prerelease is below the lowest prerelease of its own version. *)
Lemma not_below_zero (w hi : SemVer) :
  pre hi = zero -> hasPrerelease w = true ->
  allowsPrereleaseOf w (Cmp OpLt hi) = true ->
  cmp OpLt w hi = false.
Proof.
  intros Hhi Hw Hallow. simpl in Hallow.
  apply andb_prop in Hallow as [Hallow H3].
  apply andb_prop in Hallow as [Hallow H2].
  apply andb_prop in Hallow as [_ H1].
  apply N.eqb_eq in H1, H2, H3.
  unfold cmp, compare.
  rewrite (proj2 (compareMain_eq w hi)) by auto. simpl.
  rewrite comparePre_lists, Hhi.
  pose proof (comparePreLists_zero (pre w)) as Hz.
  destruct (comparePreLists (pre w) zero); [reflexivity | congruence | reflexivity].
Qed.

Lemma testSet_caretSet (inc : bool) (lo hi w : SemVer) (b : bool) :
  testSet (caretSet inc lo hi) w b
  = Comparator_test (replaceGTE0 inc (Cmp OpGe lo)) w && cmp OpLt w hi
    && (if hasPrerelease w && negb b
        then allowsPrereleaseOf w (replaceGTE0 inc (Cmp OpGe lo))
             || allowsPrereleaseOf w (Cmp OpLt hi)
        else true).
Proof.
  unfold testSet, caretSet. cbn [forallb existsb Comparator_test].
  rewrite andb_true_r, orb_false_r. reflexivity.
Qed.

(** Without [includePrerelease], a caret range whose lower bound has no
    prerelease tag accepts no prerelease. *)
Lemma caretSet_release_only (lo hi w : SemVer) :
  pre lo = [] -> pre hi = zero ->
  testSet (caretSet false lo hi) w false = true ->
  hasPrerelease w = false.
Proof.
  intros Hlo Hhi Htest. destruct (hasPrerelease w) eqn:Hw; [|reflexivity].
  exfalso. rewrite testSet_caretSet, Hw in Htest. cbn [negb andb] in Htest.
  apply andb_prop in Htest as [Hall Hex].
  apply andb_prop in Hall as [_ Hall].
  apply orb_prop in Hex as [Hex | Hex].
  - apply replaceGTE0_allows in Hex. cbn [allowsPrereleaseOf] in Hex.
    unfold hasPrerelease in Hex. rewrite Hlo in Hex. discriminate.
  - rewrite (not_below_zero w hi Hhi Hw Hex) in Hall. discriminate.
Qed.


Section CaretFacts.

Variable Range_other : string -> bool -> option Range.

(** The caret range of a version that parses. *)
Lemma Range_caret_version (s : string) (sv : SemVer) (inc : bool) :
  Anatomy s sv -> stripVEq s = s ->
  let lopre :=
    match pre sv with
    | [] => if (major sv =? 0)%N then (if inc then zero else []) else []
    | pr => pr
    end in
  let lo := mkSemVer (major sv) (minor sv) (patch sv) lopre [] in
  Range_parse Range_other (String "^" s) inc
  = match caretCeiling (major sv) (minor sv) (patch sv) with
    | Some hi => Some [caretSet inc lo hi]
    | None => None
    end.
Proof.
  intros A Hs lopre lo.
  destruct (anatomy_xrange s sv A Hs) as (text & Hx & Hlen).
  pose proof (anatomy_plain s sv A) as Hplain.
  destruct A as [? ? ? ? ? ? _ _ _ _ _ _ (S1 & S2 & S3) _ _].
  unfold Range_parse, parseComparator. rewrite onePiece_plain, Hplain, Hx.
  unfold replaceCaret, caretCeiling, lo, lopre. simpl.
  apply Nat.leb_le in Hlen.
  destruct (pre sv) as [|i pr] eqn:Hpre.
  - destruct (major sv =? 0)%N; [destruct (minor sv =? 0)%N|];
      rewrite (version_safe _ _ _ _ S1 S2 S3); unfold between;
      match goal with
      | |- context [version ?a ?b ?c zero] =>
          destruct (version a b c zero); reflexivity
      end.
  - rewrite Hlen. rewrite (version_safe _ _ _ _ S1 S2 S3).
    destruct (major sv =? 0)%N; [destruct (minor sv =? 0)%N|];
      unfold between;
      match goal with
      | |- context [version ?a ?b ?c zero] =>
          destruct (version a b c zero); reflexivity
      end.
Qed.

End CaretFacts.

(** ** Suggestions for a baseline that is not a prerelease *)

Lemma between_inv (lo hi : option SemVer) (set : list Comparator) :
  between lo hi = Some set ->
  exists l h, lo = Some l /\ hi = Some h /\ set = [Cmp OpGe l; Cmp OpLt h].
Proof.
  destruct lo as [l|], hi as [h|]; simpl; try discriminate.
  intros [= <-]. eauto.
Qed.

(** Without [includePrerelease] the lower bound of a caret range has a
    prerelease tag only when the operand is a full version with one. *)
Lemma replaceCaret_release (x : XRange) (set : list Comparator) :
  replaceCaret x false = Some set ->
  set = [ANY]
  \/ (exists lo hi,
        set = [Cmp OpGe lo; Cmp OpLt hi] /\ pre lo = [] /\ pre hi = zero)
  \/ (exists M m p,
        xM x = XNum M /\ xm x = XNum m /\ xp x = XNum p /\ xpre x <> []
        /\ safe M = true /\ safe m = true /\ safe p = true).
Proof.
  unfold replaceCaret.
  destruct (xM x) as [M|]; [|intros [= <-]; auto].
  destruct (xm x) as [m|].
  - destruct (xp x) as [p|].
    + destruct (xpre x) as [|i pr] eqn:Hpre.
      * intros (l & h & Hl & Hh & ->)%between_inv. right. left.
        exists l, h. split; [reflexivity|]. split.
        -- destruct (M =? 0)%N; apply version_inv in Hl as (-> & _);
             reflexivity.
        -- destruct (M =? 0)%N; [destruct (m =? 0)%N|];
             apply version_inv in Hh as (-> & _); reflexivity.
      * destruct (String.length (xtext x) <=? MAX_LENGTH)%nat; [|discriminate].
        intros (l & h & Hl & _)%between_inv.
        apply version_inv in Hl as (_ & S1 & S2 & S3).
        right. right. exists M, m, p. repeat split; auto; discriminate.
    + intros H. right. left.
      destruct (M =? 0)%N; apply between_inv in H as (l & h & Hl & Hh & ->);
        exists l, h; apply version_inv in Hl as (-> & _);
        apply version_inv in Hh as (-> & _); auto.
  - intros (l & h & Hl & Hh & ->)%between_inv. right. left.
    exists l, h. apply version_inv in Hl as (-> & _).
    apply version_inv in Hh as (-> & _). auto.
Qed.

(** A full version that XRANGEPLAIN reads is one that FULL reads. *)
Lemma xrange_full_parse (s : string) (x : XRange) (M m p : N) :
  xrangePlain s = Some x ->
  xM x = XNum M -> xm x = XNum m -> xp x = XNum p ->
  safe M = true -> safe m = true -> safe p = true ->
  stripVEq s = s -> stripV s = s ->
  exists bld, parseFull s = Some (mkSemVer M m p (xpre x) bld).
Proof.
  intros Hx HM Hm Hp S1 S2 S3 Hs Hv. revert Hx.
  unfold xrangePlain, parseFull. rewrite Hs, Hv.
  destruct (cut "+" s) as [mainpre bld].
  destruct (cut "-" mainpre) as [main prl]. unfold mainVersion.
  destruct (split "." main) as [|a [|b [|c [|d l]]]].
  - destruct prl, bld; discriminate.
  - destruct prl, bld; try discriminate.
    destruct (xrangeIdentifier a); [|discriminate].
    intros [= <-]. discriminate.
  - destruct prl, bld; try discriminate.
    destruct (xrangeIdentifier a); [|discriminate].
    destruct (xrangeIdentifier b); [|discriminate].
    intros [= <-]. discriminate.
  - destruct (xrangeIdentifier a) as [xa|] eqn:Ha; [|discriminate].
    destruct (xrangeIdentifier b) as [xb|] eqn:Hb; [|discriminate].
    destruct (xrangeIdentifier c) as [xc|] eqn:Hc; [|discriminate].
    destruct (identifiers prereleaseIdentifier prl) as [pr|]; [|discriminate].
    destruct (identifiers buildIdentifier bld) as [bb|]; [|discriminate].
    intros [= <-]. simpl in HM, Hm, Hp. subst xa xb xc.
    apply xrangeIdentifier_numeric in Ha, Hb, Hc.
    rewrite Ha, Hb, Hc, S1, S2, S3. simpl. eauto.
  - destruct prl, bld; discriminate.
Qed.

Lemma testSet_any_release_only (w : SemVer) :
  testSet [ANY] w false = true -> hasPrerelease w = false.
Proof.
  unfold testSet. simpl. destruct (hasPrerelease w); [discriminate | auto].
Qed.

Lemma Range_test_single (set : list Comparator) (inc : bool) (v : string) :
  Range_test [set] inc v = true ->
  exists w, parse v = Some w /\ testSet set w inc = true.
Proof.
  unfold Range_test. destruct (parse v) as [w|]; [|discriminate].
  simpl. rewrite orb_false_r. eauto.
Qed.

Lemma hasPrerelease_false (w : SemVer) : hasPrerelease w = false -> pre w = [].
Proof. unfold hasPrerelease. destruct (pre w); [reflexivity | discriminate]. Qed.

(** The greatest version within the caret range of a baseline that is
    not a prerelease is not a prerelease. *)
Lemma caret_release_only (Range_other : string -> bool -> option Range)
  (versions : list string) (version v : string) :
  prerelease (versionClear version) = None ->
  onePiece (versionClear version) = true ->
  (String.length (versionClear version) <= MAX_LENGTH)%nat ->
  maxSatisfying Range_other versions (String "^" (versionClear version)) false
  = Some v ->
  exists w, parse v = Some w /\ pre w = [].
Proof.
  intros Hpre Hone Hlen Hmax.
  destruct (versionClear_shape version) as (_ & Htrim & HstripV & HstripVEq).
  pose proof (maxSatisfying_greatest Range_other versions
                (String "^" (versionClear version)) false) as Hg.
  rewrite Hmax in Hg. unfold Range_parse, parseComparator in Hg. rewrite Hone in Hg.
  destruct (xrangePlain (versionClear version)) as [x|] eqn:Hx;
    [|discriminate].
  destruct (replaceCaret x false) as [set|] eqn:Hset; [|discriminate].
  destruct Hg as (_ & Hok & _).
  apply Range_test_single in Hok as (w & Hw & Htest).
  exists w. split; [exact Hw|]. apply hasPrerelease_false.
  destruct (replaceCaret_release x set Hset)
    as [-> | [(lo & hi & -> & Hlo & Hhi) | (M & m & p & HM & Hm & Hp & Hne & S1 & S2 & S3)]].
  - apply testSet_any_release_only, Htest.
  - apply (caretSet_release_only lo hi w Hlo Hhi). exact Htest.
  - exfalso.
    destruct (xrange_full_parse _ x M m p Hx HM Hm Hp S1 S2 S3 HstripVEq HstripV)
      as [bld Hfull].
    unfold prerelease, parse in Hpre. rewrite Htrim, Hfull in Hpre.
    apply Nat.leb_le in Hlen. rewrite Hlen in Hpre. simpl in Hpre.
    destruct (xpre x); [congruence | discriminate].
Qed.

(** A baseline that parses is in one piece and within the length that
    the package accepts. *)
Lemma parsed_baseline_plain (version : string) (sv : SemVer) :
  parse (versionClear version) = Some sv ->
  onePiece (versionClear version) = true
  /\ (String.length (versionClear version) <= MAX_LENGTH)%nat.
Proof.
  intros H. pose proof (baseline_anatomy version sv H) as A. split.
  - rewrite onePiece_plain. eapply anatomy_plain, A.
  - destruct A. assumption.
Qed.

(** C3, amended.  Take a declared range whose baseline is not a
    prerelease version ([prerelease] returns [null] for it) and is one
    version or one partial version: it parses as a version or, more
    generally, is a text in one piece (no white space, no [|]) of at most
    256 characters.  Whatever the published versions and the protection
    setting, a version that is suggested parses and has no prerelease
    tag.  A baseline made of several comparators is another matter, see
    [comparator_list_baseline_suggests_prerelease]. *)
Theorem release_baseline_never_suggests_prerelease
  (Range_other : string -> bool -> option Range)
  (mixed : list JSON -> string -> bool -> outcome (option string))
  (packageVersions : list string) (version : string)
  (majorUpdateProtection : bool) (suggestion : string) :
  prerelease (versionClear version) = None ->
  (exists sv, parse (versionClear version) = Some sv)
  \/ (onePiece (versionClear version) = true
      /\ (String.length (versionClear version) <= MAX_LENGTH)%nat) ->
  getPackageLatestVersion Range_other mixed (strings packageVersions) version
    majorUpdateProtection
  = Return (Some suggestion) ->
  exists w, parse suggestion = Some w /\ pre w = [].
Proof.
  intros Hpre Hshape.
  assert (Hplain : onePiece (versionClear version) = true
                   /\ (String.length (versionClear version) <= MAX_LENGTH)%nat).
  { destruct Hshape as [[sv Hsv] | H]; [|exact H].
    eapply parsed_baseline_plain, Hsv. }
  destruct Hplain as [Hone Hlen].
  unfold getPackageLatestVersion, strings; rewrite allStrings_strings.
  rewrite Hpre.
  assert (Hlatest :
            maxSatisfying Range_other packageVersions ">=0" false
            = Some suggestion ->
            exists w, parse suggestion = Some w /\ pre w = []).
  { intros H. pose proof (versionLatest_greatest Range_other packageVersions false)
      as Hg. rewrite H in Hg. destruct Hg as (_ & Hok & _).
    unfold published in Hok.
    destruct (parse suggestion) as [w|]; [|discriminate].
    exists w. split; [reflexivity|]. apply hasPrerelease_false.
    destruct (hasPrerelease w); [discriminate | reflexivity]. }
  destruct majorUpdateProtection; simpl negb; cbv iota.
  - unfold caretOf. rewrite sapp_cons, sapp_nil.
    destruct (maxSatisfying Range_other packageVersions
                (String "^" (versionClear version)) false) as [vs|] eqn:Hvs.
    + destruct (isEmpty vs || String.eqb (versionClear version) vs).
      * intros [= H]. auto.
      * intros [= ->]. eapply caret_release_only; eassumption.
    + intros [= H]. auto.
  - intros [= H]. auto.
Qed.

Lemma release_baseline_never_suggests_prerelease_witness :
  exists w, parse "1.0.1" = Some w /\ pre w = [].
Proof.
  apply (release_baseline_never_suggests_prerelease (fun _ _ => None)
           (fun _ _ _ => Throw)
           ["1.0.0"; "1.0.1-alpha"; "1.0.1"; "2.0.0-rc.1"] "^1.0.0" true "1.0.1").
  - reflexivity.
  - left. eexists. reflexivity.
  - vm_compute. reflexivity.
Defined.

(** C3 as stated fails for a range of several comparators.  The baseline
    of [>1.0.0 >=1.1.0-rc.1] is [1.0.0 >=1.1.0-rc.1], which is not a
    prerelease version ([prerelease] returns [null]); with the protection
    on, the range [^1.0.0 >=1.1.0-rc.1] is built without
    [includePrerelease], and its comparator [>=1.1.0-rc.1] lets the
    prereleases of 1.1.0 in: over 1.0.0 and 1.1.0-rc.2 the suggestion is
    the prerelease 1.1.0-rc.2. *)
Lemma comparator_list_baseline_suggests_prerelease :
  versionClear ">1.0.0 >=1.1.0-rc.1" = "1.0.0 >=1.1.0-rc.1"
  /\ prerelease (versionClear ">1.0.0 >=1.1.0-rc.1") = None
  /\ getPackageLatestVersion (fun _ _ => None) (fun _ _ _ => Throw)
       (strings ["1.0.0"; "1.1.0-rc.2"]) ">1.0.0 >=1.1.0-rc.1" true
     = Return (Some "1.1.0-rc.2")
  /\ prerelease "1.1.0-rc.2" = Some [IStr "rc"; INum 2].
Proof. vm_compute. repeat split. Qed.

(** ** The release counterpart of a prerelease baseline *)

Lemma spanDigits_app (a r : string) :
  allChars isDigit a = true ->
  match r with
  | String c _ => isDigit c = false
  | EmptyString => True
  end ->
  spanDigits (a +:+ r) = (a, r).
Proof.
  intros Ha Hr. induction a as [|c a IH]; sapp.
  - destruct r as [|c r]; [reflexivity|]. simpl. rewrite Hr. reflexivity.
  - simpl in Ha |- *. apply andb_prop in Ha as [Hc Ha].
    rewrite Hc, (IH Ha). reflexivity.
Qed.

Lemma coerceScan_run (a r : string) (n : N) :
  numericIdentifier a = Some n -> safe n = true ->
  match r with
  | String c _ => isDigit c = false
  | EmptyString => True
  end ->
  coerceScan true (a +:+ r) = Some (a, r).
Proof.
  intros Ha Hsafe Hr.
  pose proof (numericIdentifier_length a n Ha Hsafe) as Hlen.
  apply numericIdentifier_digits in Ha as (Hd & He & _).
  destruct a as [|c a]; [discriminate|]. sapp. cbn [coerceScan].
  pose proof Hd as Hd'. simpl in Hd'. apply andb_prop in Hd' as [Hc _].
  rewrite Hc, <- sapp_cons, (spanDigits_app _ r Hd Hr).
  apply Nat.leb_le in Hlen. rewrite Hlen. reflexivity.
Qed.

Lemma coerceGroup_run (a r : string) (n : N) :
  numericIdentifier a = Some n -> safe n = true ->
  match r with
  | String c _ => isDigit c = false
  | EmptyString => True
  end ->
  coerceGroup (String "." (a +:+ r)) = Some (a, r).
Proof.
  intros Ha Hsafe Hr.
  pose proof (numericIdentifier_length a n Ha Hsafe) as Hlen.
  apply numericIdentifier_digits in Ha as (Hd & He & _).
  unfold coerceGroup. rewrite (spanDigits_app _ r Hd Hr), He.
  apply Nat.leb_le in Hlen. rewrite Hlen. reflexivity.
Qed.

Lemma anatomy_parse (s : string) (sv : SemVer) :
  Anatomy s sv -> trim s = s -> stripV s = s -> parse s = Some sv.
Proof.
  intros [mainpre bld prl a b c Hlen H1 H2 Ha Hb Hc (S1 & S2 & S3) Hp Hbld]
    Htrim Hv.
  unfold parse. apply Nat.leb_le in Hlen. rewrite Hlen, Htrim.
  unfold parseFull. rewrite Hv, H1, H2. unfold mainVersion.
  rewrite split_three_app.
  - rewrite Ha, Hb, Hc, S1, S2, S3, Hp, Hbld. destruct sv; reflexivity.
  - apply digits_lack; [reflexivity|].
    apply numericIdentifier_digits in Ha. tauto.
  - apply digits_lack; [reflexivity|].
    apply numericIdentifier_digits in Hb. tauto.
  - apply digits_lack; [reflexivity|].
    apply numericIdentifier_digits in Hc. tauto.
Qed.

(** Three numeric identifiers joined by dots are a version. *)
Lemma release_text (a b c : string) (M m p : N) :
  numericIdentifier a = Some M -> numericIdentifier b = Some m ->
  numericIdentifier c = Some p ->
  safe M = true -> safe m = true -> safe p = true ->
  let t := a +:+ String "." (b +:+ String "." c) in
  Anatomy t (mkSemVer M m p [] [])
  /\ trim t = t /\ stripV t = t /\ stripVEq t = t.
Proof.
  intros Ha Hb Hc S1 S2 S3 t.
  pose proof (numericIdentifier_length a M Ha S1) as La.
  pose proof (numericIdentifier_length b m Hb S2) as Lb.
  pose proof (numericIdentifier_length c p Hc S3) as Lc.
  destruct (numericIdentifier_digits _ _ Ha) as (Da & Ea & _).
  destruct (numericIdentifier_digits _ _ Hb) as (Db & _).
  destruct (numericIdentifier_digits _ _ Hc) as (Dc & _).
  assert (Hlacks : forall sep, isDigit sep = false ->
                     Ascii.eqb "." sep = false -> lacks sep t = true).
  { intros sep Hsep Hdot. unfold lacks, t.
    rewrite allChars_app. cbn [allChars]. rewrite allChars_app.
    cbn [allChars]. rewrite Hdot.
    fold (lacks sep a). fold (lacks sep b). fold (lacks sep c).
    rewrite !digits_lack by assumption. reflexivity. }
  assert (Hplain : allChars plain t = true).
  { unfold t. rewrite allChars_app. simpl. rewrite allChars_app. simpl.
    rewrite !digits_plain by assumption. reflexivity. }
  assert (Hfirst : exists c0 r, t = String c0 r /\ isDigit c0 = true).
  { unfold t. destruct a as [|c0 a']; [discriminate|]. sapp.
    simpl in Da. apply andb_prop in Da as [H0 _]. eauto. }
  split; [|split; [|split]].
  - apply (mkAnatomy t _ t None None a b c).
    + unfold t, MAX_LENGTH, MAX_SAFE_COMPONENT_LENGTH in *.
      rewrite sapp_length. cbn [String.length]. rewrite sapp_length.
      cbn [String.length]. lia.
    + apply cut_lacks, Hlacks; reflexivity.
    + apply cut_lacks, Hlacks; reflexivity.
    + exact Ha.
    + exact Hb.
    + exact Hc.
    + auto.
    + reflexivity.
    + reflexivity.
  - apply trim_plain, Hplain.
  - destruct Hfirst as (c0 & r & -> & H0).
    pose proof (char_classes c0) as (_ & _ & Hseps & _).
    destruct (Hseps H0) as (_ & _ & _ & Hv & _). unfold stripV.
    destruct (Ascii.eqb_spec c0 "v") as [->|Hne]; [discriminate|].
    destruct c0 as [[] [] [] [] [] [] [] []]; try reflexivity. congruence.
  - destruct Hfirst as (c0 & r & -> & H0).
    pose proof (char_classes c0) as (_ & _ & Hseps & _).
    destruct (Hseps H0) as (_ & _ & _ & Hv & He).
    simpl. rewrite Hv, He. reflexivity.
Qed.

(** [coerce] of a prerelease version that parses is the text of its
    [major.minor.patch], which parses as the release of the same
    numbers. *)
Lemma coerce_prerelease (s : string) (sv : SemVer) :
  Anatomy s sv -> pre sv <> [] ->
  exists t,
    coerce s = Some t
    /\ Anatomy t (mkSemVer (major sv) (minor sv) (patch sv) [] [])
    /\ trim t = t /\ stripV t = t /\ stripVEq t = t.
Proof.
  intros [mainpre bld prl a b c Hlen H1 H2 Ha Hb Hc (S1 & S2 & S3) Hp Hbld]
    Hne.
  destruct (release_text a b c _ _ _ Ha Hb Hc S1 S2 S3)
    as (At & Htrim & Hv & Hve).
  exists (a +:+ String "." (b +:+ String "." c)).
  split; [|auto].
  assert (Hs : exists rest,
             s = a +:+ String "." (b +:+ String "." (c +:+ String "-" rest))).
  { pose proof (cut_spec "-" mainpre) as C2. rewrite H2 in C2.
    destruct prl as [ptext|]; [|simpl in Hp; congruence].
    destruct C2 as [-> _].
    pose proof (cut_spec "+" s) as C1. rewrite H1 in C1.
    destruct bld as [btext|]; destruct C1 as [-> _].
    - exists (ptext +:+ String "+" btext).
      rewrite !sapp_assoc. sapp. rewrite !sapp_assoc. reflexivity.
    - exists ptext. rewrite !sapp_assoc. sapp. rewrite !sapp_assoc.
      reflexivity. }
  destruct Hs as (rest & ->). unfold coerce.
  rewrite (coerceScan_run a _ _ Ha S1) by reflexivity.
  rewrite (coerceGroup_run b _ _ Hb S2) by reflexivity.
  rewrite (coerceGroup_run c _ _ Hc S3) by reflexivity.
  sapp. rewrite (anatomy_parse _ _ At Htrim Hv). reflexivity.
Qed.

(** ** Suggestions for a prerelease baseline *)

Lemma parse_empty : parse "" = None.
Proof. reflexivity. Qed.

Lemma prerelease_parsed (s : string) (sv : SemVer) :
  parse s = Some sv ->
  prerelease s = match pre sv with [] => None | p => Some p end.
Proof. unfold prerelease. intros ->. reflexivity. Qed.

Section Graduation.

Variable Range_other : string -> bool -> option Range.
Variable mixed : list JSON -> string -> bool -> outcome (option string).
Variable packageVersions : list string.
Variable version : string.
Variable sv : SemVer.

Hypothesis Hparse : parse (versionClear version) = Some sv.
Hypothesis Hpre : pre sv <> [].

(** The release counterpart of the baseline and the two caret ranges. *)
Lemma prerelease_ranges :
  exists release,
    coerce (versionClear version) = Some release
    /\ parse release
       = Some (mkSemVer (major sv) (minor sv) (patch sv) [] [])
    /\ match caretCeiling (major sv) (minor sv) (patch sv) with
       | Some hi =>
           Range_parse Range_other (String "^" release) false
           = Some [caretSet false
                     (mkSemVer (major sv) (minor sv) (patch sv) [] []) hi]
           /\ Range_parse Range_other (String "^" (versionClear version)) true
              = Some [caretSet true
                        (mkSemVer (major sv) (minor sv) (patch sv) (pre sv) [])
                        hi]
           /\ pre hi = zero
       | None =>
           Range_parse Range_other (String "^" release) false = None
       end.
Proof.
  pose proof (baseline_anatomy version sv Hparse) as A.
  destruct (versionClear_shape version) as (_ & _ & _ & Hve).
  destruct (coerce_prerelease _ _ A Hpre) as (t & Hco & At & Ht & Hv & Hvt).
  exists t. split; [exact Hco|]. split; [apply anatomy_parse; assumption|].
  pose proof (Range_caret_version Range_other t _ false At Hvt) as Rt.
  pose proof (Range_caret_version Range_other _ sv true A Hve) as Rb.
  cbn [major minor patch pre] in Rt.
  destruct (caretCeiling (major sv) (minor sv) (patch sv)) as [hi|] eqn:Hhi.
  - split; [|split].
    + rewrite Rt. destruct (major sv =? 0)%N; reflexivity.
    + rewrite Rb. destruct (pre sv); [congruence | reflexivity].
    + eapply caretCeiling_zero, Hhi.
  - exact Rt.
Qed.


End Graduation.

(** C4. Take a declared range whose baseline parses and is a prerelease,
    with the protection enabled.  [coerce] gives the release counterpart
    of the baseline (its [major.minor.patch]).  When [maxSatisfying],
    without prereleases, finds a published version within the caret range
    of that release, and this version is greater than the baseline, it is
    the suggestion; it has no prerelease tag, whatever prereleases are
    published besides.  [^1.0.1-alpha] over 1.0.0, 1.0.1-alpha and 1.0.1
    gives 1.0.1, also when 1.0.2-beta is published as well. *)
Theorem prerelease_baseline_graduates
  (Range_other : string -> bool -> option Range)
  (mixed : list JSON -> string -> bool -> outcome (option string))
  (packageVersions : list string) (version : string) (sv : SemVer) :
  parse (versionClear version) = Some sv ->
  pre sv <> [] ->
  (exists release,
      coerce (versionClear version) = Some release
      /\ parse release
         = Some (mkSemVer (major sv) (minor sv) (patch sv) [] [])
      /\ forall versionNonPrerelease,
           maxSatisfying Range_other packageVersions (caretOf (Some release))
             false
           = Some versionNonPrerelease ->
           gt versionNonPrerelease (versionClear version) = Return true ->
           getPackageLatestVersion Range_other mixed
             (strings packageVersions) version true
           = Return (Some versionNonPrerelease)
           /\ exists w, parse versionNonPrerelease = Some w /\ pre w = []
                        /\ compare w sv = Gt)
  /\ getPackageLatestVersion Range_other mixed
       (strings ["1.0.0"; "1.0.1-alpha"; "1.0.1"])
       "^1.0.1-alpha" true
     = Return (Some "1.0.1")
  /\ getPackageLatestVersion Range_other mixed
       (strings ["1.0.0"; "1.0.1-alpha"; "1.0.1"; "1.0.2-beta"]) "^1.0.1-alpha" true
     = Return (Some "1.0.1").
Proof.
  intros Hparse Hpre. split; [|split; reflexivity].
  destruct (prerelease_ranges Range_other version sv Hparse Hpre)
    as (release & Hco & Hrel & Hranges).
  exists release. split; [exact Hco|]. split; [exact Hrel|].
  intros versionNonPrerelease Hmax' Hgt. pose proof Hmax' as Hmax.
  unfold caretOf in Hmax. rewrite sapp_cons, sapp_nil in Hmax.
  split.
  - unfold getPackageLatestVersion, strings; rewrite allStrings_strings.
    rewrite (prerelease_parsed _ _ Hparse).
    destruct (pre sv) as [|i pr] eqn:Hp; [congruence|]. simpl negb. cbv iota.
    rewrite Hco, Hmax', Hgt.
    destruct versionNonPrerelease; [|reflexivity].
    unfold gt in Hgt. rewrite parse_empty in Hgt. discriminate.
  - pose proof (maxSatisfying_greatest Range_other packageVersions
                  (String "^" release) false) as G0.
    destruct (caretCeiling (major sv) (minor sv) (patch sv)) as [hi|].
    + destruct Hranges as (R0 & _ & Hhi). rewrite R0, Hmax in G0.
      destruct G0 as (_ & Hok & _).
      apply Range_test_single in Hok as (w & Hw & Htest).
      exists w. split; [exact Hw|]. split.
      * apply hasPrerelease_false.
        eapply caretSet_release_only; [|exact Hhi|exact Htest]. reflexivity.
      * unfold gt in Hgt. rewrite Hw, Hparse in Hgt.
        destruct (compare w sv); [discriminate Hgt | discriminate Hgt | reflexivity].
    + rewrite Hranges in G0. congruence.
Qed.

Lemma prerelease_baseline_graduates_witness :
  getPackageLatestVersion (fun _ _ => None) (fun _ _ _ => Throw)
    (strings ["1.0.0"; "1.0.1-alpha"; "1.0.1"]) "^1.0.1-alpha" true
  = Return (Some "1.0.1").
Proof.
  assert (Hparse : parse (versionClear "^1.0.1-alpha")
                   = Some (mkSemVer 1 0 1 [IStr "alpha"] []))
    by reflexivity.
  destruct (prerelease_baseline_graduates (fun _ _ => None) (fun _ _ _ => Throw)
              ["1.0.0"; "1.0.1-alpha"; "1.0.1"] "^1.0.1-alpha" _ Hparse
              ltac:(discriminate)) as [(release & Hco & _ & H) _].
  vm_compute in Hco. injection Hco as <-.
  destruct (H "1.0.1" eq_refl eq_refl) as [Hres _]. exact Hres.
Defined.



(** ** The scenarios of the test suite

    The suggestions that the tests of the extension expect, evaluated on
    the model. *)

Section Scenarios.

Variable Range_other : string -> bool -> option Range.
Variable mixed : list JSON -> string -> bool -> outcome (option string).

Local Abbreviation suggest :=
  (fun l => getPackageLatestVersion Range_other mixed (strings l)).

(** "valid dependency, newer version available" *)
Example scenario_newer :
  suggest ["1.0.0"; "1.0.1"] "^1.0.0" true = Return (Some "1.0.1").
Proof. reflexivity. Qed.

(** "valid dependency, newer version available, avoid major dump" *)
Example scenario_avoid_major :
  suggest ["1.0.0"; "1.0.1"; "2.0.0"] "^1.0.0" true = Return (Some "1.0.1").
Proof. reflexivity. Qed.

(** "valid dependency, latest pre-release" *)
Example scenario_latest_prerelease :
  suggest ["1.0.0"; "1.0.1-alpha"] "^1.0.1-alpha" true
  = Return (Some "1.0.1-alpha").
Proof. reflexivity. Qed.

(** "valid dependency, newer pre-release available" *)
Example scenario_newer_prerelease :
  suggest ["1.0.0"; "1.0.1-alpha"; "1.0.2-alpha"] "^1.0.1-alpha" true
  = Return (Some "1.0.2-alpha").
Proof. reflexivity. Qed.

(** "valid dependency, upgrading to major pre-release" *)
Example scenario_major_prerelease :
  suggest ["1.0.0"; "2.0.0-alpha"; "2.0.0"] "^2.0.0-alpha" true
  = Return (Some "2.0.0").
Proof. reflexivity. Qed.

(** "valid dependency, with partial version" *)
Example scenario_partial :
  suggest ["1.0.0"] "1" true = Return (Some "1.0.0").
Proof. reflexivity. Qed.

(** "needs downgrade": the prerelease is not a candidate for [^1.0.1]. *)
Example scenario_advisory :
  suggest ["1.0.0"; "1.0.1"; "1.0.1-alpha"] "^1.0.1" true
  = Return (Some "1.0.1").
Proof. reflexivity. Qed.

End Scenarios.

(** ** What every suggestion is *)

Lemma maxSatisfying_published (Range_other : string -> bool -> option Range)
  (versions : list string) (range : string) (inc : bool) (v : string) :
  maxSatisfying Range_other versions range inc = Some v ->
  In v versions /\ exists w, parse v = Some w.
Proof.
  intros H.
  pose proof (maxSatisfying_greatest Range_other versions range inc) as G.
  rewrite H in G.
  destruct (Range_parse Range_other range inc) as [r|]; [|discriminate].
  destruct G as (Hin & Hok & _). split; [exact Hin|].
  eapply Range_test_parses, Hok.
Qed.

Lemma maxSatisfying_nil (Range_other : string -> bool -> option Range)
  (range : string) (inc : bool) :
  maxSatisfying Range_other [] range inc = None.
Proof.
  unfold maxSatisfying.
  destruct (Range_parse Range_other range inc); reflexivity.
Qed.

(** The result of [getPackageLatestVersion] is one of the three values it
    computes with [maxSatisfying]. *)
Lemma getPackageLatestVersion_cases
  (Range_other : string -> bool -> option Range)
  (mixed : list JSON -> string -> bool -> outcome (option string))
  (packageVersions : list string) (version : string) (protection : bool) :
  exists range inc,
    getPackageLatestVersion Range_other mixed
      (strings packageVersions) version protection
    = Return (maxSatisfying Range_other packageVersions range inc).
Proof.
  unfold getPackageLatestVersion, strings; rewrite allStrings_strings.
  set (b := versionClear version).
  destruct protection; simpl negb; cbv iota; [|eauto].
  assert (Hfrom : forall inc,
             exists range' inc',
               match maxSatisfying Range_other packageVersions
                       (caretOf (Some b)) inc with
               | Some vs =>
                   if isEmpty vs || String.eqb b vs
                   then Return (maxSatisfying Range_other packageVersions
                                  ">=0" inc)
                   else Return (maxSatisfying Range_other packageVersions
                                  (caretOf (Some b)) inc)
               | None =>
                   Return (maxSatisfying Range_other packageVersions ">=0" inc)
               end
               = Return (maxSatisfying Range_other packageVersions
                           range' inc')).
  { intros inc.
    destruct (maxSatisfying Range_other packageVersions (caretOf (Some b)) inc)
      as [vs|] eqn:Hvs; [|eauto].
    destruct (isEmpty vs || String.eqb b vs); [eauto|].
    exists (caretOf (Some b)), inc. rewrite Hvs. reflexivity. }
  unfold prerelease.
  destruct (parse b) as [sv|] eqn:Hb; [|apply Hfrom].
  destruct (pre sv); [apply Hfrom|].
  destruct (maxSatisfying Range_other packageVersions (caretOf (coerce b)) false)
    as [vnp|] eqn:Hvnp; [|apply Hfrom].
  destruct (isEmpty vnp); [apply Hfrom|].
  destruct (maxSatisfying_published _ _ _ _ _ Hvnp) as (_ & w & Hw).
  unfold gt. rewrite Hw, Hb.
  destruct (compare w sv); try apply Hfrom.
  exists (caretOf (coerce b)), false. rewrite Hvnp. reflexivity.
Qed.

(** X1. On an array of strings [getPackageLatestVersion] never throws,
    whatever the range, the published versions and the setting: [gt] is
    only reached with two versions that parse.  A version it suggests is
    one of the strings of the array, and it parses; for the empty array
    the suggestion is [null].  On a payload that is not an array (a
    string, a number, [null], an object) it throws. *)
Theorem suggestion_is_published
  (Range_other : string -> bool -> option Range)
  (mixed : list JSON -> string -> bool -> outcome (option string))
  (packageVersions : list string) (version : string) (protection : bool) :
  getPackageLatestVersion Range_other mixed (strings packageVersions)
    version protection
  <> Throw
  /\ (forall suggestion,
        getPackageLatestVersion Range_other mixed (strings packageVersions)
          version protection
        = Return (Some suggestion) ->
        In suggestion packageVersions
        /\ exists w, parse suggestion = Some w)
  /\ getPackageLatestVersion Range_other mixed (strings []) version protection
     = Return None
  /\ (forall payload,
        (forall items, payload <> JArray items) ->
        getPackageLatestVersion Range_other mixed payload version protection
        = Throw)
  /\ getPackageLatestVersion Range_other mixed (JString "1.0.0") version
       protection
     = Throw.
Proof.
  split; [|split; [|split; [|split]]].
  - destruct (getPackageLatestVersion_cases Range_other mixed packageVersions
                version protection) as (range & inc & ->). discriminate.
  - intros suggestion H.
    destruct (getPackageLatestVersion_cases Range_other mixed packageVersions
                version protection) as (range & inc & Hc).
    rewrite Hc in H. injection H as H.
    eapply maxSatisfying_published, H.
  - destruct (getPackageLatestVersion_cases Range_other mixed [] version
                protection) as (range & inc & ->).
    rewrite maxSatisfying_nil. reflexivity.
  - intros payload Hno. unfold getPackageLatestVersion.
    destruct payload; try reflexivity. destruct (Hno items eq_refl).
  - reflexivity.
Qed.

Lemma suggestion_is_published_witness :
  In "1.0.1" ["1.0.0"; "1.0.1"; "2.0.0"].
Proof.
  destruct (suggestion_is_published (fun _ _ => None) (fun _ _ _ => Throw)
              ["1.0.0"; "1.0.1"; "2.0.0"] "^1.0.0" true) as (_ & H & _).
  destruct (H "1.0.1" eq_refl) as [Hin _]. exact Hin.
Defined.

(** ** The protection keeps the suggestion within the caret range *)



Lemma nothing_below_zero (p : list Identifier) : comparePreLists p zero <> Lt.
Proof. apply comparePreLists_zero. Qed.






(** ** What the caches hold *)

Section CacheFacts.

Variable JSON_parse_view : string -> option JSON.
Variable JSON_parse_ls : string -> option (option PackagesInstalled).

Lemma NPM_init_inv (t : Z) : NPM_inv (NPM_init t).
Proof.
  split; [|split]; simpl.
  - intros name c H. rewrite lookup_empty in H. discriminate.
  - discriminate.
  - intros id cwd ps H. rewrite lookup_nil in H. discriminate.
Qed.

Lemma getPackageVersions_inv (name : string) (lifetime : Z) (st : NPM) :
  NPM_inv st -> NPM_inv (snd (getPackageVersions name lifetime st)).
Proof.
  intros (Hc & Hi & Hl).
  destruct (getPackageVersions_cases name lifetime st)
    as [(c & _ & _ & ->) | [_ ->]]; simpl; [exact (conj Hc (conj Hi Hl))|].
  split; [|split]; simpl; [|exact Hi|exact Hl].
  intros n c. destruct (decide (name = n)) as [<-|Hne].
  - rewrite lookup_insert_eq. intros [= <-]. simpl.
    exists Pending. split; [|discriminate].
    rewrite lookup_app_r by lia. rewrite Nat.sub_diag. reflexivity.
  - rewrite lookup_insert_ne by exact Hne. intros H.
    destruct (Hc n c H) as (ps & Hps & Hnr).
    exists ps. split; [|exact Hnr]. apply lookup_app_l_Some, Hps.
Qed.

Lemma viewCallback_inv (id : nat) (error : bool) (stdout : string)
  (st : NPM) :
  NPM_inv st -> NPM_inv (viewCallback JSON_parse_view id error stdout st).
Proof.
  intros (Hc & Hi & Hl). unfold viewCallback.
  destruct (views st !! id) as [[name [| |]]|] eqn:Hid;
    try exact (conj Hc (conj Hi Hl)).
  assert (Hlt : (id < length (views st))%nat) by (eapply lookup_lt_Some, Hid).
  destruct (if error then None else JSON_parse_view stdout) as [versions|];
    (split; [|split]; simpl; [|exact Hi|exact Hl]); intros n c H.
  - destruct (Hc n c H) as (ps & Hps & Hnr).
    destruct (decide (value c = id)) as [Heq|Hne].
    + rewrite Heq, Hid in Hps. injection Hps as <- <-.
      exists (Fulfilled versions). rewrite Heq.
      rewrite list_lookup_insert_eq by exact Hlt. split; [reflexivity | discriminate].
    + exists ps. rewrite list_lookup_insert_ne by congruence. auto.
  - apply lookup_delete_Some in H as [Hne H].
    destruct (Hc n c H) as (ps & Hps & Hnr).
    exists ps. split; [|exact Hnr].
    rewrite list_lookup_insert_ne; [exact Hps|].
    intros Heq. rewrite Heq, Hps in Hid. congruence.
Qed.

Lemma getPackagesInstalled_inv (cwd : string) (st : NPM) :
  NPM_inv st -> NPM_inv (snd (getPackagesInstalled cwd st)).
Proof.
  intros (Hc & Hi & Hl). unfold getPackagesInstalled.
  destruct (CACHE_PACKAGES_INSTALLED st) as [c|] eqn:Hcache.
  - destruct (isValid c (now st) (60 * 1000)); simpl.
    + split; [exact Hc|]. split; [|exact Hl]. rewrite Hcache. exact Hi.
    + split; [exact Hc|]. split; simpl.
      * intros c' [= <-]. simpl.
        exists cwd, Pending. rewrite lookup_app_r by lia.
        rewrite Nat.sub_diag. reflexivity.
      * intros id cwd' ps [H | [_ H]]%lookup_app_Some; [eauto|].
        destruct (id - length (lss st))%nat; [|discriminate].
        injection H as <- <-. discriminate.
  - simpl. split; [exact Hc|]. split; simpl.
    + intros c' [= <-]. simpl.
      exists cwd, Pending. rewrite lookup_app_r by lia.
      rewrite Nat.sub_diag. reflexivity.
    + intros id cwd' ps [H | [_ H]]%lookup_app_Some; [eauto|].
      destruct (id - length (lss st))%nat; [|discriminate].
      injection H as <- <-. discriminate.
Qed.

Lemma lsCallback_inv (id : nat) (error : bool) (stdout : string) (st : NPM) :
  NPM_inv st -> NPM_inv (lsCallback JSON_parse_ls id error stdout st).
Proof.
  intros (Hc & Hi & Hl). unfold lsCallback.
  destruct (lss st !! id) as [[cwd [| |]]|] eqn:Hid;
    try exact (conj Hc (conj Hi Hl)).
  assert (Hlt : (id < length (lss st))%nat) by (eapply lookup_lt_Some, Hid).
  split; [exact Hc|]. split; simpl.
  - intros c H. destruct (Hi c H) as (cwd' & ps & Hps).
    destruct (decide (value c = id)) as [Heq|Hne].
    + rewrite Heq, list_lookup_insert_eq by exact Hlt. eauto.
    + rewrite list_lookup_insert_ne by congruence. eauto.
  - intros id' cwd' ps. destruct (decide (id = id')) as [<-|Hne].
    + rewrite list_lookup_insert_eq by exact Hlt. intros [= <- <-].
      discriminate.
    + rewrite list_lookup_insert_ne by exact Hne. apply Hl.
Qed.

Lemma NPM_step_inv (st : NPM) (e : NPMEvent) :
  NPM_inv st -> NPM_inv (NPM_step JSON_parse_view JSON_parse_ls st e).
Proof.
  intros H. destruct e as [n l | cwd | id er out | id er out | dt];
    [rewrite NPM_step_call|..]; simpl.
  - destruct (lookupThrows n st); [exact H|].
    apply getPackageVersions_inv, H.
  - apply getPackagesInstalled_inv, H.
  - apply viewCallback_inv, H.
  - apply lsCallback_inv, H.
  - exact H.
Qed.

Lemma NPM_run_inv (st : NPM) (es : list NPMEvent) :
  NPM_inv st -> NPM_inv (NPM_run JSON_parse_view JSON_parse_ls st es).
Proof.
  revert st. induction es as [|e es IH]; intros st H; simpl; [exact H|].
  apply IH, NPM_step_inv, H.
Qed.

End CacheFacts.

(** A name that is a property of [Object.prototype] never gets an entry
    or a query. *)
Lemma inherited_step
  (JSON_parse_view : string -> option JSON)
  (JSON_parse_ls : string -> option (option PackagesInstalled))
  (name : string) (st : NPM) (e : NPMEvent) :
  inherited name = true ->
  CACHE_PACKAGES st !! name = None /\ queriesFor name st = 0%nat ->
  CACHE_PACKAGES (NPM_step JSON_parse_view JSON_parse_ls st e) !! name = None
  /\ queriesFor name (NPM_step JSON_parse_view JSON_parse_ls st e) = 0%nat.
Proof.
  intros Hin [Hnone Hq]. destruct (callsFor name e) eqn:He.
  - destruct e as [n l | | | |]; try discriminate.
    simpl in He. apply bool_decide_eq_true in He. subst n.
    rewrite NPM_step_call. unfold lookupThrows. rewrite Hnone, Hin. auto.
  - split.
    + destruct (CACHE_PACKAGES
                  (NPM_step JSON_parse_view JSON_parse_ls st e) !! name)
        as [c|] eqn:Hc; [|reflexivity].
      apply cache_entry_step in Hc; [congruence | exact He].
    + rewrite queriesFor_step by exact He. exact Hq.
Qed.

Lemma inherited_run
  (JSON_parse_view : string -> option JSON)
  (JSON_parse_ls : string -> option (option PackagesInstalled))
  (name : string) (es : list NPMEvent) (st : NPM) :
  inherited name = true ->
  CACHE_PACKAGES st !! name = None /\ queriesFor name st = 0%nat ->
  CACHE_PACKAGES (NPM_run JSON_parse_view JSON_parse_ls st es) !! name = None
  /\ queriesFor name (NPM_run JSON_parse_view JSON_parse_ls st es) = 0%nat.
Proof.
  intros Hin. revert st. induction es as [|e es IH]; intros st H; simpl;
    [exact H|].
  apply IH, inherited_step; assumption.
Qed.

(** X3. After any sequence of calls, completions, failures and clock
    changes since the module was loaded, the promise that
    [getPackageVersions] returns for a name that is not a property of
    [Object.prototype] is the promise of an [npm view] for that name and
    is not a rejected one: a failed query is never served from the cache.
    For a name that is such a property, there is no entry and there has
    been no query, and the call throws, so that its promise is rejected
    without a query.  The promises of [getPackagesInstalled] are never
    rejected at all. *)
Theorem cache_never_serves_failure
  (JSON_parse_view : string -> option JSON)
  (JSON_parse_ls : string -> option (option PackagesInstalled))
  (t : Z) (es : list NPMEvent) (name cwd : string) (lifetime : Z) :
  let st := NPM_run JSON_parse_view JSON_parse_ls (NPM_init t) es in
  let '(p, st') := getPackageVersions name lifetime st in
  let '(q, st'') := getPackagesInstalled cwd st in
  (inherited name = false ->
   callVersions name lifetime st = Return (p, st')
   /\ exists ps, views st' !! p = Some (mkViewExec name ps) /\ ps <> Rejected)
  /\ (inherited name = true ->
      CACHE_PACKAGES st !! name = None /\ queriesFor name st = 0%nat
      /\ callVersions name lifetime st = Throw)
  /\ (exists dir ps, lss st'' !! q = Some (mkLsExec dir ps) /\ ps <> Rejected).
Proof.
  intros st.
  pose proof (NPM_run_inv JSON_parse_view JSON_parse_ls _ es (NPM_init_inv t))
    as Hinv. fold st in Hinv.
  destruct (getPackageVersions name lifetime st) as [p st'] eqn:Hcall.
  destruct (getPackagesInstalled cwd st) as [q st''] eqn:Hls.
  split; [|split].
  - intros Hown. split.
    { unfold callVersions, lookupThrows. rewrite Hown, Hcall.
      destruct (CACHE_PACKAGES st !! name); reflexivity. }
    destruct (getPackageVersions_cases name lifetime st)
      as [(c & Hc & _ & Heq) | [_ Heq]]; rewrite Heq in Hcall;
      injection Hcall as <- <-.
    + destruct Hinv as (H & _). destruct (H name c Hc) as (ps & Hps). eauto.
    + simpl. exists Pending. rewrite lookup_app_r by lia.
      rewrite Nat.sub_diag. split; [reflexivity | discriminate].
  - intros Hin.
    destruct (inherited_run JSON_parse_view JSON_parse_ls name es (NPM_init t)
                Hin) as [Hnone Hq].
    { split; [apply lookup_empty | reflexivity]. }
    fold st in Hnone, Hq. split; [exact Hnone|]. split; [exact Hq|].
    unfold callVersions, lookupThrows. rewrite Hnone, Hin. reflexivity.
  - pose proof (getPackagesInstalled_inv cwd st Hinv) as (_ & Hi & Hl).
    rewrite Hls in Hi, Hl. simpl in Hi, Hl.
    assert (Hentry : exists c, CACHE_PACKAGES_INSTALLED st'' = Some c
                               /\ value c = q).
    { unfold getPackagesInstalled in Hls.
      destruct (CACHE_PACKAGES_INSTALLED st) as [c|] eqn:Hc.
      - destruct (isValid c (now st) (60 * 1000));
          injection Hls as <- <-; simpl; eauto.
      - injection Hls as <- <-. simpl. eauto. }
    destruct Hentry as (c & Hc & <-).
    destruct (Hi c Hc) as (dir & ps & Hps). eauto.
Qed.

Lemma fresh_query (name : string) (lifetime : Z) (st : NPM) :
  (forall c, CACHE_PACKAGES st !! name = Some c ->
             (lifetime <= now st - createdAt c)%Z) ->
  getPackageVersions name lifetime st
  = (length (views st),
     mkNPM (now st)
       (<[name := mkCache (length (views st)) (now st)]> (CACHE_PACKAGES st))
       (CACHE_PACKAGES_INSTALLED st)
       (views st ++ [mkViewExec name Pending]) (lss st)).
Proof.
  intros Hstale.
  destruct (getPackageVersions_cases name lifetime st)
    as [(c & Hc & Hv & _) | [_ Heq]]; [|exact Heq].
  specialize (Hstale c Hc). unfold isValid in Hv. apply Z.ltb_lt in Hv. lia.
Qed.

(** X4. An entry that has outlived the lifetime is not used: after any
    sequence of events, a call of [getPackageVersions] for a name whose
    entry is as old as the lifetime or older starts a new query, returns
    its promise (not the promise of the entry) and puts it in the cache
    with the current time; the entries of other names stay. *)
Theorem stale_entry_is_replaced
  (JSON_parse_view : string -> option JSON)
  (JSON_parse_ls : string -> option (option PackagesInstalled))
  (t : Z) (es : list NPMEvent) (name : string) (lifetime : Z)
  (c : Cache nat) :
  let st := NPM_run JSON_parse_view JSON_parse_ls (NPM_init t) es in
  CACHE_PACKAGES st !! name = Some c ->
  (lifetime <= now st - createdAt c)%Z ->
  let '(p, st') := getPackageVersions name lifetime st in
  p <> value c
  /\ views st' = views st ++ [mkViewExec name Pending]
  /\ views st' !! p = Some (mkViewExec name Pending)
  /\ CACHE_PACKAGES st' !! name = Some (mkCache p (now st))
  /\ (forall other, other <> name ->
        CACHE_PACKAGES st' !! other = CACHE_PACKAGES st !! other).
Proof.
  intros st Hc Hold.
  pose proof (NPM_run_inv JSON_parse_view JSON_parse_ls _ es (NPM_init_inv t))
    as (Hinv & _). fold st in Hinv.
  rewrite fresh_query by (intros c' Hc'; congruence).
  destruct (Hinv name c Hc) as (ps & Hps & _).
  apply lookup_lt_Some in Hps. simpl.
  split; [lia|]. split; [reflexivity|]. split.
  - rewrite lookup_app_r by lia. rewrite Nat.sub_diag. reflexivity.
  - split; [apply lookup_insert_eq|].
    intros other Hne. apply lookup_insert_ne. congruence.
Qed.

Lemma stale_entry_is_replaced_witness :
  let st := NPM_run (fun _ => None) (fun _ => None) (NPM_init 0)
              [CallVersions "left-pad" 1000; Tick 1000] in
  fst (getPackageVersions "left-pad" 1000 st) <> 0%nat.
Proof.
  pose proof (stale_entry_is_replaced (fun _ => None) (fun _ => None) 0
                [CallVersions "left-pad" 1000; Tick 1000] "left-pad" 1000
                (mkCache 0%nat 0) eq_refl ltac:(vm_compute; discriminate)) as H.
  cbv zeta in H |- *. revert H.
  destruct (getPackageVersions "left-pad" 1000 _) as [p st'].
  intros [H _]. exact H.
Defined.

Lemma NPM_past_step
  (JSON_parse_view : string -> option JSON)
  (JSON_parse_ls : string -> option (option PackagesInstalled))
  (st : NPM) (e : NPMEvent) :
  forward [e] = true -> NPM_past st ->
  NPM_past (NPM_step JSON_parse_view JSON_parse_ls st e).
Proof.
  intros He Hst. destruct e as [n l | cwd | id er out | id er out | dt];
    [rewrite NPM_step_call|..]; simpl in *.
  - destruct (lookupThrows n st); [exact Hst|].
    destruct (getPackageVersions_cases n l st) as [(c & _ & _ & ->) | [_ ->]];
      [exact Hst|]. intros name c. simpl.
    destruct (decide (n = name)) as [<-|Hne].
    + rewrite lookup_insert_eq. intros [= <-]. simpl. lia.
    + rewrite lookup_insert_ne by exact Hne. apply Hst.
  - unfold getPackagesInstalled.
    destruct (CACHE_PACKAGES_INSTALLED st) as [c|];
      [destruct (isValid c (now st) (60 * 1000))|]; exact Hst.
  - unfold viewCallback. destruct (views st !! id) as [[name [| |]]|];
      try exact Hst.
    destruct (if er then None else JSON_parse_view out); [exact Hst|].
    intros n c. simpl. intros [_ H]%lookup_delete_Some. exact (Hst n c H).
  - unfold lsCallback. destruct (lss st !! id) as [[cwd [| |]]|]; exact Hst.
  - rewrite andb_true_r in He. apply Z.leb_le in He.
    intros n c H. specialize (Hst n c H). simpl. lia.
Qed.

Lemma NPM_past_run
  (JSON_parse_view : string -> option JSON)
  (JSON_parse_ls : string -> option (option PackagesInstalled))
  (es : list NPMEvent) (st : NPM) :
  forward es = true -> NPM_past st ->
  NPM_past (NPM_run JSON_parse_view JSON_parse_ls st es).
Proof.
  revert st. induction es as [|e es IH]; intros st; simpl; [auto|].
  intros [He Hes]%andb_prop Hst. apply IH; [exact Hes|].
  apply NPM_past_step; [|exact Hst]. simpl. rewrite He. reflexivity.
Qed.

(** X5. With a lifetime of zero (or below) nothing is served from the
    cache, as long as the clock is not set back: after any sequence of
    events in which [Date.now()] never decreases, every call of
    [getPackageVersions] for a name that is not a property of
    [Object.prototype] starts a query of its own.  The condition on the
    clock is needed: an entry made one millisecond in the future is
    served at lifetime zero. *)
Theorem zero_lifetime_always_queries
  (JSON_parse_view : string -> option JSON)
  (JSON_parse_ls : string -> option (option PackagesInstalled))
  (t : Z) (es : list NPMEvent) (name : string) (lifetime : Z) :
  let st := NPM_run JSON_parse_view JSON_parse_ls (NPM_init t) es in
  forward es = true ->
  inherited name = false ->
  (lifetime <= 0)%Z ->
  (let '(p, st') := getPackageVersions name lifetime st in
   callVersions name lifetime st = Return (p, st')
   /\ p = length (views st)
   /\ views st' = views st ++ [mkViewExec name Pending]
   /\ queriesFor name st' = S (queriesFor name st))
  /\ (let back := NPM_run JSON_parse_view JSON_parse_ls (NPM_init t)
                    [CallVersions name 0; Tick (-1)] in
      getPackageVersions name 0 back = (0%nat, back)).
Proof.
  intros st Hforward Hown Hzero. split.
  - assert (Hpast : NPM_past st).
    { apply NPM_past_run; [exact Hforward|].
      intros n c H. simpl in H. rewrite lookup_empty in H. discriminate. }
    assert (Hcall : callVersions name lifetime st
                    = Return (getPackageVersions name lifetime st)).
    { unfold callVersions, lookupThrows. rewrite Hown.
      destruct (CACHE_PACKAGES st !! name); reflexivity. }
    rewrite Hcall, fresh_query.
    + split; [reflexivity|]. split; [reflexivity|]. split; [reflexivity|].
      unfold queriesFor. simpl. rewrite map_app, filter_app, length_app. simpl.
      rewrite filter_cons_True, filter_nil by reflexivity. simpl. lia.
    + intros c Hc. specialize (Hpast name c Hc). lia.
  - cbv zeta. unfold NPM_run. cbn [fold_left]. rewrite NPM_step_call.
    replace (lookupThrows name (NPM_init t)) with false
      by (unfold lookupThrows; simpl; rewrite lookup_empty, Hown;
          reflexivity).
    cbn [NPM_step].
    replace (getPackageVersions name 0 (NPM_init t))
      with (0%nat, mkNPM t (<[name := mkCache 0%nat t]> ∅) None
                     [mkViewExec name Pending] [])
      by (unfold getPackageVersions; simpl; rewrite lookup_empty; reflexivity).
    unfold getPackageVersions. simpl.
    rewrite lookup_insert_eq. unfold isValid. simpl.
    replace (t + -1 - t <? 0)%Z with true by (symmetry; apply Z.ltb_lt; lia).
    reflexivity.
Qed.

Lemma zero_lifetime_always_queries_witness :
  let st := NPM_run (fun _ => None) (fun _ => None) (NPM_init 0)
              [CallVersions "left-pad" 0; Tick 5] in
  queriesFor "left-pad" (snd (getPackageVersions "left-pad" 0 st)) = 2%nat.
Proof.
  destruct (zero_lifetime_always_queries (fun _ => None) (fun _ => None) 0
              [CallVersions "left-pad" 0; Tick 5] "left-pad" 0
              eq_refl eq_refl ltac:(lia)) as [H _].
  cbv zeta in H |- *. revert H.
  destruct (getPackageVersions "left-pad" 0 _) as [p st'].
  intros (_ & _ & _ & H). exact H.
Defined.

Lemma installed_entry_step
  (JSON_parse_view : string -> option JSON)
  (JSON_parse_ls : string -> option (option PackagesInstalled))
  (st : NPM) (e : NPMEvent) :
  callsInstalled e = false ->
  CACHE_PACKAGES_INSTALLED (NPM_step JSON_parse_view JSON_parse_ls st e)
  = CACHE_PACKAGES_INSTALLED st.
Proof.
  intros He. destruct e as [n l | cwd | id er out | id er out | dt];
    [rewrite NPM_step_call|..]; simpl in *; try discriminate.
  - destruct (lookupThrows n st); [reflexivity|].
    destruct (getPackageVersions_cases n l st) as [(c & _ & _ & ->) | [_ ->]];
      reflexivity.
  - unfold viewCallback. destruct (views st !! id) as [[name [| |]]|];
      try reflexivity.
    destruct (if er then None else JSON_parse_view out); reflexivity.
  - unfold lsCallback. destruct (lss st !! id) as [[cwd [| |]]|];
      reflexivity.
  - reflexivity.
Qed.

Lemma installed_entry_run
  (JSON_parse_view : string -> option JSON)
  (JSON_parse_ls : string -> option (option PackagesInstalled))
  (es : list NPMEvent) (st : NPM) :
  forallb (fun e => negb (callsInstalled e)) es = true ->
  CACHE_PACKAGES_INSTALLED (NPM_run JSON_parse_view JSON_parse_ls st es)
  = CACHE_PACKAGES_INSTALLED st.
Proof.
  revert st. induction es as [|e es IH]; intros st; simpl; [reflexivity|].
  intros [He Hes]%andb_prop. apply negb_true_iff in He.
  unfold NPM_run in IH |- *. simpl. rewrite (IH _ Hes).
  apply installed_entry_step, He.
Qed.

(** X6. The installed packages are one snapshot for the whole process,
    whatever directory is asked for and whatever [npm ls] answered.  Take
    two calls of [getPackagesInstalled], with any events in between other
    than calls of it.  While the entry that the first call left is
    younger than 60 s, the second call returns the promise of the first
    and starts nothing, also for another directory; from 60 s on it
    starts a new [npm ls] in the directory it is called for. *)
Theorem installed_snapshot_per_minute
  (JSON_parse_view : string -> option JSON)
  (JSON_parse_ls : string -> option (option PackagesInstalled))
  (cwd cwd' : string) (st : NPM) (es : list NPMEvent) :
  let first := getPackagesInstalled cwd st in
  let st2 := NPM_run JSON_parse_view JSON_parse_ls (snd first) es in
  let second := getPackagesInstalled cwd' st2 in
  forallb (fun e => negb (callsInstalled e)) es = true ->
  exists c,
    CACHE_PACKAGES_INSTALLED (snd first) = Some c
    /\ value c = fst first
    /\ ((now st2 - createdAt c < 60 * 1000)%Z -> second = (fst first, st2))
    /\ ((60 * 1000 <= now st2 - createdAt c)%Z ->
        fst second = length (lss st2)
        /\ lss (snd second) = lss st2 ++ [mkLsExec cwd' Pending]
        /\ CACHE_PACKAGES_INSTALLED (snd second)
           = Some (mkCache (length (lss st2)) (now st2))).
Proof.
  intros first st2 second Hes.
  assert (Hentry : exists c, CACHE_PACKAGES_INSTALLED (snd first) = Some c
                             /\ value c = fst first).
  { unfold first, getPackagesInstalled.
    destruct (CACHE_PACKAGES_INSTALLED st) as [c|] eqn:Hc.
    - destruct (isValid c (now st) (60 * 1000)); simpl; eauto.
    - simpl. eauto. }
  destruct Hentry as (c & Hc & Hv). exists c.
  split; [exact Hc|]. split; [exact Hv|].
  pose proof (installed_entry_run JSON_parse_view JSON_parse_ls es (snd first)
                Hes) as Hkeep.
  fold st2 in Hkeep. rewrite Hc in Hkeep.
  unfold second, getPackagesInstalled. rewrite Hkeep. unfold isValid. split.
  - intros Hyoung. apply Z.ltb_lt in Hyoung. rewrite Hyoung, Hv. reflexivity.
  - intros Hold. apply Z.ltb_ge in Hold. rewrite Hold. simpl. auto.
Qed.

Lemma installed_snapshot_per_minute_witness :
  let first := getPackagesInstalled "/a" (NPM_init 0) in
  let st2 := NPM_run (fun _ => None) (fun _ => None) (snd first)
               [LsDone 0 true ""; Tick 59999] in
  getPackagesInstalled "/b" st2 = (fst first, st2).
Proof.
  destruct (installed_snapshot_per_minute (fun _ => None) (fun _ => None)
              "/a" "/b" (NPM_init 0) [LsDone 0 true ""; Tick 59999] eq_refl)
    as (c & Hc & _ & H & _).
  vm_compute in Hc. injection Hc as <-. apply H. vm_compute. reflexivity.
Defined.

(** ** More on the debounced trigger *)

Section LazyLog.

Context {A : Type}.
Variable callback : list A -> A -> list A.
Variable wait : N.

Lemma activations_snoc (es : list (LazyEvent A)) (e : LazyEvent A) :
  activations (es ++ [e])
  = activations es ++ match e with Activate args => [args] | _ => [] end.
Proof.
  unfold activations. rewrite omap_app. destruct e; reflexivity.
Qed.

Lemma head_app_nonempty (l k : list A) : l <> [] -> head (l ++ k) = head l.
Proof. destruct l; [congruence | reflexivity]. Qed.

Lemma head_nonempty (l k : list A) : head l = head k -> l <> [] -> k <> [].
Proof. destruct l, k; simpl; congruence. Qed.

Lemma last_sublist (calls : list A) (x : A) :
  last calls = Some x -> [x] `sublist_of` calls.
Proof.
  destruct calls as [|c calls] using rev_ind; [discriminate|].
  rewrite last_snoc. intros [= ->]. apply sublist_inserts_l. reflexivity.
Qed.

Lemma last_nil (calls : list A) : last calls = None -> calls = [].
Proof.
  destruct calls as [|c calls] using rev_ind; [reflexivity|].
  rewrite last_snoc. discriminate.
Qed.

Lemma last_app_Some (l calls : list A) (x : A) :
  last calls = Some x -> last (l ++ calls) = Some x.
Proof.
  destruct calls as [|c calls] using rev_ind; [discriminate|].
  rewrite last_snoc. intros [= ->]. rewrite app_assoc. apply last_snoc.
Qed.

(** The callback starts with [args], which was next in line. *)
Lemma Lazy_log_invoke (args : A) (st : Lazy A) :
  waitTimers st = [] ->
  invoked st ++ [args]
    ++ match argsNext st with Some next => [next] | None => [] end
    `sublist_of` called st ->
  head (invoked st ++ [args]) = head (called st) ->
  Lazy_log (invoke callback args st).
Proof.
  intros Hw Hsub Hhead.
  assert (Hserved : invoked st ++ [args] `sublist_of` called st).
  { etransitivity; [|exact Hsub]. rewrite app_assoc.
    apply sublist_inserts_r. reflexivity. }
  assert (Hcalled : called st <> []).
  { eapply head_nonempty; [exact Hhead|]. destruct (invoked st); discriminate. }
  unfold Lazy_log, invoke, scheduled. simpl. rewrite Hw. simpl.
  rewrite app_nil_r. split; [|split].
  - destruct (last (callback (invoked st) args)) as [x|] eqn:Hl.
    + apply sublist_app; [exact Hserved | apply last_sublist, Hl].
    + rewrite (last_nil _ Hl), app_nil_r, <- app_assoc. exact Hsub.
  - rewrite (head_app_nonempty (called st)) by exact Hcalled. exact Hhead.
  - intros _. destruct (invoked st); discriminate.
Qed.

Lemma Lazy_last_invoke (args : A) (st : Lazy A) :
  waitTimers st = [] ->
  last (invoked st ++ [args]
          ++ match argsNext st with Some next => [next] | None => [] end)
  = last (called st) ->
  Lazy_last (invoke callback args st).
Proof.
  intros Hw Hlast. unfold Lazy_last, invoke, scheduled. simpl.
  rewrite Hw. simpl.
  destruct (last (callback (invoked st) args)) as [x|] eqn:Hl.
  - rewrite last_snoc. symmetry. apply last_app_Some, Hl.
  - rewrite (last_nil _ Hl), app_nil_r, <- app_assoc. exact Hlast.
Qed.

Lemma idle_heads (st : Lazy A) (args : A) :
  invoked st `sublist_of` called st ->
  head (invoked st) = head (called st) ->
  head (invoked st ++ [args]) = head (called st ++ [args]).
Proof.
  intros Hsub Hhead. destruct (called st) as [|a0 acts'].
  - apply sublist_nil_r in Hsub. rewrite Hsub. reflexivity.
  - destruct (invoked st) as [|i0 inv']; [discriminate Hhead|].
    simpl in *. exact Hhead.
Qed.

Lemma waitTimers_one (st : Lazy A) (i : nat) (x : A) :
  Lazy_inv st -> waitTimers st !! i = Some x ->
  waitTimers st = [x] /\ i = 0%nat.
Proof.
  intros [_ Hone] Hi.
  destruct (waitTimers st) as [|y [|z l]]; simpl in *; [discriminate | | lia].
  destruct i; simpl in Hi; [|discriminate].
  injection Hi as ->. auto.
Qed.

Lemma delay_pending (st : Lazy A) (n : nat) :
  Lazy_inv st -> delayTimers st = S n ->
  waitTimers st = [] /\ isRunning st = true.
Proof.
  intros [Hidle Hone] Hd. split.
  - apply length_zero_iff_nil. lia.
  - destruct (isRunning st); [reflexivity|].
    destruct (Hidle eq_refl) as (_ & _ & _ & H0). lia.
Qed.

Lemma Lazy_log_step (st : Lazy A) (e : LazyEvent A) :
  Lazy_inv st -> Lazy_log st -> Lazy_log (Lazy_step callback wait st e).
Proof.
  intros Hinv Hlog. pose proof Hinv as [Hidle Hone].
  pose proof Hlog as (Hsub & Hhead & Hrun).
  destruct e as [args | i | i fulfilled |]; simpl.
  - unfold activate, start. simpl.
    destruct (isRunning st) eqn:Hr; simpl.
    + specialize (Hrun eq_refl).
      pose proof (head_nonempty _ _ Hhead Hrun) as Hcalled.
      unfold Lazy_log, scheduled in *. simpl.
      split; [|split].
      * rewrite !app_assoc. apply sublist_app; [|reflexivity].
        etransitivity; [|exact Hsub].
        rewrite !app_assoc. apply sublist_inserts_r. reflexivity.
      * rewrite (head_app_nonempty (called st)) by exact Hcalled.
        exact Hhead.
      * intros _. exact Hrun.
    + destruct (Hidle eq_refl) as (Ha & Hw & _ & _).
      unfold scheduled in Hsub. rewrite Ha, Hw in Hsub.
      rewrite Hw in Hhead. rewrite !app_nil_r in Hsub, Hhead.
      destruct (wait =? 0)%N.
      * apply Lazy_log_invoke; simpl; [exact Hw | |].
        -- rewrite Ha. apply sublist_app; [exact Hsub | reflexivity].
        -- apply idle_heads; assumption.
      * unfold Lazy_log, scheduled. simpl. rewrite Ha, Hw. simpl.
        rewrite ?app_nil_r. split; [|split].
        -- apply sublist_app; [exact Hsub | reflexivity].
        -- apply idle_heads; assumption.
        -- intros _. destruct (invoked st); discriminate.
  - unfold waitFires. destruct (waitTimers st !! i) as [x|] eqn:Hi;
      [|exact Hlog].
    destruct (waitTimers_one st i x Hinv Hi) as [Hw ->].
    unfold scheduled in Hsub. rewrite Hw in Hsub, Hhead.
    apply Lazy_log_invoke; simpl; rewrite ?Hw; [reflexivity | exact Hsub |].
    exact Hhead.
  - unfold settles. destruct (inFlight st !! i); [|exact Hlog].
    exact Hlog.
  - unfold delayFires. destruct (delayTimers st) as [|n] eqn:Hd;
      [exact Hlog|].
    destruct (delay_pending st n Hinv Hd) as [Hw Hr].
    specialize (Hrun Hr). rewrite Hw, app_nil_r in Hrun.
    unfold scheduled in Hsub. rewrite Hw in Hsub, Hhead.
    simpl in Hsub. rewrite app_nil_r in Hhead.
    pose proof (head_nonempty _ _ Hhead Hrun) as Hcalled.
    destruct (argsNext st) as [args|] eqn:Ha.
    + unfold start, invoke. simpl.
      destruct (wait =? 0)%N; unfold Lazy_log, scheduled; simpl;
        rewrite ?Hw, ?app_nil_r; simpl; rewrite ?app_nil_r;
        (split; [|split]).
      * apply sublist_inserts_r. exact Hsub.
      * rewrite !head_app_nonempty by assumption. exact Hhead.
      * intros _. destruct (invoked st); discriminate.
      * exact Hsub.
      * rewrite head_app_nonempty by assumption. exact Hhead.
      * intros _. destruct (invoked st); discriminate.
    + unfold Lazy_log, scheduled. simpl. rewrite ?Hw, ?Ha. simpl.
      rewrite ?app_nil_r. rewrite ?app_nil_r in Hsub.
      split; [exact Hsub|]. split; [exact Hhead | discriminate].
Qed.

Lemma Lazy_run_log (es : list (LazyEvent A)) :
  Lazy_log (Lazy_run callback wait es).
Proof.
  induction es as [|e es IH] using rev_ind.
  - repeat split; simpl; [reflexivity | discriminate].
  - rewrite Lazy_run_snoc.
    apply Lazy_log_step; [apply Lazy_run_inv | exact IH].
Qed.

Lemma Lazy_last_step (st : Lazy A) (e : LazyEvent A) :
  (wait <> 0)%N \/ silent callback ->
  Lazy_inv st -> Lazy_last st -> Lazy_last (Lazy_step callback wait st e).
Proof.
  intros Hcond Hinv Hlast. pose proof Hinv as [Hidle Hone].
  unfold Lazy_last in Hlast.
  destruct e as [args | i | i fulfilled |]; simpl.
  - unfold activate, start. simpl.
    destruct (isRunning st) eqn:Hr; simpl.
    + unfold Lazy_last, scheduled. simpl.
      rewrite !app_assoc, !last_snoc. reflexivity.
    + destruct (Hidle eq_refl) as (Ha & Hw & _ & _).
      destruct (wait =? 0)%N.
      * apply Lazy_last_invoke; simpl; [exact Hw|].
        rewrite Ha, ?app_nil_r, !last_snoc. reflexivity.
      * unfold Lazy_last, scheduled. simpl. rewrite Ha, Hw. simpl.
        rewrite ?app_nil_r, !last_snoc. reflexivity.
  - unfold waitFires. destruct (waitTimers st !! i) as [x|] eqn:Hi;
      [|exact Hlast].
    destruct (waitTimers_one st i x Hinv Hi) as [Hw ->].
    unfold scheduled in Hlast. rewrite Hw in Hlast.
    apply Lazy_last_invoke; simpl; rewrite ?Hw; [reflexivity | exact Hlast].
  - unfold settles. destruct (inFlight st !! i); [|exact Hlast].
    exact Hlast.
  - unfold delayFires. destruct (delayTimers st) as [|n] eqn:Hd;
      [exact Hlast|].
    destruct (delay_pending st n Hinv Hd) as [Hw Hr].
    unfold scheduled in Hlast. rewrite Hw in Hlast. simpl in Hlast.
    destruct (argsNext st) as [args|] eqn:Ha.
    + unfold start, invoke. simpl.
      destruct (N.eqb_spec wait 0) as [Hz|Hnz]; unfold Lazy_last, scheduled;
        simpl; rewrite ?Hw, ?app_nil_r; simpl; rewrite ?app_nil_r.
      * destruct Hcond as [Hne|Hsilent]; [congruence|].
        rewrite Hsilent, app_nil_r. exact Hlast.
      * exact Hlast.
    + unfold Lazy_last, scheduled. simpl. rewrite ?Hw, ?Ha. exact Hlast.
Qed.

Lemma Lazy_run_last (es : list (LazyEvent A)) :
  (wait <> 0)%N \/ silent callback ->
  Lazy_last (Lazy_run callback wait es).
Proof.
  intros Hcond. induction es as [|e es IH] using rev_ind; [reflexivity|].
  rewrite Lazy_run_snoc.
  apply Lazy_last_step; [exact Hcond | apply Lazy_run_inv | exact IH].
Qed.

(** What a step adds to the log of the calls: the call itself, and the
    calls the callback makes where the step starts it. *)
Lemma called_step (st : Lazy A) (e : LazyEvent A) :
  Lazy_log st ->
  exists extra,
    called (Lazy_step callback wait st e)
    = called st ++ match e with Activate args => [args] | _ => [] end ++ extra
    /\ (silent callback -> extra = [])
    /\ (called st = [] ->
        match e with Activate _ => False | _ => True end -> extra = []).
Proof.
  intros (Hsub & _ & _). unfold scheduled in Hsub.
  destruct e as [args | i | i fulfilled |]; simpl.
  - unfold activate, start, invoke. simpl.
    destruct (isRunning st); simpl; [|destruct (wait =? 0)%N; simpl].
    + exists []. split; [reflexivity|]. split; [auto | contradiction].
    + exists (callback (invoked st) args). rewrite <- app_assoc.
      split; [reflexivity|]. split; [auto | contradiction].
    + exists []. split; [reflexivity|]. split; [auto | contradiction].
  - unfold waitFires, invoke.
    destruct (waitTimers st !! i) as [x|] eqn:Hi; simpl.
    + exists (callback (invoked st) x). split; [reflexivity|].
      split; [auto|]. intros Hnil _. rewrite Hnil in Hsub.
      apply sublist_nil_r in Hsub.
      destruct (invoked st); [|discriminate]. simpl in Hsub.
      destruct (waitTimers st); discriminate.
    + exists []. rewrite app_nil_r. auto.
  - exists []. rewrite app_nil_r. unfold settles.
    destruct (inFlight st !! i); auto.
  - unfold delayFires. destruct (delayTimers st) as [|n];
      [exists []; rewrite app_nil_r; auto|].
    destruct (argsNext st) as [args|] eqn:Ha;
      [|exists []; rewrite app_nil_r; auto].
    unfold start, invoke. simpl. destruct (wait =? 0)%N; simpl.
    + exists (callback (invoked st) args). split; [reflexivity|].
      split; [auto|]. intros Hnil _. rewrite Hnil in Hsub.
      apply sublist_nil_r in Hsub.
      destruct (invoked st); [|discriminate]. simpl in Hsub.
      destruct (waitTimers st); discriminate.
    + exists []. rewrite app_nil_r. auto.
Qed.

Lemma called_run (es : list (LazyEvent A)) :
  activations es `sublist_of` called (Lazy_run callback wait es)
  /\ head (called (Lazy_run callback wait es)) = head (activations es)
  /\ (silent callback -> called (Lazy_run callback wait es) = activations es).
Proof.
  induction es as [|e es IH] using rev_ind.
  { split; [reflexivity|]. split; reflexivity. }
  destruct IH as (Hsub & Hhead & Hsilent).
  rewrite Lazy_run_snoc, activations_snoc.
  destruct (called_step (Lazy_run callback wait es) e (Lazy_run_log es))
    as (extra & -> & Hquiet & Hfirst).
  split; [|split].
  - rewrite app_assoc. apply sublist_inserts_r.
    apply sublist_app; [exact Hsub | reflexivity].
  - destruct (called (Lazy_run callback wait es)) as [|c l] eqn:Hc.
    + destruct (activations es); [|discriminate]. simpl.
      destruct e; simpl; try (rewrite Hfirst by auto); reflexivity.
    + destruct (activations es); [discriminate|]. exact Hhead.
  - intros Hs. rewrite (Hquiet Hs), (Hsilent Hs), app_nil_r. reflexivity.
Qed.

End LazyLog.

(** X7. After any sequence of events, whatever the callback does, the
    callback has been invoked only with arguments the activator was
    called with (by its users or by the callback), in the order of those
    calls and each call at most once, and the first call of all, which is
    the first call by a user, is the first one served (invoked, or on its
    [wait] timer).  When [wait] is not zero, or the callback does not
    call the activator before it first suspends, the last invocation has
    the arguments of the last call whenever the trigger is idle.  The log
    of the calls holds the calls of the users in their order, and nothing
    else when the callback makes none. *)
Theorem lazyCallback_serves_first_and_last {A : Type}
  (callback : list A -> A -> list A) (wait : N) (es : list (LazyEvent A)) :
  let st := Lazy_run callback wait es in
  invoked st `sublist_of` called st
  /\ head (invoked st ++ waitTimers st) = head (called st)
  /\ ((wait <> 0)%N \/ silent callback ->
      isRunning st = false -> last (invoked st) = last (called st))
  /\ activations es `sublist_of` called st
  /\ head (called st) = head (activations es)
  /\ (silent callback -> called st = activations es).
Proof.
  intros st. destruct (Lazy_run_log callback wait es) as (Hsub & Hhead & _).
  fold st in Hsub, Hhead. split; [|split; [|split]].
  - etransitivity; [|exact Hsub]. apply sublist_inserts_r. reflexivity.
  - exact Hhead.
  - intros Hcond Hr. pose proof (Lazy_run_last callback wait es Hcond) as Hlast.
    destruct (Lazy_run_inv callback wait es) as [Hidle _].
    fold st in Hidle, Hlast. destruct (Hidle Hr) as (Ha & Hw & _ & _).
    unfold Lazy_last, scheduled in Hlast. rewrite Ha, Hw in Hlast.
    simpl in Hlast. rewrite app_nil_r in Hlast. exact Hlast.
  - apply called_run.
Qed.

(** X8. When the running invocation of the callback throws or is rejected,
    [isRunning] stays set for good: whatever happens afterwards, the
    callback is never invoked again, and every later call of the activator
    only overwrites the pending arguments. *)
Theorem lazyCallback_failure_jams {A : Type}
  (callback : list A -> A -> list A) (wait : N)
  (es : list (LazyEvent A)) (x : A) :
  let st := Lazy_run callback wait es in
  inFlight st = [x] ->
  forall es' : list (LazyEvent A),
    let st' := fold_left (Lazy_step callback wait) es' (settles 0 false st) in
    isRunning st' = true
    /\ invoked st' = invoked st
    /\ inFlight st' = [] /\ waitTimers st' = [] /\ delayTimers st' = 0%nat
    /\ (forall args : A,
          invoked (activate callback wait args st') = invoked st
          /\ argsNext (activate callback wait args st') = Some args).
Proof.
  intros st Hx es' st'.
  pose proof (Lazy_run_inv callback wait es) as Hinv. fold st in Hinv.
  destruct (Lazy_jammed_run callback wait es' _ (failure_jams st x Hinv Hx))
    as [(Hr & Hw & Hf & Hd) Hi].
  fold st' in Hr, Hw, Hf, Hd, Hi.
  assert (Hi0 : invoked (settles 0 false st) = invoked st).
  { unfold settles. rewrite Hx. reflexivity. }
  rewrite Hi0 in Hi.
  split; [exact Hr|]. split; [exact Hi|]. split; [exact Hf|].
  split; [exact Hw|]. split; [exact Hd|].
  intros args. unfold activate, start. simpl. rewrite Hr. simpl. auto.
Qed.

Lemma lazyCallback_failure_jams_witness :
  let st' := fold_left (Lazy_step (fun _ _ => []) 0)
               [Activate 2%nat; DelayFires; Settles 0 true; Activate 3%nat]
               (settles 0 false
                  (Lazy_run (fun _ _ => []) 0 [Activate 1%nat])) in
  isRunning st' = true /\ invoked st' = [1%nat].
Proof.
  destruct (lazyCallback_failure_jams (fun _ _ => []) 0 [Activate 1%nat]
              1%nat eq_refl
              [Activate 2%nat; DelayFires; Settles 0 true; Activate 3%nat])
    as (Hr & Hi & _).
  split; [exact Hr | exact Hi].
Defined.

(** ** More on the concurrency gate *)

Section GateLog.

Context {Op : Type}.

Lemma submitted_snoc (es : list (GateEvent Op)) (e : GateEvent Op) :
  submitted (es ++ [e])
  = submitted es ++ match e with Submit func => [func] | _ => [] end.
Proof.
  unfold submitted. rewrite omap_app. destruct e; reflexivity.
Qed.

Lemma Gate_step_submitted (concurrency : JSNumber) (st : Gate Op)
  (e : GateEvent Op) (ops : list Op) :
  waiting st ++ running st ⊆+ ops ->
  waiting (Gate_step concurrency st e) ++ running (Gate_step concurrency st e)
  ⊆+ ops ++ match e with Submit func => [func] | _ => [] end.
Proof.
  intros H. destruct e as [func | i | i fulfilled]; simpl; rewrite ?app_nil_r.
  - unfold submit. destruct (isZero concurrency); simpl.
    + rewrite app_assoc. apply submseteq_skips_r, H.
    + etransitivity; [|apply submseteq_skips_r, H].
      rewrite <- !app_assoc.
      apply submseteq_skips_l. rewrite (Permutation_app_comm [func]).
      reflexivity.
  - unfold poll. destruct (waiting st !! i) as [func|] eqn:Hi; [|exact H].
    destruct (lessThan (inProgress st) concurrency); [|exact H]. simpl.
    etransitivity; [|exact H].
    rewrite (delete_Permutation _ _ _ Hi) at 2. simpl.
    rewrite app_assoc, (Permutation_app_comm _ [func]). reflexivity.
  - unfold settle. destruct (running st !! i) eqn:Hi; [|exact H].
    assert (Hdel : waiting st ++ delete i (running st) ⊆+ ops).
    { etransitivity; [|exact H].
      apply submseteq_skips_l, sublist_submseteq, sublist_delete. }
    destruct (isZero concurrency); [exact Hdel|].
    destruct fulfilled; exact Hdel.
Qed.

Lemma Gate_closed_step (concurrency : Z) (st : Gate Op) (e : GateEvent Op) :
  concurrency <> 0%Z ->
  running st = [] -> (concurrency <= inProgress st)%Z ->
  let st' := Gate_step concurrency st e in
  running st' = [] /\ inProgress st' = inProgress st
  /\ failed st' = failed st
  /\ waiting st'
     = waiting st ++ match e with Submit func => [func] | _ => [] end.
Proof.
  intros Hne Hrun Hfull. destruct e as [func | i | i fulfilled]; simpl;
    rewrite ?app_nil_r.
  - unfold submit. rewrite isZero_ofInteger.
    destruct (Z.eqb_spec concurrency 0); [contradiction|].
    simpl. auto.
  - unfold poll. destruct (waiting st !! i); [|auto].
    rewrite lessThan_ofInteger.
    destruct (Z.ltb_spec (inProgress st) concurrency); [lia | auto].
  - unfold settle. rewrite Hrun. simpl. auto.
Qed.

Lemma Gate_closed_run (concurrency : Z) (es : list (GateEvent Op))
  (st : Gate Op) :
  concurrency <> 0%Z ->
  running st = [] -> (concurrency <= inProgress st)%Z ->
  let st' := fold_left (Gate_step concurrency) es st in
  running st' = [] /\ inProgress st' = inProgress st
  /\ failed st' = failed st
  /\ waiting st' = waiting st ++ submitted es.
Proof.
  intros Hne. revert st. induction es as [|e es IH]; intros st Hrun Hfull; simpl.
  - rewrite app_nil_r. auto.
  - destruct (Gate_closed_step concurrency st e Hne Hrun Hfull)
      as (Hr & Hp & Hf & Hw).
    destruct (IH (Gate_step concurrency st e) Hr ltac:(lia))
      as (Hr' & Hp' & Hf' & Hw').
    split; [exact Hr'|]. split; [congruence|]. split; [congruence|].
    rewrite Hw', Hw, <- app_assoc. f_equal.
    unfold submitted. destruct e; reflexivity.
Qed.

End GateLog.

(** X9. Whatever the limit (any number, integer or not), at any time an
    operation is waiting or running at most as often as it was handed to
    the gate: the gate starts nothing that was not submitted and starts
    no submission twice at once. *)
Theorem promiseLimit_runs_what_was_submitted {Op : Type}
  (concurrency : JSNumber) (es : list (GateEvent Op)) :
  let st := Gate_run concurrency es in
  waiting st ++ running st ⊆+ submitted es
  /\ (forall func : Op, In func (running st) -> In func (submitted es)).
Proof.
  intros st.
  assert (H : waiting st ++ running st ⊆+ submitted es).
  { unfold st. induction es as [|e es IH] using rev_ind.
    - reflexivity.
    - rewrite Gate_run_snoc, submitted_snoc.
      apply Gate_step_submitted, IH. }
  split; [exact H|].
  intros func Hin. apply list_elem_of_In.
  eapply elem_of_submseteq; [|exact H].
  apply elem_of_app. right. apply list_elem_of_In, Hin.
Qed.

(** X10. With a negative limit the gate never opens: after any sequence of
    events nothing is running, nothing has run, and every operation handed
    to the gate is still waiting, in the order of the calls. *)
Theorem promiseLimit_negative_never_runs {Op : Type} (concurrency : Z)
  (es : list (GateEvent Op)) :
  (concurrency < 0)%Z ->
  let st := Gate_run concurrency es in
  running st = [] /\ waiting st = submitted es
  /\ inProgress st = 0%Z /\ failed st = 0%nat
  /\ (forall i, poll concurrency i st = st).
Proof.
  intros Hneg st.
  destruct (Gate_closed_run concurrency es (promiseLimit (Op := Op))
              ltac:(lia) eq_refl ltac:(simpl; lia)) as (Hr & Hp & Hf & Hw).
  fold (Gate_run concurrency es) in Hr, Hp, Hf, Hw. fold st in Hr, Hp, Hf, Hw.
  simpl in Hp, Hf, Hw.
  split; [exact Hr|]. split; [exact Hw|]. split; [exact Hp|].
  split; [exact Hf|].
  intros i. unfold poll. destruct (waiting st !! i); [|reflexivity].
  rewrite lessThan_ofInteger.
  destruct (Z.ltb_spec (inProgress st) concurrency); [lia | reflexivity].
Qed.

Lemma promiseLimit_negative_never_runs_witness :
  let st := Gate_run (-1)%Z [Submit 7%nat; Poll 0%nat; Submit 8%nat;
                             Poll 1%nat; Settle 0%nat true] in
  running st = [] /\ waiting st = [7%nat; 8%nat].
Proof.
  destruct (promiseLimit_negative_never_runs (-1)
              [Submit 7%nat; Poll 0%nat; Submit 8%nat; Poll 1%nat;
               Settle 0%nat true] ltac:(lia)) as (Hr & Hw & _).
  split; [exact Hr | exact Hw].
Defined.

(** X11. Behind a gate with a positive limit, once as many operations have
    failed as the limit allows, the gate is shut for good: from then on
    nothing is running, no poll lets a caller through, and every operation
    handed to the gate afterwards joins the waiting ones and stays there. *)
Theorem promiseLimit_failures_shut_gate {Op : Type} (concurrency : Z)
  (es : list (GateEvent Op)) :
  (0 < concurrency)%Z ->
  let st := Gate_run concurrency es in
  (concurrency <= Z.of_nat (failed st))%Z ->
  forall es' : list (GateEvent Op),
    let st' := fold_left (Gate_step concurrency) es' st in
    running st' = []
    /\ waiting st' = waiting st ++ submitted es'
    /\ failed st' = failed st
    /\ (forall i, poll concurrency i st' = st').
Proof.
  intros Hpos st Hfail es' st'.
  destruct (Gate_run_inv concurrency es Hpos) as [Hc Hle].
  fold st in Hc, Hle.
  assert (Hrun : running st = []).
  { apply length_zero_iff_nil. lia. }
  destruct (Gate_closed_run concurrency es' st ltac:(lia) Hrun ltac:(lia))
    as (Hr & Hp & Hf & Hw).
  fold st' in Hr, Hp, Hf, Hw.
  split; [exact Hr|]. split; [exact Hw|]. split; [exact Hf|].
  intros i. unfold poll. destruct (waiting st' !! i); [|reflexivity].
  rewrite lessThan_ofInteger.
  destruct (Z.ltb_spec (inProgress st') concurrency); [lia | reflexivity].
Qed.

Lemma promiseLimit_failures_shut_gate_witness :
  let st := Gate_run 1%Z [Submit 7%nat; Poll 0%nat; Settle 0%nat false] in
  let st' := fold_left (Gate_step 1%Z) [Submit 8%nat; Poll 0%nat] st in
  running st' = [] /\ waiting st' = [8%nat].
Proof.
  destruct (promiseLimit_failures_shut_gate 1
              [Submit 7%nat; Poll 0%nat; Settle 0%nat false] ltac:(lia)
              ltac:(vm_compute; discriminate) [Submit 8%nat; Poll 0%nat])
    as (Hr & Hw & _).
  split; [exact Hr | exact Hw].
Defined.

(** ** Ranges without a version, and baselines that are published *)

Lemma stripNonDigitPrefix_digitless (s : string) :
  allChars (fun c => negb (isDigit c)) s = true ->
  stripNonDigitPrefix s = "".
Proof.
  intros H. rewrite <- (sapp_nil_r s).
  rewrite (stripNonDigitPrefix_nondigits s "" H). reflexivity.
Qed.

(** X12. A declared range without any digit ([latest], [*], [x], the empty
    text, a tag name) clears to the empty text; [^] is then not a range,
    and with or without the protection the suggestion is the greatest
    published release. *)
Theorem digitless_range_suggests_latest
  (Range_other : string -> bool -> option Range)
  (mixed : list JSON -> string -> bool -> outcome (option string))
  (packageVersions : list string) (version : string) (protection : bool) :
  allChars (fun c => negb (isDigit c)) version = true ->
  versionClear version = ""
  /\ getPackageLatestVersion Range_other mixed
       (strings packageVersions) version protection
     = Return (maxSatisfying Range_other packageVersions ">=0" false)
  /\ greatestOf (published false) packageVersions
       (maxSatisfying Range_other packageVersions ">=0" false).
Proof.
  intros H.
  assert (Hclear : versionClear version = "").
  { unfold versionClear. rewrite (stripNonDigitPrefix_digitless _ H).
    reflexivity. }
  split; [exact Hclear|]. split; [|apply versionLatest_greatest].
  unfold getPackageLatestVersion, strings; rewrite allStrings_strings.
  rewrite Hclear.
  change (prerelease "") with (@None (list Identifier)). cbv iota.
  destruct protection; [|reflexivity]. simpl negb. cbv iota.
  assert (Hcaret : maxSatisfying Range_other packageVersions
                     (caretOf (Some "")) false = None) by reflexivity.
  rewrite Hcaret. reflexivity.
Qed.

Lemma digitless_range_suggests_latest_witness :
  getPackageLatestVersion (fun _ _ => None) (fun _ _ _ => Throw)
    (strings ["1.0.0"; "2.1.0"; "3.0.0-beta.1"]) "latest" true
  = Return (maxSatisfying (fun _ _ => None)
              ["1.0.0"; "2.1.0"; "3.0.0-beta.1"] ">=0" false).
Proof.
  destruct (digitless_range_suggests_latest (fun _ _ => None)
              (fun _ _ _ => Throw)
              ["1.0.0"; "2.1.0"; "3.0.0-beta.1"] "latest" true eq_refl)
    as (_ & H & _).
  exact H.
Defined.

Lemma replaceGTE0_ge (inc : bool) (lo : SemVer) :
  replaceGTE0 inc (Cmp OpGe lo) = Cmp OpGe lo
  \/ (replaceGTE0 inc (Cmp OpGe lo) = ANY
      /\ major lo = 0%N /\ minor lo = 0%N /\ patch lo = 0%N
      /\ (pre lo = [] /\ inc = false \/ pre lo = zero /\ inc = true)).
Proof.
  destruct lo as [[|?] [|?] [|?] [|[[|?]|?] [|? ?]] ?]; cbn; auto;
    destruct inc; auto 10.
Qed.

(** What a caret range accepts is not below its lower bound. *)
Lemma caretSet_above (inc : bool) (lo hi w : SemVer) :
  pre hi = zero ->
  testSet (caretSet inc lo hi) w inc = true -> compare w lo <> Lt.
Proof.
  intros Hhi Htest.
  destruct (replaceGTE0_ge inc lo) as [Hsame | (Hany & HM & Hm & Hp & Hpre)].
  - rewrite testSet_caretSet, Hsame in Htest.
    apply andb_prop in Htest as [Htest _].
    apply andb_prop in Htest as [Htest _].
    cbn [Comparator_test] in Htest. unfold cmp in Htest.
    destruct (compare w lo); congruence.
  - intros Hlt. apply compare_lt in Hlt.
    rewrite compareMain_lt, compareMain_eq in Hlt.
    destruct Hlt as [Hlt | [_ Hlt]]; [lia|].
    destruct Hpre as [[Hpre ->] | [Hpre _]].
    + pose proof (caretSet_release_only lo hi w Hpre Hhi Htest) as Hw.
      apply hasPrerelease_false in Hw. rewrite Hw, Hpre in Hlt.
      discriminate.
    + rewrite Hpre in Hlt. exact (nothing_below_zero _ Hlt).
Qed.

(** The three places the result of [getPackageLatestVersion] comes from,
    for a baseline that parses. *)
Lemma getPackageLatestVersion_branches
  (Range_other : string -> bool -> option Range)
  (mixed : list JSON -> string -> bool -> outcome (option string))
  (packageVersions : list string) (version : string) (protection : bool)
  (sv : SemVer) :
  parse (versionClear version) = Some sv ->
  let inc := hasPrerelease sv in
  let res :=
    getPackageLatestVersion Range_other mixed
      (strings packageVersions) version protection in
  res = Return (maxSatisfying Range_other packageVersions ">=0" inc)
  \/ (exists vs,
        maxSatisfying Range_other packageVersions
          (String "^" (versionClear version)) inc = Some vs
        /\ res = Return (Some vs))
  \/ (exists vnp wnp,
        In vnp packageVersions /\ parse vnp = Some wnp
        /\ compare wnp sv = Gt /\ res = Return (Some vnp)).
Proof.
  intros Hparse inc res.
  unfold res, getPackageLatestVersion, strings; rewrite allStrings_strings.
  rewrite (prerelease_parsed _ _ Hparse).
  assert (Hinc : match match pre sv with [] => None | p => Some p end with
                 | Some _ => true
                 | None => false
                 end = inc).
  { unfold inc, hasPrerelease. destruct (pre sv); reflexivity. }
  rewrite Hinc. clear Hinc. generalize inc. clear inc res. intros inc.
  destruct protection; simpl negb; cbv iota; [|left; reflexivity].
  set (fromRange :=
         match maxSatisfying Range_other packageVersions
                 (caretOf (Some (versionClear version))) inc with
         | Some vs =>
             if isEmpty vs || String.eqb (versionClear version) vs
             then Return (maxSatisfying Range_other packageVersions ">=0" inc)
             else Return (maxSatisfying Range_other packageVersions
                            (caretOf (Some (versionClear version))) inc)
         | None => Return (maxSatisfying Range_other packageVersions ">=0" inc)
         end).
  assert (Hfrom :
            fromRange
            = Return (maxSatisfying Range_other packageVersions ">=0" inc)
            \/ exists vs,
                maxSatisfying Range_other packageVersions
                  (String "^" (versionClear version)) inc = Some vs
                /\ fromRange = Return (Some vs)).
  { unfold fromRange, caretOf. rewrite sapp_cons, sapp_nil.
    destruct (maxSatisfying Range_other packageVersions
                (String "^" (versionClear version)) inc) as [vs|] eqn:Hvs;
      [|left; reflexivity].
    destruct (isEmpty vs || String.eqb (versionClear version) vs);
      [left; reflexivity | right; exists vs; auto]. }
  assert (Hdone :
            fromRange
            = Return (maxSatisfying Range_other packageVersions ">=0" inc)
            \/ (exists vs,
                  maxSatisfying Range_other packageVersions
                    (String "^" (versionClear version)) inc = Some vs
                  /\ fromRange = Return (Some vs))
            \/ (exists vnp wnp,
                  In vnp packageVersions /\ parse vnp = Some wnp
                  /\ compare wnp sv = Gt /\ fromRange = Return (Some vnp))).
  { destruct Hfrom as [H | H]; auto. }
  destruct inc; [|exact Hdone].
  destruct (maxSatisfying Range_other packageVersions
              (caretOf (coerce (versionClear version))) false)
    as [vnp|] eqn:Hvnp; [|exact Hdone].
  destruct (isEmpty vnp); [exact Hdone|].
  destruct (maxSatisfying_published _ _ _ _ _ Hvnp) as (Hin & wnp & Hwnp).
  unfold gt. rewrite Hwnp, Hparse.
  destruct (compare wnp sv) eqn:Hc; try exact Hdone.
  right. right. exists vnp, wnp. auto.
Qed.



(** X14. [getPackageLatestVersion] does not compare its result with the
    baseline outside the prerelease branch: for a baseline that parses and
    is newer than everything published, the suggestion (there is one as
    soon as a release is published, or any version when the baseline is a
    prerelease) is older than the baseline. *)
Theorem baseline_ahead_gets_older_suggestion
  (Range_other : string -> bool -> option Range)
  (mixed : list JSON -> string -> bool -> outcome (option string))
  (packageVersions : list string) (version : string) (protection : bool)
  (sv : SemVer) (r : string) (wr : SemVer) :
  parse (versionClear version) = Some sv ->
  (forall s w, In s packageVersions -> parse s = Some w -> compare w sv = Lt) ->
  In r packageVersions ->
  parse r = Some wr ->
  pre wr = [] \/ pre sv <> [] ->
  exists suggestion w,
    getPackageLatestVersion Range_other mixed
      (strings packageVersions) version protection
    = Return (Some suggestion)
    /\ In suggestion packageVersions
    /\ parse suggestion = Some w
    /\ compare w sv = Lt.
Proof.
  intros Hparse Hold Hin Hr Hkind.
  set (inc := hasPrerelease sv).
  destruct (getPackageLatestVersion_branches Range_other mixed packageVersions
              version protection sv Hparse)
    as [Hres | [(vs & Hvs & Hres) | (vnp & wnp & Hvin & Hwnp & Hgt & Hres)]];
    fold inc in Hres; try fold inc in Hvs.
  - pose proof (versionLatest_greatest Range_other packageVersions inc) as G.
    assert (Hpub : published inc r = true).
    { unfold published. rewrite Hr. unfold inc, hasPrerelease.
      destruct Hkind as [-> | Hne]; [apply orb_true_r|].
      destruct (pre sv); [congruence | reflexivity]. }
    destruct (maxSatisfying Range_other packageVersions ">=0" inc) as [m|]
      eqn:Hm.
    + destruct (maxSatisfying_published _ _ _ _ _ Hm) as (Hmin & wm & Hwm).
      exists m, wm. rewrite Hres. repeat split; eauto.
    + simpl in G. rewrite (G r Hin) in Hpub. discriminate.
  - exfalso.
    pose proof (baseline_anatomy version sv Hparse) as A.
    destruct (versionClear_shape version) as (_ & _ & _ & Hve).
    pose proof (Range_caret_version Range_other _ sv inc A Hve) as R.
    cbv zeta in R.
    pose proof (maxSatisfying_greatest Range_other packageVersions
                  (String "^" (versionClear version)) inc) as G.
    rewrite R, Hvs in G.
    destruct (caretCeiling (major sv) (minor sv) (patch sv)) as [hi|] eqn:Hhi;
      [|discriminate].
    destruct G as (Hvin & Hok & _).
    apply Range_test_single in Hok as (w & Hw & Htest).
    apply caretSet_above in Htest; [|eapply caretCeiling_zero, Hhi].
    apply Htest. erewrite compare_key; [exact (Hold vs w Hvin Hw) | reflexivity |].
    unfold inc, hasPrerelease, key. simpl.
    destruct (pre sv); [|reflexivity].
    destruct (major sv =? 0)%N; reflexivity.
  - rewrite (Hold vnp wnp Hvin Hwnp) in Hgt. discriminate.
Qed.

Lemma baseline_ahead_gets_older_suggestion_witness :
  exists suggestion w,
    getPackageLatestVersion (fun _ _ => None) (fun _ _ _ => Throw)
      (strings ["1.0.0"; "1.1.0"]) "^5.0.0" true
    = Return (Some suggestion)
    /\ In suggestion ["1.0.0"; "1.1.0"]
    /\ parse suggestion = Some w
    /\ compare w (mkSemVer 5 0 0 [] []) = Lt.
Proof.
  apply (baseline_ahead_gets_older_suggestion (fun _ _ => None)
              (fun _ _ _ => Throw)
           ["1.0.0"; "1.1.0"] "^5.0.0" true (mkSemVer 5 0 0 [] [])
           "1.0.0" (mkSemVer 1 0 0 [] [])).
  - reflexivity.
  - intros s w [<- | [<- | []]] H; vm_compute in H; injection H as <-;
      reflexivity.
  - simpl. auto.
  - reflexivity.
  - left. reflexivity.
Defined.

(** ** The decorations of a document *)

(** ** Arrays with holes *)

Section ArrayFacts.

Context {T : Type}.

Lemma arrayGet_nil (i : nat) : arrayGet (T := T) [] i = None.
Proof. unfold arrayGet. rewrite lookup_nil. reflexivity. Qed.

Lemma arrayGet_arraySet (array : list (option T)) (i j : nat) (x : T) :
  arrayGet (arraySet array i x) j
  = if decide (i = j) then Some x else arrayGet array j.
Proof.
  unfold arrayGet, arraySet.
  destruct (Nat.ltb_spec i (length array)) as [Hlt|Hge].
  - destruct (decide (i = j)) as [<-|Hne].
    + rewrite list_lookup_insert_eq by exact Hlt. reflexivity.
    + rewrite list_lookup_insert_ne by exact Hne. reflexivity.
  - destruct (decide (i = j)) as [<-|Hne].
    + rewrite lookup_app_r by exact Hge.
      rewrite lookup_app_r by (rewrite length_replicate; lia).
      rewrite length_replicate, Nat.sub_diag. reflexivity.
    + destruct (Nat.lt_ge_cases j (length array)) as [Hj|Hj].
      * rewrite lookup_app_l by exact Hj. reflexivity.
      * rewrite lookup_app_r by exact Hj.
        rewrite (lookup_ge_None_2 array j) by exact Hj.
        destruct (Nat.lt_ge_cases (j - length array) (i - length array))
          as [Hk|Hk].
        -- rewrite lookup_app_l by (rewrite length_replicate; exact Hk).
           rewrite lookup_replicate_2 by exact Hk. reflexivity.
        -- rewrite lookup_app_r by (rewrite length_replicate; exact Hk).
           rewrite length_replicate.
           destruct (j - length array - (i - length array))%nat as [|n] eqn:Hn;
             [lia|]. reflexivity.
Qed.

Lemma arrayGet_arrayDelete (array : list (option T)) (i j : nat) :
  arrayGet (arrayDelete array i) j
  = if decide (i = j) then None else arrayGet array j.
Proof.
  unfold arrayGet, arrayDelete. destruct (decide (i = j)) as [<-|Hne].
  - destruct (Nat.lt_ge_cases i (length array)) as [Hlt|Hge].
    + rewrite list_lookup_insert_eq by exact Hlt. reflexivity.
    + rewrite lookup_ge_None_2; [reflexivity|].
      rewrite length_insert. exact Hge.
  - rewrite list_lookup_insert_ne by exact Hne. reflexivity.
Qed.

Lemma arrayGet_map {U : Type} (f : T -> U) (array : list (option T))
  (i : nat) :
  arrayGet (map (option_map f) array) i = option_map f (arrayGet array i).
Proof.
  unfold arrayGet.
  change (map (option_map f) array) with (option_map f <$> array).
  rewrite list_lookup_fmap. destruct (array !! i) as [[x|]|]; reflexivity.
Qed.

Lemma In_arrayValues (array : list (option T)) (x : T) :
  In x (arrayValues array) <-> exists i, arrayGet array i = Some x.
Proof.
  unfold arrayValues, arrayGet. rewrite <- list_elem_of_In, list_elem_of_omap.
  split.
  - intros (o & Ho & Hx). destruct o as [y|]; [|discriminate].
    injection Hx as ->. apply list_elem_of_lookup in Ho as [i Hi].
    exists i. rewrite Hi. reflexivity.
  - intros [i Hi]. destruct (array !! i) as [[y|]|] eqn:Hl; try discriminate.
    injection Hi as ->. exists (Some x). split; [|reflexivity].
    apply list_elem_of_lookup. eauto.
Qed.

End ArrayFacts.

(** ** What the window shows *)

Section WindowFacts.

Variable options : DocumentDecorationLayer -> list VSCode.DecorationOptions.

Lemma setEach_window (editors : list VSCode.TextEditor) (t : nat)
  (opts : list VSCode.DecorationOptions) (w : VSCode.Window) :
  let w' :=
    fold_left (fun w e => VSCode.setDecorations e t opts w) editors w in
  VSCode.visibleTextEditors w' = VSCode.visibleTextEditors w
  /\ VSCode.decorationTypes w' = VSCode.decorationTypes w.
Proof.
  revert w. induction editors as [|e editors IH]; intros w; simpl; [auto|].
  destruct (IH (VSCode.setDecorations e t opts w)) as [H1 H2].
  rewrite H1, H2. auto.
Qed.

Lemma setEach_other (editors : list VSCode.TextEditor) (t : nat)
  (opts : list VSCode.DecorationOptions) (w : VSCode.Window) (k t' : nat) :
  t' <> t \/ (forall e, In e editors -> VSCode.editor e <> k) ->
  VSCode.decorations
    (fold_left (fun w e => VSCode.setDecorations e t opts w) editors w)
    !! (k, t')
  = VSCode.decorations w !! (k, t').
Proof.
  revert w. induction editors as [|e editors IH]; intros w H; simpl;
    [reflexivity|].
  rewrite IH.
  - simpl. apply lookup_insert_ne. intros [= He Ht].
    destruct H as [H | H]; [congruence|].
    apply (H e); [left; reflexivity | exact He].
  - destruct H as [H | H]; [left; exact H|].
    right. intros e' He'. apply H. right. exact He'.
Qed.

Lemma setEach_set (editors : list VSCode.TextEditor) (t : nat)
  (opts : list VSCode.DecorationOptions) (w : VSCode.Window)
  (e : VSCode.TextEditor) :
  In e editors ->
  VSCode.decorations
    (fold_left (fun w e => VSCode.setDecorations e t opts w) editors w)
    !! (VSCode.editor e, t)
  = Some opts.
Proof.
  revert w. induction editors as [|e' editors IH] using rev_ind; intros w H;
    [contradiction|].
  rewrite fold_left_app. simpl.
  apply in_app_or in H as [H | [<- | []]].
  - destruct (decide (VSCode.editor e' = VSCode.editor e)) as [->|Hne].
    + apply lookup_insert_eq.
    + rewrite lookup_insert_ne by congruence. apply IH, H.
  - apply lookup_insert_eq.
Qed.

Lemma decorated_snoc (editors : list VSCode.TextEditor)
  (ls : list DocumentDecorationLayer) (l : DocumentDecorationLayer)
  (w : VSCode.Window) :
  decorated options editors (ls ++ [l]) w
  = fold_left (fun w e => VSCode.setDecorations e (type l) (options l) w)
      editors (decorated options editors ls w).
Proof. unfold decorated. rewrite fold_left_app. reflexivity. Qed.

Lemma decorated_window (editors : list VSCode.TextEditor)
  (ls : list DocumentDecorationLayer) (w : VSCode.Window) :
  VSCode.visibleTextEditors (decorated options editors ls w)
  = VSCode.visibleTextEditors w
  /\ VSCode.decorationTypes (decorated options editors ls w)
     = VSCode.decorationTypes w.
Proof.
  induction ls as [|l ls IH] using rev_ind; [auto|].
  rewrite decorated_snoc.
  destruct (setEach_window editors (type l) (options l)
              (decorated options editors ls w)) as [H1 H2].
  rewrite H1, H2. exact IH.
Qed.

(** Decorations of other types, and of other editors, stay. *)
Lemma decorated_other (editors : list VSCode.TextEditor)
  (ls : list DocumentDecorationLayer) (w : VSCode.Window) (k t : nat) :
  (forall l, In l ls -> type l <> t)
  \/ (forall e, In e editors -> VSCode.editor e <> k) ->
  VSCode.decorations (decorated options editors ls w) !! (k, t)
  = VSCode.decorations w !! (k, t).
Proof.
  intros H. induction ls as [|l ls IH] using rev_ind; [reflexivity|].
  rewrite decorated_snoc, setEach_other.
  - apply IH. destruct H as [H | H]; [left | right; exact H].
    intros l' Hl'. apply H, in_or_app. left. exact Hl'.
  - destruct H as [H | H]; [left | right; exact H].
    intros Heq. apply (H l); [|congruence].
    apply in_or_app. right. left. reflexivity.
Qed.

(** With types that tell the layers apart, every editor ends up with the
    options of every layer. *)
Lemma decorated_layer (editors : list VSCode.TextEditor)
  (ls : list DocumentDecorationLayer) (w : VSCode.Window)
  (l : DocumentDecorationLayer) (e : VSCode.TextEditor) :
  (forall l1 l2, In l1 ls -> In l2 ls -> type l1 = type l2 -> l1 = l2) ->
  In l ls -> In e editors ->
  VSCode.decorations (decorated options editors ls w)
    !! (VSCode.editor e, type l)
  = Some (options l).
Proof.
  intros Hdistinct Hl He. induction ls as [|x ls IH] using rev_ind;
    [contradiction|].
  rewrite decorated_snoc.
  destruct (decide (type l = type x)) as [Heq|Hne].
  - assert (l = x) as ->.
    { apply Hdistinct; [exact Hl | | exact Heq].
      apply in_or_app. right. left. reflexivity. }
    apply setEach_set, He.
  - rewrite setEach_other by (left; exact Hne).
    apply IH.
    + intros l1 l2 H1 H2. apply Hdistinct; apply in_or_app; left; assumption.
    + apply in_app_or in Hl as [Hl | [<- | []]]; [exact Hl | congruence].
Qed.

End WindowFacts.

Lemma fold_left_if {S E : Type} (p : E -> bool) (f : S -> E -> S)
  (l : list E) (s : S) :
  fold_left (fun s e => if p e then f s e else s) l s
  = fold_left f (List.filter p l) s.
Proof.
  revert s. induction l as [|e l IH]; intros s; simpl; [reflexivity|].
  destruct (p e); simpl; apply IH.
Qed.

(** ** The manager of a document *)

Lemma from_layersOf (document d : nat) (st : Decorations) :
  layers (fst (from document st)) = layersOf document st
  /\ layersOf d (snd (from document st)) = layersOf d st
  /\ documents (snd (from document st)) !! document
     = Some (fst (from document st))
  /\ window (snd (from document st)) = window st
  /\ (forall d', d' <> document ->
        documents (snd (from document st)) !! d' = documents st !! d').
Proof.
  unfold from, layersOf.
  destruct (documents st !! document) as [manager|] eqn:Hm; simpl.
  - rewrite Hm. auto.
  - rewrite lookup_insert_eq. repeat split; auto.
    + destruct (decide (document = d)) as [<-|Hne].
      * rewrite lookup_insert_eq, Hm. reflexivity.
      * rewrite lookup_insert_ne by exact Hne. reflexivity.
    + intros d' Hd'. apply lookup_insert_ne. congruence.
Qed.

Lemma layersOf_insert (document d : nat) (manager : DocumentDecorationManager)
  (docs : gmap nat DocumentDecorationManager) (w : VSCode.Window) :
  layersOf d (mkDecorations (<[document := manager]> docs) w)
  = if decide (document = d) then layers manager
    else layersOf d (mkDecorations docs w).
Proof.
  unfold layersOf. simpl. destruct (decide (document = d)) as [<-|Hne].
  - rewrite lookup_insert_eq. reflexivity.
  - rewrite lookup_insert_ne by exact Hne. reflexivity.
Qed.

Lemma renderCallback_spec (self : DocumentDecoration) (st : Decorations) :
  renderCallback self st
  = mkDecorations (documents (snd (from (document self) st)))
      (decorated (fun layer => arrayValues (lines layer)) (editors self)
         (arrayValues (layersOf (document self) st)) (window st)).
Proof.
  unfold renderCallback.
  destruct (from_layersOf (document self) 0 st) as (Hl & _ & _ & Hw & _).
  destruct (from (document self) st) as [manager st1]. simpl in *.
  rewrite Hl, Hw. reflexivity.
Qed.

Lemma renderCallback_layersOf (self : DocumentDecoration) (st : Decorations)
  (d : nat) :
  layersOf d (renderCallback self st) = layersOf d st.
Proof.
  rewrite renderCallback_spec.
  destruct (from_layersOf (document self) d st) as (_ & Hd & _).
  unfold layersOf in *. simpl. exact Hd.
Qed.

Lemma layersWellFormed_values (ls : list (option DocumentDecorationLayer))
  (w : VSCode.Window) (l1 l2 : DocumentDecorationLayer) :
  layersWellFormed ls w ->
  In l1 (arrayValues ls) -> In l2 (arrayValues ls) ->
  type l1 = type l2 -> l1 = l2.
Proof.
  intros (_ & Hdistinct & _) [i Hi]%In_arrayValues [j Hj]%In_arrayValues Ht.
  assert (i = j) by (eapply Hdistinct; eassumption). subst j. congruence.
Qed.

(** After the callback every editor of the instance shows the layers. *)
Lemma renderCallback_shows (self : DocumentDecoration) (st : Decorations) :
  layersWellFormed (layersOf (document self) st) (window st) ->
  showsLayers self (renderCallback self st).
Proof.
  intros Hwf i layer e Hi He. rewrite renderCallback_layersOf in Hi.
  rewrite renderCallback_spec. unfold VSCode.decorationsOf. simpl.
  rewrite (decorated_layer (fun layer => arrayValues (lines layer))
             (editors self) _ (window st) layer e).
  - reflexivity.
  - intros l1 l2. apply (layersWellFormed_values _ _ _ _ Hwf).
  - apply In_arrayValues. eauto.
  - exact He.
Qed.

(** ** The steps of [render] *)

Lemma renderStep_activate (self : DocumentDecoration) (st : Decorations) :
  renderStep (activate renderCalls 0 tt) self st
  = if isRunning (render self)
    then (mkDocumentDecoration (document self) (editors self)
            (mkLazy true (Some tt) (waitTimers (render self))
               (inFlight (render self)) (delayTimers (render self))
               (invoked (render self)) (called (render self) ++ [tt])),
          st)
    else (mkDocumentDecoration (document self) (editors self)
            (mkLazy true (argsNext (render self)) (waitTimers (render self))
               (inFlight (render self) ++ [tt]) (delayTimers (render self))
               (invoked (render self) ++ [tt])
               (called (render self) ++ [tt])),
          renderCallback self st).
Proof.
  unfold renderStep, activate, start, invoke, renderCalls.
  destruct (isRunning (render self)); simpl.
  - rewrite drop_all. reflexivity.
  - rewrite drop_app_length, app_nil_r. reflexivity.
Qed.

Lemma renderStep_settles (self : DocumentDecoration) (st : Decorations) :
  renderStep (settles 0 true) self st
  = (mkDocumentDecoration (document self) (editors self)
       (settles 0 true (render self)), st).
Proof.
  unfold renderStep. f_equal.
  assert (H : invoked (settles 0 true (render self)) = invoked (render self)).
  { unfold settles. destruct (inFlight (render self) !! 0%nat); reflexivity. }
  rewrite H, drop_all. reflexivity.
Qed.

Lemma renderStep_delayFires (self : DocumentDecoration) (st : Decorations) :
  waitTimers (render self) = [] ->
  renderStep (delayFires renderCalls 0) self st
  = match delayTimers (render self), argsNext (render self) with
    | S n, Some _ =>
        (mkDocumentDecoration (document self) (editors self)
           (mkLazy true None [] (inFlight (render self) ++ [tt]) n
              (invoked (render self) ++ [tt]) (called (render self))),
         renderCallback self st)
    | S n, None =>
        (mkDocumentDecoration (document self) (editors self)
           (mkLazy false None [] (inFlight (render self)) n
              (invoked (render self)) (called (render self))),
         st)
    | O, _ => (self, st)
    end.
Proof.
  intros Hw. unfold renderStep, delayFires, start, invoke, renderCalls.
  destruct (delayTimers (render self)) as [|n] eqn:Hd.
  - rewrite drop_all. destruct self; reflexivity.
  - destruct (argsNext (render self)) as [[]|] eqn:Ha; simpl.
    + rewrite drop_app_length, Hw, app_nil_r. reflexivity.
    + rewrite drop_all, Hw. reflexivity.
Qed.

(** ** The loop of [setLine] *)

Lemma setLineMessage_spec (line : nat) (manager : DocumentDecorationManager)
  (w : VSCode.Window) (k : nat) (m : Message) :
  exists manager' w' l',
    setLineMessage line (manager, w, k) m = (manager', w', S k)
    /\ VSCode.visibleTextEditors w' = VSCode.visibleTextEditors w
    /\ VSCode.decorations w' = VSCode.decorations w
    /\ (VSCode.decorationTypes w <= VSCode.decorationTypes w')%nat
    /\ (forall i, i <> k ->
          arrayGet (layers manager') i = arrayGet (layers manager) i)
    /\ arrayGet (layers manager') k = Some l'
    /\ arrayGet (lines l') line = Some (lineDecoration line k m)
    /\ (forall n, n <> line ->
          arrayGet (lines l') n
          = match arrayGet (layers manager) k with
            | Some l => arrayGet (lines l) n
            | None => None
            end)
    /\ match arrayGet (layers manager) k with
       | Some l => type l' = type l
       | None =>
           type l' = VSCode.decorationTypes w
           /\ VSCode.decorationTypes w' = S (VSCode.decorationTypes w)
       end.
Proof.
  unfold setLineMessage, getLayer.
  destruct (arrayGet (layers manager) k) as [l|] eqn:Hk; simpl.
  - eexists _, _,
      (mkDocumentDecorationLayer
         (arraySet (lines l) line (lineDecoration line k m)) (type l)).
    split; [reflexivity|]. simpl.
    repeat split; auto.
    + intros i Hi. rewrite arrayGet_arraySet.
      destruct (decide (k = i)); [congruence | reflexivity].
    + rewrite arrayGet_arraySet. destruct (decide (k = k)); [|congruence].
      reflexivity.
    + rewrite arrayGet_arraySet. destruct (decide (line = line)); [|congruence].
      reflexivity.
    + intros n Hn. rewrite arrayGet_arraySet.
      destruct (decide (line = n)); [congruence | reflexivity].
  - eexists _, _,
      (mkDocumentDecorationLayer
         (arraySet [] line (lineDecoration line k m))
         (VSCode.decorationTypes w)).
    split; [reflexivity|]. simpl.
    repeat split; auto.
    + intros i Hi. rewrite !arrayGet_arraySet.
      destruct (decide (k = i)); [congruence | reflexivity].
    + rewrite arrayGet_arraySet. destruct (decide (k = k)); [|congruence].
      reflexivity.
    + rewrite arrayGet_arraySet. destruct (decide (line = line)); [|congruence].
      reflexivity.
    + intros n Hn. rewrite arrayGet_arraySet.
      destruct (decide (line = n)); [congruence | apply arrayGet_nil].
Qed.

Lemma lineDecoration_line (line k : nat) (m : Message) :
  VSCode.line (VSCode.start (VSCode.range (lineDecoration line k m))) = line.
Proof. reflexivity. Qed.

Lemma setLineMessage_wellFormed (line : nat)
  (manager manager' : DocumentDecorationManager) (w w' : VSCode.Window)
  (k k' : nat) (m : Message) :
  setLineMessage line (manager, w, k) m = (manager', w', k') ->
  layersWellFormed (layers manager) w ->
  layersWellFormed (layers manager') w'.
Proof.
  intros Hstep (Hfresh & Hdistinct & Hline).
  destruct (setLineMessage_spec line manager w k m)
    as (m1 & w1 & l' & Heq & _ & _ & Hle & Hother & Hk & Hset & Hrest & Ht).
  rewrite Heq in Hstep. injection Hstep as <- <- <-.
  assert (Hfresh' : (type l' < VSCode.decorationTypes w1)%nat).
  { destruct (arrayGet (layers manager) k) as [l|] eqn:Hold.
    - rewrite Ht. specialize (Hfresh k l Hold). lia.
    - destruct Ht as [-> ->]. lia. }
  assert (Hnew : forall j lj, j <> k -> arrayGet (layers manager) j = Some lj ->
                              type l' <> type lj).
  { intros j lj Hj Hlj Heqt.
    destruct (arrayGet (layers manager) k) as [l|] eqn:Hold.
    - rewrite Ht in Heqt. apply Hj. symmetry.
      eapply Hdistinct; eassumption.
    - destruct Ht as [Ht _]. specialize (Hfresh j lj Hlj). lia. }
  split; [|split].
  - intros i l Hi. destruct (decide (i = k)) as [->|Hne].
    + rewrite Hk in Hi. injection Hi as <-. exact Hfresh'.
    + rewrite Hother in Hi by exact Hne. specialize (Hfresh i l Hi). lia.
  - intros i j l1 l2 Hi Hj Heqt.
    destruct (decide (i = k)) as [->|Hik], (decide (j = k)) as [->|Hjk];
      [reflexivity | | |].
    + rewrite Hk in Hi. injection Hi as <-.
      rewrite Hother in Hj by exact Hjk.
      destruct (Hnew j l2 Hjk Hj Heqt).
    + rewrite Hk in Hj. injection Hj as <-.
      rewrite Hother in Hi by exact Hik.
      destruct (Hnew i l1 Hik Hi (eq_sym Heqt)).
    + rewrite Hother in Hi by exact Hik. rewrite Hother in Hj by exact Hjk.
      eapply Hdistinct; eassumption.
  - intros i l n d Hi Hd. destruct (decide (i = k)) as [->|Hne].
    + rewrite Hk in Hi. injection Hi as <-.
      destruct (decide (n = line)) as [->|Hn].
      * rewrite Hset in Hd. injection Hd as <-. reflexivity.
      * rewrite Hrest in Hd by exact Hn.
        destruct (arrayGet (layers manager) k) as [l|] eqn:Hold;
          [|discriminate].
        eapply Hline; eassumption.
    + rewrite Hother in Hi by exact Hne. eapply Hline; eassumption.
Qed.

Lemma setLine_fold (line : nat) (messages : list Message)
  (manager manager' : DocumentDecorationManager) (w w' : VSCode.Window)
  (k k' : nat) :
  fold_left (setLineMessage line) messages (manager, w, k)
  = (manager', w', k') ->
  VSCode.visibleTextEditors w' = VSCode.visibleTextEditors w
  /\ VSCode.decorations w' = VSCode.decorations w
  /\ (forall i, (i < k \/ k + length messages <= i)%nat ->
        arrayGet (layers manager') i = arrayGet (layers manager) i)
  /\ (forall j m, messages !! j = Some m ->
        exists l',
          arrayGet (layers manager') (k + j) = Some l'
          /\ arrayGet (lines l') line = Some (lineDecoration line (k + j) m)
          /\ (forall n, n <> line ->
                arrayGet (lines l') n
                = match arrayGet (layers manager) (k + j) with
                  | Some l => arrayGet (lines l) n
                  | None => None
                  end)
          /\ (forall l, arrayGet (layers manager) (k + j) = Some l ->
                type l' = type l))
  /\ (layersWellFormed (layers manager) w ->
      layersWellFormed (layers manager') w').
Proof.
  revert manager w k. induction messages as [|m ms IH]; intros manager w k H.
  - simpl in H. injection H as <- <- <-.
    split; [reflexivity|]. split; [reflexivity|].
    split; [intros; reflexivity|]. split; [|auto].
    intros j m Hj. rewrite lookup_nil in Hj. discriminate.
  - cbn [fold_left] in H.
    destruct (setLineMessage_spec line manager w k m)
      as (m1 & w1 & l1 & Heq & Hv & Hd & _ & Hother & Hk & Hset & Hrest & Ht).
    rewrite Heq in H.
    destruct (IH _ _ _ H) as (Hv' & Hd' & Hout & Hin & Hwf).
    split; [congruence|]. split; [congruence|]. split; [|split].
    + intros i Hi. simpl in Hi. rewrite Hout by lia. apply Hother. lia.
    + intros j mj Hj. destruct j as [|j].
      * simpl in Hj. injection Hj as <-. rewrite Nat.add_0_r.
        exists l1. rewrite Hout by lia. split; [exact Hk|].
        split; [exact Hset|]. split; [exact Hrest|].
        intros l Hl. rewrite Hl in Ht. exact Ht.
      * simpl in Hj. destruct (Hin j mj Hj) as (l' & H1 & H2 & H3 & H4).
        replace (S k + j)%nat with (k + S j)%nat in * by lia.
        exists l'. rewrite Hother in H3, H4 by lia. auto.
    + intros Hwf0. apply Hwf.
      eapply setLineMessage_wellFormed; [exact Heq | exact Hwf0].
Qed.

(** A layer that [setLine] leaves has the type of the layer that was in
    its place, or a type created during the call. *)
Lemma setLine_fold_types (line : nat) (messages : list Message)
  (manager manager' : DocumentDecorationManager) (w w' : VSCode.Window)
  (k k' : nat) :
  fold_left (setLineMessage line) messages (manager, w, k)
  = (manager', w', k') ->
  (VSCode.decorationTypes w <= VSCode.decorationTypes w')%nat
  /\ (forall i l', arrayGet (layers manager') i = Some l' ->
        (exists l, arrayGet (layers manager) i = Some l /\ type l' = type l)
        \/ (VSCode.decorationTypes w <= type l')%nat).
Proof.
  revert manager w k. induction messages as [|m ms IH]; intros manager w k H.
  - simpl in H. injection H as <- <- <-. split; [lia|].
    intros i l' Hi. left. eauto.
  - cbn [fold_left] in H.
    destruct (setLineMessage_spec line manager w k m)
      as (m1 & w1 & l1 & Heq & _ & _ & Hle & Hother & Hk & _ & _ & Ht).
    rewrite Heq in H. destruct (IH _ _ _ H) as (Hle' & Horigin).
    split; [lia|]. intros i l' Hi.
    destruct (Horigin i l' Hi) as [(l & Hl & Hsame) | Hfresh]; [|right; lia].
    destruct (decide (i = k)) as [->|Hne].
    + rewrite Hk in Hl. injection Hl as <-.
      destruct (arrayGet (layers manager) k) as [l0|] eqn:Hold.
      * left. exists l0. split; [reflexivity | congruence].
      * right. destruct Ht as [Ht _]. lia.
    + rewrite Hother in Hl by exact Hne. left. eauto.
Qed.

(** ** The methods of [DocumentDecoration] *)

Lemma setLine_mid (line : nat) (messages : list Message)
  (self : DocumentDecoration) (st : Decorations) :
  exists manager' w' k',
    fold_left (setLineMessage line) messages
      (fst (from (document self) st), window st, 0%nat)
    = (manager', w', k')
    /\ setLine line messages self st
       = renderStep (activate renderCalls 0 tt) self
           (mkDecorations
              (<[document self := manager']>
                 (documents (snd (from (document self) st)))) w').
Proof.
  unfold setLine.
  destruct (from_layersOf (document self) 0 st) as (_ & _ & _ & Hw & _).
  destruct (from (document self) st) as [manager st1]. simpl in *.
  rewrite Hw.
  destruct (fold_left (setLineMessage line) messages
              (manager, window st, 0%nat)) as [[manager' w'] k'].
  eauto.
Qed.

Lemma clearLine_mid (line : nat) (self : DocumentDecoration)
  (st : Decorations) :
  clearLine line self st
  = renderStep (activate renderCalls 0 tt) self
      (mkDecorations
         (<[document self :=
              mkDocumentDecorationManager
                (map (option_map
                        (fun decoration =>
                           mkDocumentDecorationLayer
                             (arrayDelete (lines decoration) line)
                             (type decoration)))
                   (layersOf (document self) st))]>
            (documents (snd (from (document self) st))))
         (window st)).
Proof.
  unfold clearLine.
  destruct (from_layersOf (document self) 0 st) as (Hl & _ & _ & Hw & _).
  destruct (from (document self) st) as [manager st1]. simpl in *.
  rewrite Hl, Hw. reflexivity.
Qed.

Lemma showsLayers_ext (self self' : DocumentDecoration)
  (st st' : Decorations) :
  document self' = document self -> editors self' = editors self ->
  layersOf (document self) st' = layersOf (document self) st ->
  VSCode.decorations (window st') = VSCode.decorations (window st) ->
  showsLayers self st -> showsLayers self' st'.
Proof.
  intros Hd He Hl Hw H i layer e Hi Hin.
  rewrite Hd, Hl in Hi. rewrite He in Hin.
  unfold VSCode.decorationsOf. rewrite Hw. apply (H i layer e Hi Hin).
Qed.

Lemma from_only (document : nat) (st : Decorations) :
  (forall d m, documents st !! d = Some m -> d = document) ->
  forall d m, documents (snd (from document st)) !! d = Some m ->
              d = document.
Proof.
  intros H d m Hd. destruct (decide (d = document)) as [->|Hne];
    [reflexivity|].
  destruct (from_layersOf document 0 st) as (_ & _ & _ & _ & Hother).
  rewrite Hother in Hd by exact Hne. eapply H, Hd.
Qed.

(** A call of [render()] after the layers were changed. *)
Lemma render_after (self : DocumentDecoration) (mid : Decorations) :
  let self' := fst (renderStep (activate renderCalls 0 tt) self mid) in
  let st' := snd (renderStep (activate renderCalls 0 tt) self mid) in
  document self' = document self
  /\ editors self' = editors self
  /\ (forall d, layersOf d st' = layersOf d mid)
  /\ VSCode.decorationTypes (window st') = VSCode.decorationTypes (window mid)
  /\ ((forall d m, documents mid !! d = Some m -> d = document self) ->
      forall d m, documents st' !! d = Some m -> d = document self)
  /\ (Lazy_inv (render self) -> waitTimers (render self) = [] ->
      layersWellFormed (layersOf (document self) mid) (window mid) ->
      Lazy_inv (render self') /\ waitTimers (render self') = []
      /\ (argsNext (render self') = None -> showsLayers self' st')).
Proof.
  intros self' st'. unfold self', st'. clear self' st'.
  pose proof (Lazy_step_inv renderCalls 0 (render self) (Activate tt)) as Hstep.
  simpl in Hstep. unfold activate in Hstep.
  rewrite renderStep_activate.
  destruct (isRunning (render self)) eqn:Hr; simpl in Hstep |- *.
  - split; [reflexivity|]. split; [reflexivity|]. split; [reflexivity|].
    split; [reflexivity|]. split; [auto|].
    intros Hinv Hw Hwf. split; [exact (Hstep Hinv)|]. split; [exact Hw|].
    discriminate.
  - split; [reflexivity|]. split; [reflexivity|].
    split; [intros d; apply renderCallback_layersOf|].
    split.
    { rewrite renderCallback_spec. simpl. apply decorated_window. }
    split.
    { intros H d m. rewrite renderCallback_spec. simpl.
      apply from_only, H. }
    intros Hinv Hw Hwf. split; [apply Hstep, Hinv|]. split; [exact Hw|].
    intros _. intros i layer e Hi He.
    apply (renderCallback_shows self mid Hwf i layer e Hi He).
Qed.

Lemma layersWellFormed_nil (w : VSCode.Window) : layersWellFormed [] w.
Proof.
  split; [|split]; intros *; rewrite arrayGet_nil; discriminate.
Qed.

Lemma layersWellFormed_clear (line : nat)
  (ls : list (option DocumentDecorationLayer)) (w : VSCode.Window) :
  layersWellFormed ls w ->
  layersWellFormed
    (map (option_map
            (fun decoration =>
               mkDocumentDecorationLayer
                 (arrayDelete (lines decoration) line) (type decoration)))
       ls) w.
Proof.
  intros (Hfresh & Hdistinct & Hline). split; [|split].
  - intros i l. rewrite arrayGet_map.
    destruct (arrayGet ls i) as [l0|] eqn:Hi; [|discriminate].
    intros [= <-]. simpl. eapply Hfresh, Hi.
  - intros i j l l'. rewrite !arrayGet_map.
    destruct (arrayGet ls i) as [l0|] eqn:Hi; [|discriminate].
    destruct (arrayGet ls j) as [l1|] eqn:Hj; [|discriminate].
    intros [= <-] [= <-]. simpl. eapply Hdistinct; eassumption.
  - intros i l n d. rewrite arrayGet_map.
    destruct (arrayGet ls i) as [l0|] eqn:Hi; [|discriminate].
    intros [= <-]. simpl. rewrite arrayGet_arrayDelete.
    destruct (decide (line = n)); [discriminate|].
    eapply Hline, Hi.
Qed.

Lemma layersWellFormed_window (ls : list (option DocumentDecorationLayer))
  (w w' : VSCode.Window) :
  VSCode.decorationTypes w' = VSCode.decorationTypes w ->
  layersWellFormed ls w -> layersWellFormed ls w'.
Proof.
  intros Ht (Hfresh & Hrest). split; [|exact Hrest].
  intros i l Hi. rewrite Ht. eapply Hfresh, Hi.
Qed.

Lemma insert_only (document : nat) (manager : DocumentDecorationManager)
  (docs : gmap nat DocumentDecorationManager) :
  (forall d m, docs !! d = Some m -> d = document) ->
  forall d m, <[document := manager]> docs !! d = Some m -> d = document.
Proof.
  intros H d m Hd. destruct (decide (d = document)) as [->|Hne];
    [reflexivity|].
  rewrite lookup_insert_ne in Hd by congruence. eapply H, Hd.
Qed.

(** The loops of [flush] set the empty list for every layer of the
    document on every visible editor of the document. *)
Lemma flush_loops (p : VSCode.TextEditor -> bool)
  (ls : list DocumentDecorationLayer) (w : VSCode.Window) :
  fold_left
    (fun w layer =>
       fold_left
         (fun w e =>
            if p e then VSCode.setDecorations e (type layer) [] w else w)
         (VSCode.visibleTextEditors w) w)
    ls w
  = decorated (fun _ => []) (List.filter p (VSCode.visibleTextEditors w))
      ls w.
Proof.
  induction ls as [|l ls IH] using rev_ind; [reflexivity|].
  rewrite fold_left_app, decorated_snoc, IH. cbn [fold_left].
  rewrite (fold_left_if p
             (fun w e => VSCode.setDecorations e (type l) [] w)).
  destruct (decorated_window (fun _ => [])
              (List.filter p (VSCode.visibleTextEditors w)) ls w) as [-> _].
  reflexivity.
Qed.

Lemma flush_spec (document : nat) (st : Decorations) :
  flush document st
  = mkDecorations (delete document (documents st))
      (decorated (fun _ => [])
         (List.filter (fun e => (VSCode.document e =? document)%nat)
            (VSCode.visibleTextEditors (window st)))
         (arrayValues (layersOf document st)) (window st)).
Proof.
  unfold flush.
  destruct (from_layersOf document 0 st) as (Hl & _ & _ & Hw & _).
  assert (Hdocs : delete document (documents (snd (from document st)))
                  = delete document (documents st)).
  { unfold from. destruct (documents st !! document); simpl; [reflexivity|].
    apply delete_insert_eq. }
  destruct (from document st) as [manager st1]. simpl in *.
  rewrite Hdocs, Hw, Hl. f_equal. apply flush_loops.
Qed.

Lemma Decoration_step_self (self : DocumentDecoration) (st : Decorations)
  (e : DecorationEvent) :
  document (fst (Decoration_step (self, st) e)) = document self
  /\ editors (fst (Decoration_step (self, st) e)) = editors self.
Proof.
  destruct e as [line | line | line name latest installed | | | d | visible];
    cbn [Decoration_step].
  - rewrite clearLine_mid. destruct (render_after self
      (mkDecorations
         (<[document self :=
              mkDocumentDecorationManager
                (map (option_map
                        (fun decoration =>
                           mkDocumentDecorationLayer
                             (arrayDelete (lines decoration) line)
                             (type decoration)))
                   (layersOf (document self) st))]>
            (documents (snd (from (document self) st))))
         (window st))) as (H1 & H2 & _). auto.
  - unfold setCheckingMessage.
    destruct (setLine_mid line [mkMessage "🗘" None] self st)
      as (manager' & w' & k' & _ & ->).
    destruct (render_after self
                (mkDecorations
                   (<[document self := manager']>
                      (documents (snd (from (document self) st)))) w'))
      as (H1 & H2 & _). auto.
  - unfold setUpdateMessage. cbv zeta.
    match goal with
    | |- context [setLine line ?ms self st] =>
        destruct (setLine_mid line ms self st)
          as (manager' & w' & k' & _ & ->)
    end.
    destruct (render_after self
                (mkDecorations
                   (<[document self := manager']>
                      (documents (snd (from (document self) st)))) w'))
      as (H1 & H2 & _). auto.
  - rewrite renderStep_settles. auto.
  - unfold renderStep. auto.
  - auto.
  - auto.
Qed.

(** What [setLine] does to the layers of the document. *)
Lemma setLine_layers (line : nat) (messages : list Message)
  (self : DocumentDecoration) (st : Decorations) :
  let st' := snd (setLine line messages self st) in
  let old := layersOf (document self) st in
  let new := layersOf (document self) st' in
  (forall i, (length messages <= i)%nat -> arrayGet new i = arrayGet old i)
  /\ (forall i m, messages !! i = Some m ->
        exists l',
          arrayGet new i = Some l'
          /\ arrayGet (lines l') line = Some (lineDecoration line i m)
          /\ (forall n, n <> line ->
                arrayGet (lines l') n
                = match arrayGet old i with
                  | Some l => arrayGet (lines l) n
                  | None => None
                  end)
          /\ (forall l, arrayGet old i = Some l -> type l' = type l))
  /\ (forall d, d <> document self -> layersOf d st' = layersOf d st).
Proof.
  intros st' old new. unfold new, old, st'. clear new old st'.
  destruct (setLine_mid line messages self st)
    as (manager' & w' & k' & Hfold & ->).
  destruct (render_after self
              (mkDecorations
                 (<[document self := manager']>
                    (documents (snd (from (document self) st)))) w'))
    as (_ & _ & Hl & _).
  destruct (from_layersOf (document self) 0 st) as (Hfrom & _).
  apply setLine_fold in Hfold as (_ & _ & Hout & Hin & _).
  rewrite Hfrom in Hout, Hin.
  split; [|split].
  - intros i Hi. rewrite Hl, layersOf_insert.
    destruct (decide (document self = document self)); [|congruence].
    apply Hout. right. simpl. exact Hi.
  - intros i m Hi. rewrite Hl, layersOf_insert.
    destruct (decide (document self = document self)); [|congruence].
    apply (Hin i m Hi).
  - intros d Hd. rewrite Hl, layersOf_insert.
    destruct (decide (document self = d)); [congruence|].
    destruct (from_layersOf (document self) d st) as (_ & Hsame & _).
    unfold layersOf in *. simpl. exact Hsame.
Qed.

Lemma setLine_inv (line : nat) (messages : list Message)
  (self : DocumentDecoration) (st : Decorations) :
  Decoration_inv self st ->
  Decoration_inv (fst (setLine line messages self st))
    (snd (setLine line messages self st)).
Proof.
  intros (Honly & Hwf & Hlazy & Hwait & Hshows).
  destruct (setLine_mid line messages self st)
    as (manager' & w' & k' & Hfold & ->).
  set (mid := mkDecorations
                (<[document self := manager']>
                   (documents (snd (from (document self) st)))) w').
  destruct (render_after self mid) as (Hd & He & Hl & Ht & Hkeep & Hrender).
  destruct (from_layersOf (document self) 0 st) as (Hfrom & _).
  apply setLine_fold in Hfold as (_ & _ & _ & _ & Hwf').
  rewrite Hfrom in Hwf'. specialize (Hwf' Hwf).
  assert (Hmid : layersWellFormed (layersOf (document self) mid) (window mid)).
  { unfold mid. rewrite layersOf_insert.
    destruct (decide (document self = document self)); [|congruence].
    exact Hwf'. }
  destruct (Hrender Hlazy Hwait Hmid) as (Hlazy' & Hwait' & Hshows').
  split; [|split; [|split; [|split]]].
  - rewrite Hd. apply Hkeep. unfold mid. simpl.
    apply insert_only, from_only, Honly.
  - rewrite Hd, Hl. eapply layersWellFormed_window; [exact Ht | exact Hmid].
  - exact Hlazy'.
  - exact Hwait'.
  - exact Hshows'.
Qed.

Lemma clearLine_inv (line : nat) (self : DocumentDecoration)
  (st : Decorations) :
  Decoration_inv self st ->
  Decoration_inv (fst (clearLine line self st)) (snd (clearLine line self st)).
Proof.
  intros (Honly & Hwf & Hlazy & Hwait & Hshows).
  rewrite clearLine_mid.
  match goal with
  | |- context [renderStep _ self ?m] => set (mid := m)
  end.
  destruct (render_after self mid) as (Hd & He & Hl & Ht & Hkeep & Hrender).
  assert (Hmid : layersWellFormed (layersOf (document self) mid) (window mid)).
  { unfold mid. rewrite layersOf_insert.
    destruct (decide (document self = document self)); [|congruence].
    simpl. apply layersWellFormed_clear, Hwf. }
  destruct (Hrender Hlazy Hwait Hmid) as (Hlazy' & Hwait' & Hshows').
  split; [|split; [|split; [|split]]].
  - rewrite Hd. apply Hkeep. unfold mid. simpl.
    apply insert_only, from_only, Honly.
  - rewrite Hd, Hl. eapply layersWellFormed_window; [exact Ht | exact Hmid].
  - exact Hlazy'.
  - exact Hwait'.
  - exact Hshows'.
Qed.

Lemma Decoration_step_inv (self : DocumentDecoration) (st : Decorations)
  (e : DecorationEvent) :
  Decoration_inv self st ->
  Decoration_inv (fst (Decoration_step (self, st) e))
    (snd (Decoration_step (self, st) e)).
Proof.
  intros Hinv.
  destruct e as [line | line | line name latest installed | | | d | visible];
    cbn [Decoration_step].
  - apply clearLine_inv, Hinv.
  - apply setLine_inv, Hinv.
  - apply setLine_inv, Hinv.
  - destruct Hinv as (Honly & Hwf & Hlazy & Hwait & Hshows).
    rewrite renderStep_settles. simpl.
    pose proof (Lazy_step_inv renderCalls 0 (render self) (Settles 0 true)
                  Hlazy) as Hs.
    simpl in Hs.
    assert (Hsame : argsNext (settles 0 true (render self))
                    = argsNext (render self)
                    /\ waitTimers (settles 0 true (render self))
                       = waitTimers (render self)).
    { unfold settles. destruct (inFlight (render self) !! 0%nat); auto. }
    destruct Hsame as [Ha Hw].
    split; [exact Honly|]. split; [exact Hwf|]. split; [exact Hs|].
    cbn [render]. split; [congruence|].
    rewrite Ha. intros Hnone. eapply showsLayers_ext; try reflexivity.
    apply Hshows, Hnone.
  - pose proof Hinv as (Honly & Hwf & Hlazy & Hwait & Hshows).
    pose proof (Lazy_step_inv renderCalls 0 (render self) DelayFires Hlazy)
      as Hs.
    simpl in Hs. unfold delayFires in Hs.
    rewrite renderStep_delayFires by exact Hwait.
    destruct (delayTimers (render self)) as [|n] eqn:Hd; [exact Hinv|].
    destruct (argsNext (render self)) as [[]|] eqn:Ha; simpl in Hs |- *.
    + unfold activate in Hs. simpl in Hs. rewrite Hwait in Hs.
      split; [|split; [|split; [|split]]]; simpl.
      * intros d m. rewrite renderCallback_spec. simpl.
        apply from_only, Honly.
      * rewrite renderCallback_layersOf.
        eapply layersWellFormed_window; [|exact Hwf].
        rewrite renderCallback_spec. simpl. apply decorated_window.
      * exact Hs.
      * reflexivity.
      * intros _ i layer e Hi He.
        apply (renderCallback_shows self st Hwf i layer e Hi He).
    + rewrite Hwait in Hs.
      split; [exact Honly|]. split; [exact Hwf|]. split; [exact Hs|].
      split; [reflexivity|]. simpl. intros _.
      eapply showsLayers_ext; try reflexivity. apply Hshows. reflexivity.
  - destruct Hinv as (Honly & Hwf & Hlazy & Hwait & Hshows).
    rewrite flush_spec. simpl.
    destruct (decide (d = document self)) as [->|Hne].
    + assert (Hnil : layersOf (document self)
                       (mkDecorations (delete (document self) (documents st))
                          (decorated (fun _ => [])
                             (List.filter
                                (fun e =>
                                   (VSCode.document e =? document self)%nat)
                                (VSCode.visibleTextEditors (window st)))
                             (arrayValues (layersOf (document self) st))
                             (window st)))
                     = []).
      { unfold layersOf at 1. simpl. rewrite lookup_delete_eq. reflexivity. }
      split; [|split; [|split; [|split]]].
      * intros d m Hd. simpl in Hd.
        destruct (decide (d = document self)) as [->|Hne]; [reflexivity|].
        rewrite lookup_delete_ne in Hd by congruence. eapply Honly, Hd.
      * rewrite Hnil. apply layersWellFormed_nil.
      * exact Hlazy.
      * exact Hwait.
      * intros _ i layer e Hi. rewrite Hnil, arrayGet_nil in Hi.
        discriminate.
    + assert (Hnone : documents st !! d = None).
      { destruct (documents st !! d) as [m|] eqn:Hd; [|reflexivity].
        destruct (Hne (Honly d m Hd)). }
      assert (Hls : layersOf d st = []).
      { unfold layersOf. rewrite Hnone. reflexivity. }
      rewrite Hls, (delete_id _ _ Hnone). simpl.
      split; [exact Honly|]. split; [exact Hwf|]. split; [exact Hlazy|].
      split; [exact Hwait|]. exact Hshows.
  - destruct Hinv as (Honly & Hwf & Hlazy & Hwait & Hshows). simpl.
    split; [exact Honly|].
    split; [eapply layersWellFormed_window; [|exact Hwf]; reflexivity|].
    split; [exact Hlazy|]. split; [exact Hwait|].
    intros Hnone. eapply showsLayers_ext; try reflexivity.
    apply Hshows, Hnone.
Qed.

Lemma Decoration_run_snoc (document : nat) (w : VSCode.Window)
  (es : list DecorationEvent) (e : DecorationEvent) :
  Decoration_run document w (es ++ [e])
  = Decoration_step (Decoration_run document w es) e.
Proof. unfold Decoration_run. rewrite fold_left_app. reflexivity. Qed.

Lemma Decoration_run_inv (doc : nat) (w : VSCode.Window)
  (es : list DecorationEvent) :
  let s := Decoration_run doc w es in
  Decoration_inv (fst s) (snd s)
  /\ document (fst s) = doc
  /\ editors (fst s)
     = List.filter (fun e => (VSCode.document e =? doc)%nat)
         (VSCode.visibleTextEditors w).
Proof.
  induction es as [|e es IH] using rev_ind.
  - simpl. split; [|auto].
    split; [|split; [|split; [|split]]]; simpl.
    + intros d m Hd. rewrite lookup_empty in Hd. discriminate.
    + apply layersWellFormed_nil.
    + split; simpl; [auto | lia].
    + reflexivity.
    + intros _ i layer e Hi. unfold layersOf in Hi. simpl in Hi.
      rewrite lookup_empty, arrayGet_nil in Hi. discriminate.
  - rewrite Decoration_run_snoc. cbv zeta in IH.
    destruct (Decoration_run doc w es) as [self st]. simpl in IH.
    destruct IH as (Hinv & Hd & He).
    destruct (Decoration_step_self self st e) as [Hd' He'].
    split; [apply Decoration_step_inv, Hinv|]. split; congruence.
Qed.

Lemma renderStep_layersOf (step : Lazy unit -> Lazy unit)
  (self : DocumentDecoration) (st : Decorations) (d : nat) :
  layersOf d (snd (renderStep step self st)) = layersOf d st.
Proof.
  unfold renderStep. simpl.
  generalize (drop (length (invoked (render self)))
                (invoked (step (render self)))).
  intros l. revert st. induction l as [|u l IH]; intros st; simpl;
    [reflexivity|].
  rewrite IH. apply renderCallback_layersOf.
Qed.

Lemma clearLine_layers (line : nat) (self : DocumentDecoration)
  (st : Decorations) :
  layersOf (document self) (snd (clearLine line self st))
  = map (option_map
           (fun decoration =>
              mkDocumentDecorationLayer
                (arrayDelete (lines decoration) line) (type decoration)))
      (layersOf (document self) st).
Proof.
  rewrite clearLine_mid, renderStep_layersOf, layersOf_insert.
  destruct (decide (document self = document self)); [|congruence].
  reflexivity.
Qed.

Lemma flush_layersOf (d d' : nat) (st : Decorations) :
  layersOf d' (flush d st)
  = if decide (d = d') then [] else layersOf d' st.
Proof.
  rewrite flush_spec. unfold layersOf. simpl.
  destruct (decide (d = d')) as [<-|Hne].
  - rewrite lookup_delete_eq. reflexivity.
  - rewrite lookup_delete_ne by exact Hne. reflexivity.
Qed.

Lemma clearLine_lineFree (line : nat) (self : DocumentDecoration)
  (st : Decorations) :
  lineFree line (layersOf (document self) (snd (clearLine line self st))).
Proof.
  rewrite clearLine_layers. intros i l. rewrite arrayGet_map.
  destruct (arrayGet (layersOf (document self) st) i) as [l0|];
    [|discriminate].
  intros [= <-]. simpl. rewrite arrayGet_arrayDelete.
  destruct (decide (line = line)); [reflexivity | congruence].
Qed.

Lemma setLine_lineFree (line line' : nat) (messages : list Message)
  (self : DocumentDecoration) (st : Decorations) :
  line' <> line ->
  lineFree line (layersOf (document self) st) ->
  lineFree line
    (layersOf (document self) (snd (setLine line' messages self st))).
Proof.
  intros Hne Hfree i l Hi.
  destruct (setLine_layers line' messages self st) as (Hout & Hin & _).
  destruct (Nat.lt_ge_cases i (length messages)) as [Hlt|Hge].
  - destruct (lookup_lt_is_Some_2 messages i Hlt) as [m Hm].
    destruct (Hin i m Hm) as (l' & Hl' & _ & Hrest & _).
    rewrite Hi in Hl'. injection Hl' as <-.
    rewrite Hrest by congruence.
    destruct (arrayGet (layersOf (document self) st) i) as [l0|] eqn:Hold;
      [|reflexivity].
    eapply Hfree, Hold.
  - rewrite Hout in Hi by exact Hge. eapply Hfree, Hi.
Qed.

Lemma lineFree_step (line : nat) (self : DocumentDecoration)
  (st : Decorations) (e : DecorationEvent) :
  setsLine line e = false ->
  lineFree line (layersOf (document self) st) ->
  lineFree line
    (layersOf (document self) (snd (Decoration_step (self, st) e))).
Proof.
  intros Hquiet Hfree.
  destruct e as [l | l | l name latest installed | | | d | visible];
    cbn [Decoration_step setsLine] in *.
  - rewrite clearLine_layers. intros i x. rewrite arrayGet_map.
    destruct (arrayGet (layersOf (document self) st) i) as [l0|] eqn:Hold;
      [|discriminate].
    intros [= <-]. simpl. rewrite arrayGet_arrayDelete.
    destruct (decide (l = line)); [reflexivity|]. eapply Hfree, Hold.
  - apply Nat.eqb_neq in Hquiet. apply setLine_lineFree; assumption.
  - apply Nat.eqb_neq in Hquiet. apply setLine_lineFree; assumption.
  - rewrite renderStep_layersOf. exact Hfree.
  - rewrite renderStep_layersOf. exact Hfree.
  - simpl. rewrite flush_layersOf.
    destruct (decide (d = document self)); [|exact Hfree].
    intros i x Hi. rewrite arrayGet_nil in Hi. discriminate.
  - exact Hfree.
Qed.

Lemma decorated_const (opts : list VSCode.DecorationOptions)
  (editors : list VSCode.TextEditor) (ls : list DocumentDecorationLayer)
  (w : VSCode.Window) (l : DocumentDecorationLayer) (e : VSCode.TextEditor) :
  In l ls -> In e editors ->
  VSCode.decorations (decorated (fun _ => opts) editors ls w)
    !! (VSCode.editor e, type l)
  = Some opts.
Proof.
  intros Hl He. induction ls as [|x ls IH] using rev_ind; [contradiction|].
  rewrite decorated_snoc.
  destruct (decide (type l = type x)) as [Heq|Hne].
  - rewrite Heq. apply setEach_set, He.
  - rewrite setEach_other by (left; exact Hne). apply IH.
    apply in_app_or in Hl as [Hl | [<- | []]]; [exact Hl | congruence].
Qed.

(** ** An instance created on existing layers *)

(** The layers of the other documents stay apart as long as a step keeps
    them, creates types only, and gives the layers of the document the
    types they had or new ones. *)
Lemma othersApart_ext (doc : nat) (st st' : Decorations) :
  (forall d i l, d <> doc -> arrayGet (layersOf d st') i = Some l ->
                 exists i0, arrayGet (layersOf d st) i0 = Some l) ->
  (VSCode.decorationTypes (window st)
   <= VSCode.decorationTypes (window st'))%nat ->
  (forall j l', arrayGet (layersOf doc st') j = Some l' ->
     (exists j0 l0, arrayGet (layersOf doc st) j0 = Some l0
                    /\ type l' = type l0)
     \/ (VSCode.decorationTypes (window st) <= type l')%nat) ->
  othersApart doc st -> othersApart doc st'.
Proof.
  intros Hkeep Hle Horigin Hapart d i l Hd Hi.
  destruct (Hkeep d i l Hd Hi) as [i0 Hi0].
  destruct (Hapart d i0 l Hd Hi0) as [Hbelow Hdiff].
  split; [lia|]. intros j l' Hj.
  destruct (Horigin j l' Hj) as [(j0 & l0 & Hl0 & Hsame) | Hfresh]; [|lia].
  rewrite Hsame. eapply Hdiff, Hl0.
Qed.

Lemma layersOf_flush (d d' : nat) (st : Decorations) :
  layersOf d' (flush d st) = if decide (d = d') then [] else layersOf d' st.
Proof.
  rewrite flush_spec. unfold layersOf. simpl.
  destruct (decide (d = d')) as [<-|Hne].
  - rewrite lookup_delete_eq. reflexivity.
  - rewrite lookup_delete_ne by exact Hne. reflexivity.
Qed.

Lemma flush_window (d : nat) (st : Decorations) :
  VSCode.decorationTypes (window (flush d st))
  = VSCode.decorationTypes (window st).
Proof. rewrite flush_spec. simpl. apply decorated_window. Qed.

Lemma render_after_invoked (self : DocumentDecoration) (mid : Decorations) :
  (isRunning (render self) = true -> invoked (render self) <> []) ->
  invoked (render (fst (renderStep (activate renderCalls 0 tt) self mid)))
  <> [].
Proof.
  intros Hrun. rewrite renderStep_activate.
  destruct (isRunning (render self)); simpl; [auto|].
  destruct (invoked (render self)); discriminate.
Qed.

Lemma render_after_running (self : DocumentDecoration) (mid : Decorations) :
  isRunning (render (fst (renderStep (activate renderCalls 0 tt) self mid)))
  = true.
Proof.
  rewrite renderStep_activate. destruct (isRunning (render self)); reflexivity.
Qed.

Lemma setLine_painted (line : nat) (messages : list Message)
  (self : DocumentDecoration) (st : Decorations) :
  Decoration_painted self st ->
  Decoration_painted (fst (setLine line messages self st))
    (snd (setLine line messages self st))
  /\ invoked (render (fst (setLine line messages self st))) <> [].
Proof.
  intros (Hapart & Hwf & Hlazy & Hwait & Hrun & Hshows).
  destruct (setLine_mid line messages self st)
    as (manager' & w' & k' & Hfold & ->).
  set (mid := mkDecorations
                (<[document self := manager']>
                   (documents (snd (from (document self) st)))) w').
  destruct (render_after self mid) as (Hd & He & Hl & Ht & _ & Hrender).
  pose proof (render_after_invoked self mid Hrun) as Hinvoked.
  destruct (from_layersOf (document self) 0 st) as (Hfrom & _).
  pose proof Hfold as Htypes.
  apply setLine_fold_types in Htypes as (Hle & Horigin).
  apply setLine_fold in Hfold as (_ & _ & _ & _ & Hwf').
  rewrite Hfrom in Hwf', Horigin. specialize (Hwf' Hwf).
  assert (Hmid : layersWellFormed (layersOf (document self) mid) (window mid)).
  { unfold mid. rewrite layersOf_insert.
    destruct (decide (document self = document self)); [|congruence].
    exact Hwf'. }
  destruct (Hrender Hlazy Hwait Hmid) as (Hlazy' & Hwait' & Hshows').
  split; [|exact Hinvoked].
  split; [|split; [|split; [|split; [|split]]]].
  - rewrite Hd. eapply othersApart_ext; [| | |exact Hapart].
    + intros d i l Hne Hi. exists i. rewrite Hl in Hi. unfold mid in Hi.
      rewrite layersOf_insert in Hi.
      destruct (decide (document self = d)); [congruence|].
      destruct (from_layersOf (document self) d st) as (_ & Hsame & _).
      unfold layersOf in *. simpl in Hi. rewrite <- Hsame. exact Hi.
    + rewrite Ht. unfold mid. simpl. exact Hle.
    + intros j l' Hj. rewrite Hl in Hj. unfold mid in Hj.
      rewrite layersOf_insert in Hj.
      destruct (decide (document self = document self)); [|congruence].
      destruct (Horigin j l' Hj) as [(l0 & Hl0 & Hsame) | Hfresh]; eauto.
  - rewrite Hd, Hl. eapply layersWellFormed_window; [exact Ht | exact Hmid].
  - exact Hlazy'.
  - exact Hwait'.
  - intros _. exact Hinvoked.
  - intros Hnone _. apply Hshows', Hnone.
Qed.

Lemma clearLine_painted (line : nat) (self : DocumentDecoration)
  (st : Decorations) :
  Decoration_painted self st ->
  Decoration_painted (fst (clearLine line self st))
    (snd (clearLine line self st))
  /\ invoked (render (fst (clearLine line self st))) <> [].
Proof.
  intros (Hapart & Hwf & Hlazy & Hwait & Hrun & Hshows).
  rewrite clearLine_mid.
  match goal with
  | |- context [renderStep _ self ?m] => set (mid := m)
  end.
  destruct (render_after self mid) as (Hd & He & Hl & Ht & _ & Hrender).
  pose proof (render_after_invoked self mid Hrun) as Hinvoked.
  assert (Hmid : layersWellFormed (layersOf (document self) mid) (window mid)).
  { unfold mid. rewrite layersOf_insert.
    destruct (decide (document self = document self)); [|congruence].
    simpl. apply layersWellFormed_clear, Hwf. }
  destruct (Hrender Hlazy Hwait Hmid) as (Hlazy' & Hwait' & Hshows').
  split; [|exact Hinvoked].
  split; [|split; [|split; [|split; [|split]]]].
  - rewrite Hd. eapply othersApart_ext; [| | |exact Hapart].
    + intros d i l Hne Hi. exists i. rewrite Hl in Hi. unfold mid in Hi.
      rewrite layersOf_insert in Hi.
      destruct (decide (document self = d)); [congruence|].
      destruct (from_layersOf (document self) d st) as (_ & Hsame & _).
      unfold layersOf in *. simpl in Hi. rewrite <- Hsame. exact Hi.
    + rewrite Ht. unfold mid. simpl. lia.
    + intros j l' Hj. rewrite Hl in Hj. unfold mid in Hj.
      rewrite layersOf_insert in Hj.
      destruct (decide (document self = document self)); [|congruence].
      simpl in Hj. rewrite arrayGet_map in Hj.
      destruct (arrayGet (layersOf (document self) st) j) as [l0|] eqn:Hl0;
        [|discriminate].
      injection Hj as <-. left. exists j, l0. auto.
  - rewrite Hd, Hl. eapply layersWellFormed_window; [exact Ht | exact Hmid].
  - exact Hlazy'.
  - exact Hwait'.
  - intros _. exact Hinvoked.
  - intros Hnone _. apply Hshows', Hnone.
Qed.

Lemma othersApart_same (doc : nat) (st st' : Decorations) :
  (forall d, layersOf d st' = layersOf d st) ->
  VSCode.decorationTypes (window st') = VSCode.decorationTypes (window st) ->
  othersApart doc st -> othersApart doc st'.
Proof.
  intros Hl Ht. apply othersApart_ext.
  - intros d i l _ Hi. rewrite Hl in Hi. eauto.
  - lia.
  - intros j l' Hj. rewrite Hl in Hj. left. eauto.
Qed.

Lemma Decoration_step_painted (self : DocumentDecoration) (st : Decorations)
  (e : DecorationEvent) :
  Decoration_painted self st ->
  Decoration_painted (fst (Decoration_step (self, st) e))
    (snd (Decoration_step (self, st) e))
  /\ (invoked (render self) <> [] \/ paints e = true ->
      invoked (render (fst (Decoration_step (self, st) e))) <> []).
Proof.
  intros Hinv.
  destruct e as [line | line | line name latest installed | | | d | visible];
    cbn [Decoration_step paints].
  - destruct (clearLine_painted line self st Hinv) as [H1 H2]. auto.
  - destruct (setLine_painted line [mkMessage "🗘" None] self st Hinv)
      as [H1 H2]. auto.
  - unfold setUpdateMessage. cbv zeta.
    match goal with
    | |- context [setLine line ?ms self st] =>
        destruct (setLine_painted line ms self st Hinv) as [H1 H2]
    end.
    auto.
  - destruct Hinv as (Hapart & Hwf & Hlazy & Hwait & Hrun & Hshows).
    rewrite renderStep_settles. simpl.
    pose proof (Lazy_step_inv renderCalls 0 (render self) (Settles 0 true)
                  Hlazy) as Hs.
    simpl in Hs.
    assert (Hsame : argsNext (settles 0 true (render self))
                    = argsNext (render self)
                    /\ waitTimers (settles 0 true (render self))
                       = waitTimers (render self)
                    /\ invoked (settles 0 true (render self))
                       = invoked (render self)
                    /\ isRunning (settles 0 true (render self))
                       = isRunning (render self)).
    { unfold settles. destruct (inFlight (render self) !! 0%nat); auto. }
    destruct Hsame as (Ha & Hw & Hi & Hr).
    split.
    + split; [exact Hapart|]. split; [exact Hwf|]. split; [exact Hs|].
      cbn [render]. split; [congruence|].
      split; [rewrite Hr, Hi; exact Hrun|].
      rewrite Ha, Hi. intros Hnone Hpainted.
      eapply showsLayers_ext; try reflexivity.
      apply Hshows; assumption.
    + rewrite Hi. intros [H | H]; [exact H | discriminate].
  - pose proof Hinv as (Hapart & Hwf & Hlazy & Hwait & Hrun & Hshows).
    pose proof (Lazy_step_inv renderCalls 0 (render self) DelayFires Hlazy)
      as Hs.
    simpl in Hs. unfold delayFires in Hs.
    rewrite renderStep_delayFires by exact Hwait.
    destruct (delayTimers (render self)) as [|n] eqn:Hd;
      [split; [exact Hinv | intros [H | H]; [exact H | discriminate]]|].
    destruct (argsNext (render self)) as [[]|] eqn:Ha; simpl in Hs |- *.
    + unfold start, invoke in Hs. simpl in Hs. rewrite Hwait in Hs.
      split; [|intros _; destruct (invoked (render self)); discriminate].
      split; [|split; [|split; [|split; [|split]]]]; simpl.
      * eapply othersApart_same; [| |exact Hapart].
        -- intros d. apply renderCallback_layersOf.
        -- rewrite renderCallback_spec. simpl. apply decorated_window.
      * rewrite renderCallback_layersOf.
        eapply layersWellFormed_window; [|exact Hwf].
        rewrite renderCallback_spec. simpl. apply decorated_window.
      * exact Hs.
      * reflexivity.
      * intros _. destruct (invoked (render self)); discriminate.
      * intros _ _ i layer e Hi He.
        apply (renderCallback_shows self st Hwf i layer e Hi He).
    + rewrite Hwait in Hs.
      split; [|intros [H | H]; [exact H | discriminate]].
      split; [exact Hapart|]. split; [exact Hwf|]. split; [exact Hs|].
      split; [reflexivity|]. simpl. split; [discriminate|].
      intros _ Hpainted.
      eapply showsLayers_ext; try reflexivity. apply Hshows; auto.
  - destruct Hinv as (Hapart & Hwf & Hlazy & Hwait & Hrun & Hshows).
    simpl. split; [|intros [H | H]; [exact H | discriminate]].
    split; [|split; [|split; [|split; [|split]]]].
    + eapply othersApart_ext; [| | |exact Hapart].
      * intros d' i l Hne Hi. rewrite layersOf_flush in Hi.
        destruct (decide (d = d')); [rewrite arrayGet_nil in Hi; discriminate|].
        eauto.
      * rewrite flush_window. lia.
      * intros j l' Hj. rewrite layersOf_flush in Hj.
        destruct (decide (d = document self));
          [rewrite arrayGet_nil in Hj; discriminate|].
        left. eauto.
    + rewrite layersOf_flush.
      destruct (decide (d = document self)); [apply layersWellFormed_nil|].
      eapply layersWellFormed_window; [apply flush_window | exact Hwf].
    + exact Hlazy.
    + exact Hwait.
    + exact Hrun.
    + intros Hnone Hpainted i layer e Hi He. rewrite layersOf_flush in Hi.
      destruct (decide (d = document self)) as [->|Hne];
        [rewrite arrayGet_nil in Hi; discriminate|].
      rewrite <- (Hshows Hnone Hpainted i layer e Hi He).
      unfold VSCode.decorationsOf. f_equal.
      rewrite flush_spec. simpl. apply decorated_other. left.
      intros l [k Hk]%In_arrayValues Heq.
      destruct (Hapart d k l Hne Hk) as [_ Hdiff].
      apply (Hdiff i layer Hi). congruence.
  - destruct Hinv as (Hapart & Hwf & Hlazy & Hwait & Hrun & Hshows). simpl.
    split; [|intros [H | H]; [exact H | discriminate]].
    split; [eapply othersApart_same; [| |exact Hapart]; reflexivity|].
    split; [eapply layersWellFormed_window; [|exact Hwf]; reflexivity|].
    split; [exact Hlazy|]. split; [exact Hwait|]. split; [exact Hrun|].
    intros Hnone Hpainted. eapply showsLayers_ext; try reflexivity.
    apply Hshows; assumption.
Qed.

Lemma Decoration_from_snoc (doc : nat) (st0 : Decorations)
  (es : list DecorationEvent) (e : DecorationEvent) :
  Decoration_from doc st0 (es ++ [e])
  = Decoration_step (Decoration_from doc st0 es) e.
Proof. unfold Decoration_from. rewrite fold_left_app. reflexivity. Qed.

Lemma Decoration_from_painted (doc : nat) (st0 : Decorations)
  (es : list DecorationEvent) :
  layersWellFormed (layersOf doc st0) (window st0) ->
  othersApart doc st0 ->
  let s := Decoration_from doc st0 es in
  Decoration_painted (fst s) (snd s)
  /\ document (fst s) = doc
  /\ editors (fst s)
     = List.filter (fun e => (VSCode.document e =? doc)%nat)
         (VSCode.visibleTextEditors (window st0))
  /\ (existsb paints es = true -> invoked (render (fst s)) <> []).
Proof.
  intros Hwf Hapart. induction es as [|e es IH] using rev_ind.
  - simpl. split; [|split; [reflexivity|split; [reflexivity|discriminate]]].
    split; [exact Hapart|]. split; [exact Hwf|]. simpl.
    split; [split; simpl; [auto | lia]|].
    split; [reflexivity|]. split; [discriminate|].
    intros _ H. destruct (H eq_refl).
  - rewrite Decoration_from_snoc. cbv zeta in IH.
    destruct (Decoration_from doc st0 es) as [self st]. simpl in IH.
    destruct IH as (Hinv & Hd & He & Hpaint).
    destruct (Decoration_step_self self st e) as [Hd' He'].
    destruct (Decoration_step_painted self st e Hinv) as [Hinv' Hinvoked].
    split; [exact Hinv'|]. split; [congruence|]. split; [congruence|].
    rewrite existsb_app. simpl. rewrite orb_false_r.
    intros [H | H]%orb_prop; apply Hinvoked; auto.
Qed.

(** X15. Take a [DocumentDecoration] created for a document on any
    layers, those of other documents included (the decoration types of
    the layers being distinct and created by the window), and any
    sequence of events of this instance and of the window.  While the
    trigger of [render] is idle no call is pending.  And once a method of
    the instance has set or cleared a line, whenever no call of [render]
    is pending, every editor that showed the document when the instance
    was created shows, for every layer of the document, the decorations
    of the layer, by ascending line: a change of the layers is never left
    unpainted.  (Before its first call the instance has painted nothing:
    layers it found need not be shown.) *)
Theorem idle_editors_show_layers (doc : nat) (st0 : Decorations)
  (es : list DecorationEvent) :
  layersWellFormed (layersOf doc st0) (window st0) ->
  othersApart doc st0 ->
  let self := fst (Decoration_from doc st0 es) in
  let st := snd (Decoration_from doc st0 es) in
  (isRunning (render self) = false -> argsNext (render self) = None)
  /\ (argsNext (render self) = None -> existsb paints es = true ->
      forall i layer e,
        arrayGet (layersOf doc st) i = Some layer ->
        In e (VSCode.visibleTextEditors (window st0)) ->
        VSCode.document e = doc ->
        VSCode.decorationsOf (window st) e (type layer)
        = arrayValues (lines layer)).
Proof.
  intros Hwf Hapart self st.
  destruct (Decoration_from_painted doc st0 es Hwf Hapart)
    as ((_ & _ & [Hidle _] & _ & _ & Hshows) & Hd & He & Hpaint).
  fold self in Hidle, Hshows, Hd, He, Hpaint. fold st in Hshows.
  split; [intros Hr; apply (Hidle Hr)|].
  intros Hnone Hes i layer e Hi Hin Hdoc.
  apply (Hshows Hnone (Hpaint Hes) i layer e); [rewrite Hd; exact Hi|].
  rewrite He. apply filter_In. split; [exact Hin|].
  apply Nat.eqb_eq, Hdoc.
Qed.

Lemma idle_editors_show_layers_witness :
  let st0 :=
    mkDecorations
      (<[7%nat := mkDocumentDecorationManager
                    [Some (mkDocumentDecorationLayer [] 0)]]>
         (<[8%nat := mkDocumentDecorationManager
                       [Some (mkDocumentDecorationLayer [] 1)]]> ∅))
      (VSCode.mkWindow [VSCode.mkTextEditor 0 7; VSCode.mkTextEditor 1 8]
         ∅ 2) in
  let st :=
    snd (Decoration_from 7 st0 [SetCheckingMessage 3; Flush 8; Resume; Timer])
  in
  exists layer,
    arrayGet (layersOf 7 st) 0 = Some layer
    /\ VSCode.decorationsOf (window st) (VSCode.mkTextEditor 0 7) (type layer)
       = arrayValues (lines layer).
Proof.
  intros st0 st.
  eexists. split; [vm_compute; reflexivity|].
  destruct (idle_editors_show_layers 7 st0
              [SetCheckingMessage 3; Flush 8; Resume; Timer]) as [_ H].
  - split; [|split].
    + intros i l Hi. destruct i as [|i]; vm_compute in Hi; [|discriminate].
      injection Hi as <-. vm_compute. lia.
    + intros i j l l' Hi Hj _.
      destruct i as [|i]; vm_compute in Hi; [|discriminate].
      destruct j as [|j]; vm_compute in Hj; [|discriminate].
      reflexivity.
    + intros i l n d Hi Hn.
      destruct i as [|i]; vm_compute in Hi; [|discriminate].
      injection Hi as <-. vm_compute in Hn. discriminate.
  - intros d i l Hd Hi. unfold layersOf, st0 in Hi. simpl in Hi.
    rewrite lookup_insert_ne in Hi by congruence.
    destruct (decide (d = 8%nat)) as [->|Hne].
    + rewrite lookup_insert_eq in Hi.
      destruct i as [|i]; vm_compute in Hi; [|discriminate].
      injection Hi as <-. split; [vm_compute; lia|].
      intros j l' Hj. unfold layersOf in Hj. simpl in Hj.
      rewrite lookup_insert_eq in Hj.
      destruct j as [|j]; vm_compute in Hj; [|discriminate].
      injection Hj as <-. discriminate.
    + rewrite lookup_insert_ne, lookup_empty in Hi by congruence.
      vm_compute in Hi. discriminate.
  - apply (H eq_refl eq_refl 0%nat); [vm_compute; reflexivity | | reflexivity].
    simpl. auto.
Defined.

(** X16. [setLine(line, messages)] writes the message [i] to line [line]
    of layer [i], creating the layer when it is missing, and nothing
    else: the other lines of these layers and the decoration types of
    existing layers stay, and so does every layer from the number of
    messages on, with what it holds for the line.  A message that an
    earlier, longer call left on the line is not removed. *)
Theorem setLine_writes_leading_layers (line : nat) (messages : list Message)
  (self : DocumentDecoration) (st : Decorations) :
  let st' := snd (setLine line messages self st) in
  let old := layersOf (document self) st in
  let new := layersOf (document self) st' in
  (forall i m, messages !! i = Some m ->
     exists l',
       arrayGet new i = Some l'
       /\ arrayGet (lines l') line = Some (lineDecoration line i m)
       /\ (forall n, n <> line ->
             arrayGet (lines l') n
             = match arrayGet old i with
               | Some l => arrayGet (lines l) n
               | None => None
               end)
       /\ (forall l, arrayGet old i = Some l -> type l' = type l))
  /\ (forall i, (length messages <= i)%nat -> arrayGet new i = arrayGet old i)
  /\ (forall d, d <> document self -> layersOf d st' = layersOf d st).
Proof.
  intros st' old new.
  destruct (setLine_layers line messages self st) as (Hout & Hin & Hother).
  split; [exact Hin|]. split; [exact Hout | exact Hother].
Qed.

(** X17. Once [clearLine(line)] was called and no message was set on the
    line since, then, whenever no call of [render] is pending, no editor
    of the [DocumentDecoration] shows a decoration on that line in any
    layer of the document. *)
Theorem cleared_line_shows_nothing (doc : nat) (w : VSCode.Window)
  (es1 es2 : list DecorationEvent) (line : nat) :
  forallb (fun e => negb (setsLine line e)) es2 = true ->
  let self := fst (Decoration_run doc w (es1 ++ ClearLine line :: es2)) in
  let st := snd (Decoration_run doc w (es1 ++ ClearLine line :: es2)) in
  argsNext (render self) = None ->
  forall i layer e d,
    arrayGet (layersOf doc st) i = Some layer ->
    In e (VSCode.visibleTextEditors w) -> VSCode.document e = doc ->
    In d (VSCode.decorationsOf (window st) e (type layer)) ->
    VSCode.line (VSCode.start (VSCode.range d)) <> line.
Proof.
  intros Hquiet self st Hnone i layer e d Hi Hin Hdoc Hd.
  destruct (Decoration_run_inv doc w (es1 ++ ClearLine line :: es2))
    as ((_ & (_ & _ & Hline) & _ & _ & Hshows) & Hself & He).
  fold self in Hline, Hshows, Hself, He. fold st in Hline, Hshows.
  rewrite Hself in Hline.
  assert (Hfree : lineFree line (layersOf doc st)).
  { unfold st, Decoration_run. rewrite fold_left_app. cbn [fold_left].
    fold (Decoration_run doc w es1).
    destruct (Decoration_run_inv doc w es1) as (_ & Hd1 & _).
    destruct (Decoration_run doc w es1) as [self1 st1]. simpl in Hd1.
    cbn [Decoration_step].
    pose proof (clearLine_lineFree line self1 st1) as Hfree.
    destruct (Decoration_step_self self1 st1 (ClearLine line)) as [Hd2 _].
    cbn [Decoration_step] in Hd2.
    destruct (clearLine line self1 st1) as [self2 st2]. simpl in Hfree, Hd2.
    assert (Hdoc2 : document self2 = doc) by congruence.
    rewrite <- Hd2 in Hfree.
    clear Hd1 Hd2 Hi Hd Hshows Hline Hnone Hself He.
    revert self2 st2 Hfree Hdoc2 Hquiet.
    induction es2 as [|x es2 IH]; intros self2 st2 Hfree Hdoc2 Hquiet.
    - simpl. rewrite <- Hdoc2. exact Hfree.
    - simpl in Hquiet. apply andb_prop in Hquiet as [Hx Hquiet].
      apply negb_true_iff in Hx. cbn [fold_left].
      pose proof (lineFree_step line self2 st2 x Hx Hfree) as Hfree'.
      destruct (Decoration_step_self self2 st2 x) as [Hd3 _].
      destruct (Decoration_step (self2, st2) x) as [self3 st3].
      simpl in Hfree', Hd3. apply IH; [|congruence | exact Hquiet].
      rewrite Hd3. exact Hfree'. }
  assert (Hed : In e (editors self)).
  { rewrite He. apply filter_In. split; [exact Hin|].
    apply Nat.eqb_eq, Hdoc. }
  rewrite (Hshows Hnone i layer e) in Hd by (rewrite ?Hself; assumption).
  apply In_arrayValues in Hd as [n Hn].
  rewrite (Hline i layer n d Hi Hn).
  intros ->. rewrite (Hfree i layer Hi) in Hn. discriminate.
Qed.

Lemma cleared_line_shows_nothing_witness :
  let st :=
    snd (Decoration_run 7
           (VSCode.mkWindow [VSCode.mkTextEditor 0 7] ∅ 0)
           ([SetCheckingMessage 3; SetCheckingMessage 4]
              ++ ClearLine 3 :: [Resume; Timer; Resume; Timer])) in
  exists layer,
    arrayGet (layersOf 7 st) 0 = Some layer
    /\ Forall (fun d => VSCode.line (VSCode.start (VSCode.range d)) <> 3%nat)
         (VSCode.decorationsOf (window st) (VSCode.mkTextEditor 0 7)
            (type layer)).
Proof.
  eexists. split; [vm_compute; reflexivity|].
  apply Forall_forall. intros d Hd. apply list_elem_of_In in Hd.
  apply (cleared_line_shows_nothing 7
           (VSCode.mkWindow [VSCode.mkTextEditor 0 7] ∅ 0)
           [SetCheckingMessage 3; SetCheckingMessage 4]
           [Resume; Timer; Resume; Timer] 3 eq_refl
           ltac:(vm_compute; reflexivity) 0%nat _
           (VSCode.mkTextEditor 0 7) d ltac:(vm_compute; reflexivity)).
  - simpl. auto.
  - reflexivity.
  - exact Hd.
Defined.

(** X18. [DocumentDecorationManager.flush(document)] removes the manager
    of the document and leaves those of other documents; on every editor
    that is visible and shows the document it empties the decorations of
    every layer of the document; decorations of other types, and those of
    editors that are not among the visible editors of the document, stay
    as they are.  A [render] that runs afterwards registers a new manager
    without layers for the document and changes nothing in the window. *)
Theorem flush_clears_visible_editors (doc : nat) (st : Decorations) :
  let st' := flush doc st in
  documents st' !! doc = None
  /\ (forall d, d <> doc -> documents st' !! d = documents st !! d)
  /\ (forall i layer e,
        arrayGet (layersOf doc st) i = Some layer ->
        In e (VSCode.visibleTextEditors (window st)) ->
        VSCode.document e = doc ->
        VSCode.decorationsOf (window st') e (type layer) = [])
  /\ (forall e t,
        (forall i layer,
           arrayGet (layersOf doc st) i = Some layer -> type layer <> t)
        \/ (forall e',
              In e' (VSCode.visibleTextEditors (window st)) ->
              VSCode.document e' = doc -> VSCode.editor e' <> VSCode.editor e) ->
        VSCode.decorationsOf (window st') e t
        = VSCode.decorationsOf (window st) e t)
  /\ (forall self,
        document self = doc ->
        renderCallback self st'
        = mkDecorations
            (<[doc := mkDocumentDecorationManager []]> (documents st'))
            (window st')).
Proof.
  intros st'. unfold st'. rewrite flush_spec. simpl.
  split; [apply lookup_delete_eq|].
  split; [intros d Hd; apply lookup_delete_ne; congruence|].
  split; [|split].
  - intros i layer e Hi Hin Hdoc. unfold VSCode.decorationsOf.
    rewrite (decorated_const [] _ _ (window st) layer e).
    + reflexivity.
    + apply In_arrayValues. eauto.
    + apply filter_In. split; [exact Hin|]. apply Nat.eqb_eq, Hdoc.
  - intros e t H. unfold VSCode.decorationsOf.
    rewrite decorated_other; [reflexivity|].
    destruct H as [H | H]; [left | right].
    + intros l [i Hi]%In_arrayValues. eapply H, Hi.
    + intros e' [Hin Hdoc%Nat.eqb_eq]%filter_In. apply H; assumption.
  - intros self Hself. rewrite renderCallback_spec, Hself.
    unfold from, layersOf. simpl. rewrite lookup_delete_eq. reflexivity.
Qed.

(** The second message of [setUpdateMessage] is the latest version. *)
Lemma setUpdateMessage_second (line : nat) (name versionLatest : string)
  (packagesInstalled : option PackagesInstalled)
  (self : DocumentDecoration) (st : Decorations) :
  exists l',
    arrayGet
      (layersOf (document self)
         (snd (setUpdateMessage line name versionLatest packagesInstalled
                 self st))) 1
    = Some l'
    /\ arrayGet (lines l') line
       = Some (lineDecoration line 1
                 (mkMessage versionLatest (Some {[ "color" := "blue" ]}))).
Proof.
  unfold setUpdateMessage. cbv zeta.
  match goal with
  | |- context [setLine line ?ms self st] =>
      destruct (setLine_layers line ms self st) as (_ & Hin & _);
      assert (Hm : ms !! 1%nat
                   = Some (mkMessage versionLatest
                             (Some {[ "color" := "blue" ]})))
  end.
  { destruct (decide _); reflexivity. }
  destruct (Hin 1%nat _ Hm) as (l' & Hl' & Hd & _). eauto.
Qed.

(** X19. After [setUpdateMessage], the line reads, layer by layer: the
    notice in gray with the wider margin, the latest version in blue, and
    [(already installed)] in black exactly when the installed version of
    the package is the latest version.  The colour of the style replaces
    the default, silver.  When the installed version differs or is not
    known, the third layer is not touched and keeps what it held for the
    line. *)
Theorem setUpdateMessage_layers (line : nat) (name versionLatest : string)
  (packagesInstalled : option PackagesInstalled)
  (self : DocumentDecoration) (st : Decorations) :
  let st' :=
    snd (setUpdateMessage line name versionLatest packagesInstalled self st) in
  let old := layersOf (document self) st in
  let new := layersOf (document self) st' in
  lineText new 0 line
  = Some (Some "⚠ Update available:", Some "gray", Some "0 0 0 2ch")
  /\ lineText new 1 line
     = Some (Some versionLatest, Some "blue", Some "0 0 0 1ch")
  /\ (if decide (match packagesInstalled with
                 | Some installed => installed !! name
                 | None => None
                 end = Some versionLatest)
      then lineText new 2 line
           = Some (Some "(already installed)", Some "black", Some "0 0 0 1ch")
      else arrayGet new 2 = arrayGet old 2)
  /\ (forall i, (3 <= i)%nat -> arrayGet new i = arrayGet old i).
Proof.
  intros st' old new. unfold new, old, st', setUpdateMessage. cbv zeta.
  clear st' old new.
  set (installed := match packagesInstalled with
                    | Some installed => installed !! name
                    | None => None
                    end).
  set (two := [mkMessage "⚠ Update available:" (Some {[ "color" := "gray" ]});
               mkMessage versionLatest (Some {[ "color" := "blue" ]})]).
  assert (Htext : forall ms i m,
             ms !! i = Some m ->
             lineText (layersOf (document self)
                         (snd (setLine line ms self st))) i line
             = Some (VSCode.renderOptions_after (lineDecoration line i m)
                       !! "contentText",
                     VSCode.renderOptions_after (lineDecoration line i m)
                       !! "color",
                     VSCode.renderOptions_after (lineDecoration line i m)
                       !! "margin")).
  { intros ms i m Hm.
    destruct (setLine_layers line ms self st) as (_ & Hin & _).
    destruct (Hin i m Hm) as (l' & Hl' & Hd & _).
    unfold lineText. rewrite Hl', Hd. reflexivity. }
  destruct (decide (Some versionLatest = installed)) as [Heq|Hne].
  - destruct (decide (installed = Some versionLatest)); [|congruence].
    split; [erewrite (Htext _ 0%nat) by reflexivity; vm_compute; reflexivity|].
    split; [erewrite (Htext _ 1%nat) by reflexivity; vm_compute; reflexivity|].
    split; [erewrite (Htext _ 2%nat) by reflexivity; vm_compute; reflexivity|].
    intros i Hi.
    destruct (setLine_layers line
                (two ++ [mkMessage "(already installed)"
                           (Some {[ "color" := "black" ]})]) self st)
      as (Hout & _). apply Hout. simpl. exact Hi.
  - destruct (decide (installed = Some versionLatest)); [congruence|].
    split; [erewrite (Htext _ 0%nat) by reflexivity; vm_compute; reflexivity|].
    split; [erewrite (Htext _ 1%nat) by reflexivity; vm_compute; reflexivity|].
    destruct (setLine_layers line two self st) as (Hout & _).
    split; [apply Hout; simpl; lia|].
    intros i Hi. apply Hout. simpl. lia.
Qed.

(** X20. [setCheckingMessage(line)] writes the checking mark, in the
    default colour and with the wider margin, to the first layer and
    leaves every other layer as it is.  Called after [setUpdateMessage]
    for the same line, it leaves the latest version of that call on the
    second layer of the line: only [clearLine] removes it. *)
Theorem setCheckingMessage_replaces_first_only (line : nat)
  (name versionLatest : string) (packagesInstalled : option PackagesInstalled)
  (self : DocumentDecoration) (st : Decorations) :
  let checked := snd (setCheckingMessage line self st) in
  let updated :=
    setUpdateMessage line name versionLatest packagesInstalled self st in
  let both := snd (setCheckingMessage line (fst updated) (snd updated)) in
  lineText (layersOf (document self) checked) 0 line
  = Some (Some "🗘", Some "silver", Some "0 0 0 2ch")
  /\ (forall i, (1 <= i)%nat ->
        arrayGet (layersOf (document self) checked) i
        = arrayGet (layersOf (document self) st) i)
  /\ lineText (layersOf (document self) both) 0 line
     = Some (Some "🗘", Some "silver", Some "0 0 0 2ch")
  /\ lineText (layersOf (document self) both) 1 line
     = Some (Some versionLatest, Some "blue", Some "0 0 0 1ch").
Proof.
  intros checked updated both.
  assert (Hcheck : forall self0 st0,
             lineText (layersOf (document self0)
                         (snd (setCheckingMessage line self0 st0))) 0 line
             = Some (Some "🗘", Some "silver", Some "0 0 0 2ch")
             /\ forall i, (1 <= i)%nat ->
                  arrayGet (layersOf (document self0)
                              (snd (setCheckingMessage line self0 st0))) i
                  = arrayGet (layersOf (document self0) st0) i).
  { intros self0 st0. unfold setCheckingMessage.
    destruct (setLine_layers line [mkMessage "🗘" None] self0 st0)
      as (Hout & Hin & _).
    split; [|intros i Hi; apply Hout; simpl; exact Hi].
    destruct (Hin 0%nat _ eq_refl) as (l' & Hl' & Hd & _).
    unfold lineText. rewrite Hl', Hd. vm_compute. reflexivity. }
  destruct (Hcheck self st) as [H0 Hrest].
  split; [exact H0|]. split; [exact Hrest|].
  assert (Hdoc : document (fst updated) = document self).
  { apply (Decoration_step_self self st
             (SetUpdateMessage line name versionLatest packagesInstalled)). }
  destruct (Hcheck (fst updated) (snd updated)) as [H0' Hrest'].
  rewrite Hdoc in H0', Hrest'.
  split; [exact H0'|].
  unfold lineText, both. rewrite (Hrest' 1%nat) by lia.
  destruct (setUpdateMessage_second line name versionLatest packagesInstalled
              self st) as (l' & Hl' & Hd).
  fold updated in Hl'. rewrite Hl', Hd. vm_compute. reflexivity.
Qed.

Lemma renderStep_decorations (step : Lazy unit -> Lazy unit)
  (self : DocumentDecoration) (st : Decorations) (k t : nat) :
  (forall e, In e (editors self) -> VSCode.editor e <> k) ->
  VSCode.decorations (window (snd (renderStep step self st))) !! (k, t)
  = VSCode.decorations (window st) !! (k, t).
Proof.
  intros Hk. unfold renderStep. simpl.
  generalize (drop (length (invoked (render self)))
                (invoked (step (render self)))).
  intros l. revert st. induction l as [|u l IH]; intros st; simpl;
    [reflexivity|].
  rewrite IH, renderCallback_spec. simpl.
  apply decorated_other. right. exact Hk.
Qed.

Lemma setLine_decorations (line : nat) (messages : list Message)
  (self : DocumentDecoration) (st : Decorations) (k t : nat) :
  (forall e, In e (editors self) -> VSCode.editor e <> k) ->
  VSCode.decorations (window (snd (setLine line messages self st))) !! (k, t)
  = VSCode.decorations (window st) !! (k, t).
Proof.
  intros Hk.
  destruct (setLine_mid line messages self st)
    as (manager' & w' & k' & Hfold & ->).
  rewrite renderStep_decorations by exact Hk. simpl.
  apply setLine_fold in Hfold as (_ & -> & _). reflexivity.
Qed.

(** X21. A [DocumentDecoration] decorates the editors it found when it
    was created and no others: as long as its document is not flushed, an
    editor that was not visible with the document at that time shows what
    it showed then, whatever is set or cleared and however the visible
    editors change. *)
Theorem later_editors_stay_undecorated (doc : nat) (w : VSCode.Window)
  (es : list DecorationEvent) :
  forallb (fun e => negb (flushes doc e)) es = true ->
  let st := snd (Decoration_run doc w es) in
  forall e t,
    (forall e0,
       In e0 (VSCode.visibleTextEditors w) -> VSCode.document e0 = doc ->
       VSCode.editor e0 <> VSCode.editor e) ->
    VSCode.decorationsOf (window st) e t = VSCode.decorationsOf w e t.
Proof.
  intros Hquiet st e t Hnew. unfold st, VSCode.decorationsOf. f_equal.
  clear st. induction es as [|x es IH] using rev_ind; [reflexivity|].
  rewrite forallb_app in Hquiet. apply andb_prop in Hquiet as [Hes Hx].
  simpl in Hx. rewrite andb_true_r in Hx. apply negb_true_iff in Hx.
  rewrite <- (IH Hes). clear IH.
  rewrite Decoration_run_snoc.
  destruct (Decoration_run_inv doc w es) as ((Honly & _) & Hd & He).
  destruct (Decoration_run doc w es) as [self st]. simpl in Honly, Hd, He.
  assert (Hk : forall e0, In e0 (editors self) ->
                          VSCode.editor e0 <> VSCode.editor e).
  { intros e0. rewrite He. intros [Hin Hdoc%Nat.eqb_eq]%filter_In.
    apply Hnew; assumption. }
  destruct x as [line | line | line name latest installed | | | d | visible];
    cbn [Decoration_step flushes] in *.
  - rewrite clearLine_mid, renderStep_decorations by exact Hk. reflexivity.
  - apply setLine_decorations, Hk.
  - apply setLine_decorations, Hk.
  - apply renderStep_decorations, Hk.
  - apply renderStep_decorations, Hk.
  - apply Nat.eqb_neq in Hx. simpl. rewrite flush_spec. simpl.
    assert (Hnone : documents st !! d = None).
    { destruct (documents st !! d) as [m|] eqn:Hm; [|reflexivity].
      rewrite Hd in Honly. destruct (Hx (Honly d m Hm)). }
    unfold layersOf. rewrite Hnone. reflexivity.
  - reflexivity.
Qed.

Lemma later_editors_stay_undecorated_witness :
  VSCode.decorationsOf
    (window
       (snd (Decoration_run 7
               (VSCode.mkWindow [VSCode.mkTextEditor 0 7] ∅ 0)
               [SetCheckingMessage 3;
                Editors [VSCode.mkTextEditor 0 7; VSCode.mkTextEditor 1 7];
                SetCheckingMessage 4; Resume; Timer])))
    (VSCode.mkTextEditor 1 7) 0
  = [].
Proof.
  rewrite (later_editors_stay_undecorated 7
             (VSCode.mkWindow [VSCode.mkTextEditor 0 7] ∅ 0)
             [SetCheckingMessage 3;
              Editors [VSCode.mkTextEditor 0 7; VSCode.mkTextEditor 1 7];
              SetCheckingMessage 4; Resume; Timer] eq_refl
             (VSCode.mkTextEditor 1 7) 0%nat).
  - reflexivity.
  - intros e0 [<- | []] _. discriminate.
Defined.
